(** * ALGO-GEN: a genetic algorithm for assignment-style problems

    Shallow embedding of the Python sources
      core_functions/{instance,fitness,Selection,crossover,mutation}.py
      Algorithms/{Tournament,roulette,genetic_algorithm}.py
    and the properties of the specification proved (or refuted) on it.

    Modelling conventions.
    - A Python [int] is a [Z]; a Python [float] is read as the rational
      [Q] that the exact computation gives. The division 1 / (1 + cost)
      of fitness.py is also given as the interpreter carries it out,
      rounded to binary64 ([reciprocal], [fitness_binary64]): the
      properties of the fitness value itself are settled on that form.
    - An attribute that may still hold [None] is an [option].
    - An exception is the [Raise] outcome of the result type [res]; the
      while loops run on fuel and report its exhaustion as [OutOfFuel], which
      is shown never to happen.
    - The module [random] reads raw numbers from an explicit source [rng];
      every primitive reduces the raw number into the range Python
      guarantees for it, so every source is a possible run and every
      outcome Python allows comes from some source.
    - Lists are Python objects: where a function writes into a list (the
      mutation operators) the list lives at an address of a [heap]. *)

From Stdlib Require Import ZArith QArith List Lia Lqa String Permutation.
From stdpp Require Import base list.
Import ListNotations.
Open Scope Z_scope.

(* ===================================================================== *)
(** * The Python runtime the sources rely on                              *)
(* ===================================================================== *)

Module Py.

Inductive exn : Type :=
| ValueError | TypeError | AssertionError | AttributeError
| ZeroDivisionError | IndexError | StatisticsError.

Inductive res (A : Type) : Type :=
| Ok (a : A)
| Raise (e : exn)
| OutOfFuel.
Arguments Ok {A} a.
Arguments Raise {A} e.
Arguments OutOfFuel {A}.

#[export] Instance res_ret : MRet res := fun A a => Ok a.
#[export] Instance res_bind : MBind res := fun A B f c =>
  match c with
  | Ok a => f a
  | Raise e => Raise e
  | OutOfFuel => OutOfFuel
  end.

(** The source of randomness: an infinite sequence of raw numbers and the
    position of the next one. *)
Record rng : Type := Rng { draws : nat -> N; pos : nat }.

Definition M (A : Type) : Type := rng -> res (A * rng).

#[export] Instance M_ret : MRet M := fun A a r => Ok (a, r).
#[export] Instance M_bind : MBind M := fun A B f c r =>
  match c r with
  | Ok (a, r') => f a r'
  | Raise e => Raise e
  | OutOfFuel => OutOfFuel
  end.

Definition raise {A} (e : exn) : M A := fun _ => Raise e.
Definition out_of_fuel {A} : M A := fun _ => OutOfFuel.
Definition lift {A} (c : res A) : M A := fun r =>
  match c with
  | Ok a => Ok (a, r)
  | Raise e => Raise e
  | OutOfFuel => OutOfFuel
  end.

Definition next_raw : M N := fun r =>
  Ok (draws r (pos r), Rng (draws r) (S (pos r))).

(** [random.random()]: a multiple of 2^-53 in [0, 1). *)
Definition random : M Q :=
  n ← next_raw;
  mret (Z.of_N (n mod 2 ^ 53) # 2 ^ 53).

(** [random.randint(a, b)]: an integer of [a, b]; [ValueError] on an empty
    range. *)
Definition randint (a b : Z) : M Z :=
  if b <? a then raise ValueError
  else n ← next_raw; mret (a + Z.of_N n mod (b - a + 1)).

(** [random.uniform(a, b)] is [a + (b - a) * random()]. *)
Definition uniform (a b : Q) : M Q :=
  u ← random; mret (a + (b - a) * u)%Q.

(** [random.sample(population, k)]: [k] elements at distinct positions, in
    the order drawn; [ValueError] unless [0 <= k <= len(population)]. *)
Fixpoint sample_from {A} (pool : list A) (k : nat) : M (list A) :=
  match k with
  | O => mret []
  | S k' =>
      n ← next_raw;
      let i := N.to_nat (n mod N.of_nat (length pool)) in
      match pool !! i with
      | Some x => rest ← sample_from (delete i pool) k'; mret (x :: rest)
      | None => mret []
      end
  end.

Definition sample {A} (population : list A) (k : Z) : M (list A) :=
  if (k <? 0) || (Z.of_nat (length population) <? k) then raise ValueError
  else sample_from population (Z.to_nat k).

(** [sum] of integers and of floats. *)
Definition sumZ (l : list Z) : Z := fold_left Z.add l 0.
Definition sumQ (l : list Q) : Q := fold_left Qplus l 0%Q.

(** [max(l)] on integers: the first greatest element; [ValueError] on an
    empty list. *)
Definition maxZ (l : list Z) : res Z :=
  match l with
  | [] => Raise ValueError
  | x :: l' => Ok (fold_left (fun m y => if m <? y then y else m) l' x)
  end.

(** [x > y] on attributes that may be [None]: Python refuses to order
    [None]. *)
Definition gt (x y : option Q) : res bool :=
  match x, y with
  | Some a, Some b => Ok (negb (Qle_bool a b))
  | _, _ => Raise TypeError
  end.

(** [max(l, key=key)]: the first element whose key is greatest. The
    candidate is replaced only by a strictly greater key. *)
Fixpoint max_from {A} (key : A -> option Q) (best : A) (l : list A) : res A :=
  match l with
  | [] => Ok best
  | x :: l' =>
      b ← gt (key x) (key best);
      max_from key (if b : bool then x else best) l'
  end.

Definition max_key {A} (key : A -> option Q) (l : list A) : res A :=
  match l with
  | [] => Raise ValueError
  | x :: l' => max_from key x l'
  end.

(** [statistics.mean]: the exact mean; [StatisticsError] on no data. *)
Definition mean (l : list Q) : res Q :=
  match l with
  | [] => Raise StatisticsError
  | _ => Ok (sumQ l / inject_Z (Z.of_nat (length l)))%Q
  end.

(** [1 / n] on a Python [int] [n >= 1] as the interpreter carries it
    out: true division of integers returns the IEEE binary64 number
    nearest to the exact quotient, a tie going to the even significand.
    For [2^k <= n < 2^(k+1)] the quotient lies in (2^-(k+1), 2^-k]: the
    binary64 numbers there are the multiples of 2^-(k+53), or of 2^-1074
    once they are subnormal, and a quotient below half of 2^-1074 is 0.0;
    a quotient of at most 1 cannot overflow. *)
Definition round_half_even (a n : Z) : Z :=
  let q := a / n in
  let r := a mod n in
  if 2 * r <? n then q
  else if n <? 2 * r then q + 1
  else if Z.even q then q else q + 1.

Definition ulp_exponent (n : Z) : Z := Z.min (Z.log2 n + 53) 1074.

Definition reciprocal (n : Z) : Q :=
  Qred (inject_Z (round_half_even (2 ^ ulp_exponent n) n) /
        inject_Z (2 ^ ulp_exponent n)).

(** [l[:n]] for an integer [n] of either sign. *)
Definition slice_to {A} (l : list A) (n : Z) : list A :=
  if 0 <=? n then take (Z.to_nat n) l
  else take (length l - Z.to_nat (- n)) l.

(** [l[n:]] for an integer [n] of either sign. *)
Definition slice_from {A} (l : list A) (n : Z) : list A :=
  if 0 <=? n then drop (Z.to_nat n) l
  else drop (length l - Z.to_nat (- n)) l.

End Py.
Import Py.

(* ===================================================================== *)
(** * core_functions/instance.py                                          *)
(* ===================================================================== *)

Module instance_py.

Record Instance : Type := { size : Z; data : list Z }.

Record Individual : Type :=
  { chromosome : list Z; cost : option Z; fitness : option Q }.

(** [Individual(chromosome)]: cost and fitness start as [None]. *)
Definition new_Individual (chromosome : list Z) : Individual :=
  {| chromosome := chromosome; cost := None; fitness := None |}.

End instance_py.

(* ===================================================================== *)
(** * core_functions/fitness.py                                           *)
(* ===================================================================== *)

Module fitness_py.
Import instance_py.

Definition compute_cost (individual : Individual) (inst : Instance) : Z :=
  sumZ (map (fun '(g, d) => Z.abs (g - d))
            (zip (chromosome individual) (data inst))).

(** [fitness] writes [cost] and [fitness] on the individual and returns the
    fitness: the result is the value returned and the individual after the
    two writes. The division is read as the exact quotient. *)
Definition fitness (individual : Individual) (inst : Instance)
  : res (Q * Individual) :=
  let c := compute_cost individual inst in
  let individual := {| chromosome := chromosome individual;
                       cost := Some c;
                       fitness := instance_py.fitness individual |} in
  if 1 + c =? 0 then Raise ZeroDivisionError
  else
    let f := (1 / inject_Z (1 + c))%Q in
    Ok (f, {| chromosome := chromosome individual;
              cost := cost individual;
              fitness := Some f |}).

(** [fitness] with the division of line 7 as the interpreter carries it
    out on the integer [1 + individual.cost], in binary64. *)
Definition fitness_binary64 (individual : Individual) (inst : Instance)
  : res (Q * Individual) :=
  let c := compute_cost individual inst in
  let individual := {| chromosome := chromosome individual;
                       cost := Some c;
                       instance_py.fitness := instance_py.fitness individual |} in
  if 1 + c =? 0 then Raise ZeroDivisionError
  else
    let f := reciprocal (1 + c) in
    Ok (f, {| chromosome := chromosome individual;
              cost := cost individual;
              instance_py.fitness := Some f |}).

End fitness_py.

(* ===================================================================== *)
(** * core_functions/Selection.py                                         *)
(* ===================================================================== *)

Module Selection_py.
Import instance_py.

(** [sum(ind.fitness for ind in population)], from the accumulator [acc]. *)
Fixpoint sum_fitness (acc : Q) (population : list Individual) : res Q :=
  match population with
  | [] => Ok acc
  | ind :: rest =>
      match fitness ind with
      | Some f => sum_fitness (acc + f)%Q rest
      | None => Raise TypeError
      end
  end.

(** The [for] loop of [roulette_selection]; falling off its end returns
    Python's [None]. *)
Fixpoint spin (pick current : Q) (population : list Individual)
  : res (option Individual) :=
  match population with
  | [] => Ok None
  | ind :: rest =>
      match fitness ind with
      | Some f =>
          let current := (current + f)%Q in
          if Qle_bool pick current then Ok (Some ind)
          else spin pick current rest
      | None => Raise TypeError
      end
  end.

Definition roulette_selection (population : list Individual)
  : M (option Individual) :=
  total ← lift (sum_fitness 0 population);
  pick ← uniform 0 total;
  lift (spin pick 0 population).

Definition tournament_selection (population : list Individual) (k : Z)
  : M Individual :=
  selected ← sample population k;
  lift (max_key fitness selected).

End Selection_py.

(* ===================================================================== *)
(** * core_functions/crossover.py                                         *)
(* ===================================================================== *)

Module crossover_py.

Definition one_point (parent1 parent2 : list Z) : M (list Z * list Z) :=
  if negb (length parent1 =? length parent2)%nat then raise AssertionError
  else
    point ← randint 1 (Z.of_nat (length parent1) - 1);
    let child1 := slice_to parent1 point ++ slice_from parent2 point in
    let child2 := slice_to parent2 point ++ slice_from parent1 point in
    mret (child1, child2).

(** The [for] loop of [uniform] over [zip(parent1, parent2)]. *)
Fixpoint uniform_loop (pairs : list (Z * Z)) (child1 child2 : list Z)
  : M (list Z * list Z) :=
  match pairs with
  | [] => mret (child1, child2)
  | (g1, g2) :: rest =>
      u ← random;
      if negb (Qle_bool (1 # 2) u)
      then uniform_loop rest (child1 ++ [g1]) (child2 ++ [g2])
      else uniform_loop rest (child1 ++ [g2]) (child2 ++ [g1])
  end.

Definition uniform (parent1 parent2 : list Z) : M (list Z * list Z) :=
  if negb (length parent1 =? length parent2)%nat then raise AssertionError
  else uniform_loop (zip parent1 parent2) [] [].

End crossover_py.

(* ===================================================================== *)
(** * core_functions/mutation.py                                          *)
(* ===================================================================== *)

Module mutation_py.

(** The list objects: the object at address [l] is the [l]-th list. *)
Abbreviation loc := nat (only parsing).
Abbreviation heap := (list (list Z)) (only parsing).

Definition obj (h : heap) (l : loc) : list Z := h !!! l.

(** [l.copy()]: a new object with the same items. *)
Definition copy (h : heap) (l : loc) : loc * heap :=
  (length h, h ++ [obj h l]).

(** [l[i]] and [l[i] = v] for [0 <= i]. *)
Definition get_item (h : heap) (l : loc) (i : nat) : res Z :=
  match obj h l !! i with
  | Some v => Ok v
  | None => Raise IndexError
  end.

Definition set_item (h : heap) (l : loc) (i : nat) (v : Z) : res heap :=
  if (i <? length (obj h l))%nat then Ok (<[l := <[i := v]> (obj h l)]> h)
  else Raise IndexError.

(** [l[i:j] = reversed(l[i:j])] for [0 <= i <= j]. *)
Definition reverse_slice (h : heap) (l : loc) (i j : nat) : heap :=
  let items := obj h l in
  <[l := take i items ++ rev (take (j - i) (drop i items)) ++ drop j items]> h.

Definition swap (chromosome : loc) (h : heap) : M (loc * heap) :=
  let '(child, h) := copy h chromosome in
  ij ← sample (seq 0 (length (obj h child))) 2;
  match ij with
  | [i; j] =>
      cj ← lift (get_item h child j);
      ci ← lift (get_item h child i);
      h ← lift (set_item h child i cj);
      h ← lift (set_item h child j ci);
      mret (child, h)
  | _ => raise ValueError
  end.

Definition inversion (chromosome : loc) (h : heap) : M (loc * heap) :=
  let '(child, h) := copy h chromosome in
  ij ← sample (seq 0 (length (obj h child))) 2;
  match ij with
  | [a; b] =>
      let i := Nat.min a b in
      let j := Nat.max a b in
      mret (child, reverse_slice h child i j)
  | _ => raise ValueError
  end.

Definition random_reset (chromosome : loc) (min_val max_val : Z) (h : heap)
  : M (loc * heap) :=
  let '(child, h) := copy h chromosome in
  i ← randint 0 (Z.of_nat (length (obj h child)) - 1);
  v ← randint min_val max_val;
  h ← lift (set_item h child (Z.to_nat i) v);
  mret (child, h).

(** A mutation operator used on a list that nobody else holds: the caller
    passes its list and keeps only the child. *)
Definition on_value (op : loc -> heap -> M (loc * heap)) (chrom : list Z)
  : M (list Z) :=
  '(child, h) ← op 0%nat [chrom];
  mret (obj h child).

End mutation_py.

(* ===================================================================== *)
(** * Algorithms/Tournament.py                                            *)
(* ===================================================================== *)

Module Tournament_py.

Definition score_at (scores : list Q) (ix : Z) : res Q :=
  match scores !! Z.to_nat ix with
  | Some s => Ok s
  | None => Raise IndexError
  end.

(** The [for _ in range(k - 1)] loop. *)
Fixpoint challenge {A} (population : list A) (scores : list Q)
    (rounds : nat) (selection_ix : Z) : M Z :=
  match rounds with
  | O => mret selection_ix
  | S rounds' =>
      ix ← randint 0 (Z.of_nat (length population) - 1);
      s_ix ← lift (score_at scores ix);
      s_sel ← lift (score_at scores selection_ix);
      challenge population scores rounds'
        (if negb (Qle_bool s_ix s_sel) then ix else selection_ix)
  end.

Definition tournament_selection {A} (population : list A) (scores : list Q)
    (k : Z) : M A :=
  selection_ix ← randint 0 (Z.of_nat (length population) - 1);
  selection_ix ← challenge population scores (Z.to_nat (k - 1)) selection_ix;
  match population !! Z.to_nat selection_ix with
  | Some x => mret x
  | None => raise IndexError
  end.

(** The outer [for _ in range(pop_size)] loop of
    [tournament_selection_population]; its body repeats the text of
    [tournament_selection]. *)
Fixpoint select_all {A} (population : list A) (scores : list Q) (k : Z)
    (n : nat) (new_population : list A) : M (list A) :=
  match n with
  | O => mret new_population
  | S n' =>
      selection_ix ← randint 0 (Z.of_nat (length population) - 1);
      selection_ix ←
        challenge population scores (Z.to_nat (k - 1)) selection_ix;
      match population !! Z.to_nat selection_ix with
      | Some x => select_all population scores k n' (new_population ++ [x])
      | None => raise IndexError
      end
  end.

Definition tournament_selection_population {A} (population : list A)
    (scores : list Q) (k : Z) : M (list A) :=
  select_all population scores k (length population) [].

End Tournament_py.

(* ===================================================================== *)
(** * Algorithms/roulette.py                                              *)
(* ===================================================================== *)

Module roulette_py.

(** [itertools.accumulate]. *)
Fixpoint accumulate (acc : Q) (weights : list Q) : list Q :=
  match weights with
  | [] => []
  | w :: rest => (acc + w)%Q :: accumulate (acc + w)%Q rest
  end.

(** [bisect(cum_weights, x, 0, hi)] on the non-decreasing list that
    non-negative weights accumulate to: the number of items among the
    first [hi] that are [<= x]. *)
Fixpoint bisect (cum_weights : list Q) (x : Q) (hi : nat) : nat :=
  match hi, cum_weights with
  | S hi', c :: rest => if Qle_bool c x then S (bisect rest x hi') else O
  | _, _ => O
  end.

(** [random.choices(population, weights, k=k)]. *)
Fixpoint choose {A} (population : list A) (cum_weights : list Q)
    (total : Q) (k : nat) : M (list A) :=
  match k with
  | O => mret []
  | S k' =>
      u ← random;
      match population !! bisect cum_weights (u * total)%Q
                               (length population - 1) with
      | Some x => rest ← choose population cum_weights total k'; mret (x :: rest)
      | None => raise IndexError
      end
  end.

Definition choices {A} (population : list A) (weights : list Q) (k : Z)
  : M (list A) :=
  let cum_weights := accumulate 0 weights in
  if negb (length cum_weights =? length population)%nat then raise ValueError
  else
    match last cum_weights with
    | None => raise IndexError
    | Some total =>
        if Qle_bool total 0 then raise ValueError
        else choose population cum_weights total (Z.to_nat k)
    end.

Definition roulette_selection {A} (population : list A)
    (fitness_scores : list Q) (num_parents : Z) : M (list A) :=
  if existsb (fun f => negb (Qle_bool 0 f)) fitness_scores
  then raise ValueError
  else choices population fitness_scores num_parents.

End roulette_py.

(* ===================================================================== *)
(** * Algorithms/genetic_algorithm.py                                     *)
(* ===================================================================== *)

Module genetic_algorithm_py.
Import instance_py.

(** The function objects [__init__] binds to [self.crossover_op] and
    [self.mutation_op]; the third mutation is the lambda around
    [random_reset]. *)
Inductive crossover_fn : Type := one_point | uniform.
Inductive mutation_fn : Type := swap | inversion | random_reset_lambda.

Record GeneticAlgorithm : Type := {
  instance : Instance;
  pop_size : Z;
  crossover_rate : Q;
  mutation_rate : Q;
  max_generations : Z;
  tournament_k : Z;
  crossover_op : crossover_fn;
  mutation_op : mutation_fn;
  selection_op : string;
  best_fitness_history : list (option Q);
  avg_fitness_history : list Q;
  best_cost_history : list (option Z);
  diversity_history : list Q
}.

Definition __init__ (instance : Instance) (pop_size : Z)
    (crossover_rate mutation_rate : Q) (max_generations : Z)
    (crossover_op mutation_op selection_op : string) (tournament_k : Z)
  : res GeneticAlgorithm :=
  Ok {| instance := instance;
        pop_size := pop_size;
        crossover_rate := crossover_rate;
        mutation_rate := mutation_rate;
        max_generations := max_generations;
        tournament_k := tournament_k;
        crossover_op :=
          if String.eqb crossover_op "one_point" then one_point else uniform;
        mutation_op :=
          if String.eqb mutation_op "swap" then swap
          else if String.eqb mutation_op "inversion" then inversion
          else random_reset_lambda;
        selection_op := selection_op;
        best_fitness_history := [];
        avg_fitness_history := [];
        best_cost_history := [];
        diversity_history := [] |}.

(** [[random.randint(0, max(data)) for _ in range(n)]]. *)
Fixpoint random_chromosome (self : GeneticAlgorithm) (n : nat) : M (list Z) :=
  match n with
  | O => mret []
  | S n' =>
      hi ← lift (maxZ (data (instance self)));
      g ← randint 0 hi;
      rest ← random_chromosome self n';
      mret (g :: rest)
  end.

Fixpoint initialize_population_loop (self : GeneticAlgorithm) (n : nat)
    (population : list Individual) : M (list Individual) :=
  match n with
  | O => mret population
  | S n' =>
      chromosome ←
        random_chromosome self (Z.to_nat (size (instance self)));
      let ind := new_Individual chromosome in
      '(_, ind) ← lift (fitness_py.fitness ind (instance self));
      initialize_population_loop self n' (population ++ [ind])
  end.

Definition initialize_population (self : GeneticAlgorithm)
  : M (list Individual) :=
  initialize_population_loop self (Z.to_nat (pop_size self)) [].

(** The parent selected, or Python's [None] when roulette falls off its
    loop. *)
Definition select_parent (self : GeneticAlgorithm)
    (population : list Individual) : M (option Individual) :=
  if String.eqb (selection_op self) "roulette"
  then Selection_py.roulette_selection population
  else p ← Selection_py.tournament_selection population (tournament_k self);
       mret (Some p).

(** [sum(1 for g1, g2 in zip(c1, c2) if g1 != g2)]. *)
Definition count_diff (c1 c2 : list Z) : Z :=
  sumZ (map (fun _ => 1)
            (filter (fun '(g1, g2) => g1 ≠ g2) (zip c1 c2))).

(** [range(a, b)] on non-negative bounds. *)
Definition range (a b : nat) : list nat := seq a (b - a).

Fixpoint diversity_inner (population : list Individual) (i : nat)
    (js : list nat) (differences : list Q) : res (list Q) :=
  match js with
  | [] => Ok differences
  | j :: js' =>
      match population !! i, population !! j with
      | Some pi, Some pj =>
          let diff := count_diff (chromosome pi) (chromosome pj) in
          if (length (chromosome pi) =? 0)%nat then Raise ZeroDivisionError
          else
            diversity_inner population i js'
              (differences ++
                 [(inject_Z diff /
                   inject_Z (Z.of_nat (length (chromosome pi))))%Q])
      | _, _ => Raise IndexError
      end
  end.

Fixpoint diversity_outer (population : list Individual) (sample_size : nat)
    (ixs : list nat) (differences : list Q) : res (list Q) :=
  match ixs with
  | [] => Ok differences
  | i :: ixs' =>
      differences ←
        diversity_inner population i
          (range (i + 1)
                 (Nat.min (i + sample_size) (length population)))
          differences;
      diversity_outer population sample_size ixs' differences
  end.

Definition calculate_diversity (population : list Individual) : res Q :=
  if (length population <? 2)%nat then Ok 0%Q
  else
    let sample_size := Nat.min 10 (length population - 1) in
    differences ←
      diversity_outer population sample_size
        (range 0 (Nat.min 20 (length population))) [];
    match differences with
    | [] => Ok 0%Q
    | _ => mean differences
    end.

(** [p.chromosome] on what [select_parent] returned. *)
Definition chromosome_of (p : option Individual) : M (list Z) :=
  match p with
  | Some ind => mret (chromosome ind)
  | None => raise AttributeError
  end.

Definition call_crossover (self : GeneticAlgorithm) (c1 c2 : list Z)
  : M (list Z * list Z) :=
  match crossover_op self with
  | one_point => crossover_py.one_point c1 c2
  | uniform => crossover_py.uniform c1 c2
  end.

Definition call_mutation (self : GeneticAlgorithm) (chrom : list Z)
  : M (list Z) :=
  match mutation_op self with
  | swap => mutation_py.on_value mutation_py.swap chrom
  | inversion => mutation_py.on_value mutation_py.inversion chrom
  | random_reset_lambda =>
      hi ← lift (maxZ (data (instance self)));
      mutation_py.on_value (fun c => mutation_py.random_reset c 0 hi) chrom
  end.

(** [a < b] on floats. *)
Definition Qltb (a b : Q) : bool := negb (Qle_bool b a).

(** The inner [while len(new_population) < self.pop_size] loop. *)
Fixpoint breed (self : GeneticAlgorithm) (population : list Individual)
    (fuel : nat) (new_population : list Individual)
  : M (list Individual) :=
  if Z.of_nat (length new_population) <? pop_size self then
    match fuel with
    | O => out_of_fuel
    | S fuel' =>
        parent1 ← select_parent self population;
        parent2 ← select_parent self population;
        u ← random;
        '(child1_chrom, child2_chrom) ←
          (if Qltb u (crossover_rate self) then
             c1 ← chromosome_of parent1;
             c2 ← chromosome_of parent2;
             call_crossover self c1 c2
           else
             c1 ← chromosome_of parent1;
             c2 ← chromosome_of parent2;
             mret (c1, c2));
        u ← random;
        child1_chrom ←
          (if Qltb u (mutation_rate self)
           then call_mutation self child1_chrom else mret child1_chrom);
        u ← random;
        child2_chrom ←
          (if Qltb u (mutation_rate self)
           then call_mutation self child2_chrom else mret child2_chrom);
        let child1 := new_Individual child1_chrom in
        let child2 := new_Individual child2_chrom in
        '(_, child1) ← lift (fitness_py.fitness child1 (instance self));
        '(_, child2) ← lift (fitness_py.fitness child2 (instance self));
        breed self population fuel' (new_population ++ [child1; child2])
    end
  else mret new_population.

(** [statistics.mean(ind.fitness for ind in population)]. *)
Fixpoint fitness_values (population : list Individual) : res (list Q) :=
  match population with
  | [] => Ok []
  | ind :: rest =>
      match fitness ind with
      | Some f => fs ← fitness_values rest; Ok (f :: fs)
      | None => Raise TypeError
      end
  end.

(** The local variables of [run] that live across iterations, with the
    object [self] whose history lists the loop appends to. *)
Record loop_state : Type := {
  self_ : GeneticAlgorithm;
  population_ : list Individual;
  best_individual_ : Individual;
  generation_ : Z;
  stagnation_counter_ : Z
}.

Definition record_statistics (self : GeneticAlgorithm)
    (best_individual : Individual) (avg_fitness diversity : Q)
  : GeneticAlgorithm :=
  {| instance := instance self;
     pop_size := pop_size self;
     crossover_rate := crossover_rate self;
     mutation_rate := mutation_rate self;
     max_generations := max_generations self;
     tournament_k := tournament_k self;
     crossover_op := crossover_op self;
     mutation_op := mutation_op self;
     selection_op := selection_op self;
     best_fitness_history :=
       best_fitness_history self ++ [fitness best_individual];
     avg_fitness_history := avg_fitness_history self ++ [avg_fitness];
     best_cost_history := best_cost_history self ++ [cost best_individual];
     diversity_history := diversity_history self ++ [diversity] |}.

(** The body of the main [while] loop up to the stagnation test. *)
Definition generation_body (st : loop_state) : M loop_state :=
  let self := self_ st in
  let generation := generation_ st + 1 in
  new_population ←
    breed self (population_ st) (Z.to_nat (pop_size self))
      [best_individual_ st];
  let population := slice_to new_population (pop_size self) in
  current_best ← lift (max_key fitness population);
  improved ←
    lift (gt (fitness current_best) (fitness (best_individual_ st)));
  let best_individual :=
    if improved : bool then current_best else best_individual_ st in
  let stagnation_counter :=
    if improved : bool then 0 else stagnation_counter_ st + 1 in
  fs ← lift (fitness_values population);
  avg_fitness ← lift (mean fs);
  diversity ← lift (calculate_diversity population);
  mret {| self_ := record_statistics self best_individual avg_fitness
                     diversity;
          population_ := population;
          best_individual_ := best_individual;
          generation_ := generation;
          stagnation_counter_ := stagnation_counter |}.

(** The main loop: [while generation < self.max_generations], left early
    by [break] once [stagnation_counter > 200]. *)
Fixpoint main_loop (fuel : nat) (st : loop_state) : M loop_state :=
  if generation_ st <? max_generations (self_ st) then
    match fuel with
    | O => out_of_fuel
    | S fuel' =>
        st ← generation_body st;
        if 200 <? stagnation_counter_ st then mret st
        else main_loop fuel' st
    end
  else mret st.

(** The part of [run] before the main loop. *)
Definition start (self : GeneticAlgorithm) : M loop_state :=
  population ← initialize_population self;
  best_individual ← lift (max_key fitness population);
  mret {| self_ := self;
          population_ := population;
          best_individual_ := best_individual;
          generation_ := 0;
          stagnation_counter_ := 0 |}.

(** The dictionary [run] returns, without the wall-clock
    [execution_time]. The four history entries are the lists of [self]. *)
Record RunResult : Type := {
  best_individual : Individual;
  best_chromosome : list Z;
  best_cost : option Z;
  best_fitness : option Q;
  generations : Z;
  history_best_fitness : list (option Q);
  history_avg_fitness : list Q;
  history_best_cost : list (option Z);
  history_diversity : list Q
}.

Definition result_of (st : loop_state) : RunResult :=
  {| best_individual := best_individual_ st;
     best_chromosome := chromosome (best_individual_ st);
     best_cost := cost (best_individual_ st);
     best_fitness := fitness (best_individual_ st);
     generations := generation_ st;
     history_best_fitness := best_fitness_history (self_ st);
     history_avg_fitness := avg_fitness_history (self_ st);
     history_best_cost := best_cost_history (self_ st);
     history_diversity := diversity_history (self_ st) |}.

(** [run(verbose=False)]: the result and the object after the run. *)
Definition run (self : GeneticAlgorithm) : M (RunResult * GeneticAlgorithm) :=
  st ← start self;
  st ← main_loop (Z.to_nat (max_generations self)) st;
  mret (result_of st, self_ st).

End genetic_algorithm_py.

(* ===================================================================== *)
(** * Specification-side definitions                                      *)
(* ===================================================================== *)

(** The sum of [f 0], ..., [f (n - 1)]: the spec's sum over all positions. *)
Fixpoint sum_positions (n : nat) (f : nat -> Z) : Z :=
  match n with
  | O => 0
  | S n' => f O + sum_positions n' (fun i => f (S i))
  end.

(** The absolute difference of the genes and data at position [i]. *)
Definition abs_diff (chrom data : list Z) (i : nat) : Z :=
  Z.abs (chrom !!! i - data !!! i).

(** The fitness of a cost: [1 / (1 + cost)]. *)
Definition fitness_of_cost (c : Z) : Q := (1 / inject_Z (1 + c))%Q.

(** What a copy-on-write operator leaves behind: [child] is an address
    that did not exist in [h], and every object of [h], the operator's
    input included, has the items it had. *)
Definition fresh_copy (h h' : mutation_py.heap) (child : mutation_py.loc)
  : Prop :=
  (length h <= child)%nat /\
  forall l : mutation_py.loc,
    (l < length h)%nat -> mutation_py.obj h' l = mutation_py.obj h l.

(** Two lists differ at position [p]. *)
Definition differ_at (l1 l2 : list Z) (p : nat) : Prop := l1 !! p <> l2 !! p.

(** The diversity metric in the spec's words: each of the first
    min(20, n) individuals is compared with the next min(10, n - 1)
    individuals (those that exist); the distance of a pair is the fraction
    of positions where the chromosomes differ; the result is the mean of
    the distances, or 0 with fewer than 2 individuals or no pair. *)
Definition pairs_spec (n : nat) : list (nat * nat) :=
  flat_map
    (fun i =>
       map (fun j => (i, j))
           (filter (fun j => (j <? n)%nat) (seq (i + 1) (Nat.min 10 (n - 1)))))
    (seq 0 (Nat.min 20 n)).

Definition distance_spec (c1 c2 : list Z) : Q :=
  (inject_Z (genetic_algorithm_py.count_diff c1 c2) /
   inject_Z (Z.of_nat (length c1)))%Q.

Definition diversity_spec (population : list instance_py.Individual) : Q :=
  if (length population <? 2)%nat then 0%Q
  else
    let distances :=
      map (fun '(i, j) =>
             distance_spec
               (instance_py.chromosome
                  (nth i population (instance_py.new_Individual [])))
               (instance_py.chromosome
                  (nth j population (instance_py.new_Individual []))))
          (pairs_spec (length population)) in
    match distances with
    | [] => 0%Q
    | _ => (sumQ distances / inject_Z (Z.of_nat (length distances)))%Q
    end.

(** The sum of the fitness values of a population (an unset fitness
    counts for nothing). *)
Fixpoint fitness_sum (l : list instance_py.Individual) : Q :=
  match l with
  | [] => 0%Q
  | ind :: rest =>
      (default 0 (instance_py.fitness ind) + fitness_sum rest)%Q
  end.

(** [ind] is the first individual of [l] whose cumulative fitness, counted
    from [cur], meets or exceeds [pick]. *)
Definition first_reaching (pick cur : Q) (l : list instance_py.Individual)
    (ind : instance_py.Individual) : Prop :=
  exists pre post : list instance_py.Individual,
    l = pre ++ ind :: post /\
    (pick <= cur + fitness_sum (pre ++ [ind]))%Q /\
    forall k : nat,
      (k < length pre)%nat -> (cur + fitness_sum (take (S k) pre) < pick)%Q.

(** An individual that went through [fitness]: its cost is a non-negative
    integer and its fitness is 1 / (1 + cost). *)
Definition evaluated (ind : instance_py.Individual) : Prop :=
  exists c : Z,
    0 <= c /\ instance_py.cost ind = Some c /\
    instance_py.fitness ind = Some (fitness_of_cost c).

(** A sequence of recorded costs that starts at or below [c] and never
    increases. *)
Inductive non_increasing_from : Z -> list (option Z) -> Prop :=
| nif_nil (c : Z) : non_increasing_from c []
| nif_cons (c c' : Z) (l : list (option Z)) :
    c' <= c -> non_increasing_from c' l ->
    non_increasing_from c (Some c' :: l).

(** The best individual does not strictly improve in any of the [n]
    generations run from the state [st] with the source [r]: every one of
    them returns, and the comparison of the new best fitness with the old
    one is false. *)
Fixpoint never_improves (n : nat) (st : genetic_algorithm_py.loop_state)
    (r : rng) : bool :=
  match n with
  | O => true
  | S n' =>
      match genetic_algorithm_py.generation_body st r with
      | Ok (st', r') =>
          match
            gt (instance_py.fitness
                  (genetic_algorithm_py.best_individual_ st'))
               (instance_py.fitness
                  (genetic_algorithm_py.best_individual_ st))
          with
          | Ok false => never_improves n' st' r'
          | _ => false
          end
      | _ => false
      end
  end.

(** The best individual does not strictly improve in any of the [n]
    generations that follow the first [g] generations run from the state
    [st] with the source [r]. *)
Fixpoint stagnant_after (g n : nat) (st : genetic_algorithm_py.loop_state)
    (r : rng) : bool :=
  match g with
  | O => never_improves n st r
  | S g' =>
      match genetic_algorithm_py.generation_body st r with
      | Ok (st', r') => stagnant_after g' n st' r'
      | _ => false
      end
  end.

(** A run whose best individual does not strictly improve in any of the
    [n] consecutive generations g + 1, ..., g + n. *)
Definition stagnant_window (g n : nat)
    (self : genetic_algorithm_py.GeneticAlgorithm) (r : rng) : bool :=
  match genetic_algorithm_py.start self r with
  | Ok (st, r') => stagnant_after g n st r'
  | _ => false
  end.

(** A freshly constructed engine, as [__init__] returns it. *)
Definition new_GeneticAlgorithm (inst : instance_py.Instance) (pop_size : Z)
    (crossover_rate mutation_rate : Q) (max_generations : Z)
    (crossover_op : genetic_algorithm_py.crossover_fn)
    (mutation_op : genetic_algorithm_py.mutation_fn)
    (selection_op : string) (tournament_k : Z)
  : genetic_algorithm_py.GeneticAlgorithm :=
  {| genetic_algorithm_py.instance := inst;
     genetic_algorithm_py.pop_size := pop_size;
     genetic_algorithm_py.crossover_rate := crossover_rate;
     genetic_algorithm_py.mutation_rate := mutation_rate;
     genetic_algorithm_py.max_generations := max_generations;
     genetic_algorithm_py.tournament_k := tournament_k;
     genetic_algorithm_py.crossover_op := crossover_op;
     genetic_algorithm_py.mutation_op := mutation_op;
     genetic_algorithm_py.selection_op := selection_op;
     genetic_algorithm_py.best_fitness_history := [];
     genetic_algorithm_py.avg_fitness_history := [];
     genetic_algorithm_py.best_cost_history := [];
     genetic_algorithm_py.diversity_history := [] |}.

(** A configuration on which the engine can run: at least one
    individual, at least two genes, data whose maximum exists and is not
    negative, and roulette selection or a tournament no larger than the
    population. *)
Definition valid_configuration (self : genetic_algorithm_py.GeneticAlgorithm)
  : Prop :=
  1 <= genetic_algorithm_py.pop_size self /\
  2 <= instance_py.size (genetic_algorithm_py.instance self) /\
  (exists hi : Z,
     maxZ (instance_py.data (genetic_algorithm_py.instance self)) = Ok hi /\
     0 <= hi) /\
  (genetic_algorithm_py.selection_op self = "roulette"%string \/
   1 <= genetic_algorithm_py.tournament_k self
     <= genetic_algorithm_py.pop_size self).

(** An individual of the engine [self]: evaluated, with as many genes as
    the instance has. *)
Definition member_of (self : genetic_algorithm_py.GeneticAlgorithm)
    (ind : instance_py.Individual) : Prop :=
  evaluated ind /\
  length (instance_py.chromosome ind) =
  Z.to_nat (instance_py.size (genetic_algorithm_py.instance self)).

(** The state of the main loop of a valid engine: a full population of
    members and a best individual that is a member. *)
Definition state_invariant (st : genetic_algorithm_py.loop_state) : Prop :=
  valid_configuration (genetic_algorithm_py.self_ st) /\
  Forall (member_of (genetic_algorithm_py.self_ st))
    (genetic_algorithm_py.population_ st) /\
  Z.of_nat (length (genetic_algorithm_py.population_ st)) =
    genetic_algorithm_py.pop_size (genetic_algorithm_py.self_ st) /\
  member_of (genetic_algorithm_py.self_ st)
    (genetic_algorithm_py.best_individual_ st).

(** The score at an index, and the index that wins a tournament among the
    indices [ixs] in the spec's words: a position [p] of [ixs] holds it,
    no index of [ixs] has a greater score, and every index before [p] has
    a strictly smaller one (ties go to the first encountered). *)
Definition score (scores : list Q) (i : nat) : Q := default 0%Q (scores !! i).

Definition first_max (scores : list Q) (ixs : list nat) (w : nat) : Prop :=
  exists p : nat,
    ixs !! p = Some w /\
    (forall (q i : nat), ixs !! q = Some i -> (score scores i <= score scores w)%Q) /\
    (forall (q i : nat),
       (q < p)%nat -> ixs !! q = Some i -> (score scores i < score scores w)%Q).

(** The [k] indices of [0, n) that [k] calls of [randint(0, n - 1)] read
    from the source [r]: each raw number on its own, reduced modulo [n]. *)
Definition drawn_indices (r : rng) (n k : nat) : list nat :=
  (fun i => Z.to_nat (Z.of_N (draws r (pos r + i)%nat) mod Z.of_nat n))
    <$> seq 0 k.

(** The index the loop of [Tournament.tournament_selection] ends with
    when it starts from [sel] and draws the indices [ixs]. *)
Fixpoint winner (scores : list Q) (sel : nat) (ixs : list nat) : nat :=
  match ixs with
  | [] => sel
  | ix :: rest =>
      winner scores
        (if negb (Qle_bool (score scores ix) (score scores sel))
         then ix else sel) rest
  end.

(** The source after [k] raw numbers have been read. *)
Definition skip (k : nat) (r : rng) : rng := Rng (draws r) (pos r + k).

(** Two evaluated individuals, the second one fitter. *)
Definition ind_weak : instance_py.Individual :=
  {| instance_py.chromosome := [1]; instance_py.cost := Some 1;
     instance_py.fitness := Some (1 # 2) |}.
Definition ind_strong : instance_py.Individual :=
  {| instance_py.chromosome := [0]; instance_py.cost := Some 0;
     instance_py.fitness := Some 1%Q |}.

(** Engines and sources used by the examples below. *)
Definition rng_affine (a b : N) : rng := Rng (fun i => (N.of_nat i * a + b)%N) 0.

Definition ga_small : genetic_algorithm_py.GeneticAlgorithm :=
  new_GeneticAlgorithm {| instance_py.size := 3; instance_py.data := [4; 0; 2] |}
    4 (4 # 5) (1 # 5) 5
    genetic_algorithm_py.one_point genetic_algorithm_py.swap "tournament" 3.

Definition ga_flat : genetic_algorithm_py.GeneticAlgorithm :=
  new_GeneticAlgorithm {| instance_py.size := 2; instance_py.data := [0; 0] |}
    3 (4 # 5) (1 # 5) 300
    genetic_algorithm_py.one_point genetic_algorithm_py.swap "tournament" 2.

Definition ga_long : genetic_algorithm_py.GeneticAlgorithm :=
  new_GeneticAlgorithm {| instance_py.size := 3; instance_py.data := [4; 0; 2] |}
    4 (4 # 5) (1 # 5) 300
    genetic_algorithm_py.one_point genetic_algorithm_py.swap "tournament" 3.

(** [n] runs of the computation [c] one after the other, their results
    appended to [acc] in the order of the runs. *)
Fixpoint repeat_M {A} (c : M A) (n : nat) (acc : list A) : M (list A) :=
  match n with
  | O => mret acc
  | S n' => x ← c; repeat_M c n' (acc ++ [x])
  end.

(** An individual scored against [inst]: its cost attribute is the cost
    of its chromosome against the data of [inst], and its fitness
    attribute is 1 / (1 + cost). *)
Definition scored (inst : instance_py.Instance)
    (ind : instance_py.Individual) : Prop :=
  instance_py.cost ind = Some (fitness_py.compute_cost ind inst) /\
  instance_py.fitness ind =
    Some (fitness_of_cost (fitness_py.compute_cost ind inst)).

(** The individual with no gene, as [fitness] leaves it. *)
Definition ind_empty : instance_py.Individual :=
  {| instance_py.chromosome := []; instance_py.cost := Some 0;
     instance_py.fitness := Some (fitness_of_cost 0) |}.

(** What a run appends to the four histories, read side by side: each
    recorded best fitness is 1 / (1 + cost) of the best cost recorded with
    it, each recorded average fitness is positive and at most the best
    fitness recorded with it, and each recorded diversity lies in
    [0, 1]. *)
Definition records_consistent (bf : list (option Q)) (af : list Q)
    (bc : list (option Z)) (dv : list Q) : Prop :=
  Forall2 (fun f c => exists z : Z,
             c = Some z /\ 0 <= z /\ f = Some (fitness_of_cost z)) bf bc /\
  Forall2 (fun a f => exists q : Q,
             f = Some q /\ (0 < a)%Q /\ (a <= q)%Q) af bf /\
  Forall2 (fun d (_ : option Q) => (0 <= d)%Q /\ (d <= 1)%Q) dv bf.

(** Two engine objects with the same configuration: they may differ in
    their four histories only. *)
Definition same_configuration
    (self self' : genetic_algorithm_py.GeneticAlgorithm) : Prop :=
  genetic_algorithm_py.instance self' = genetic_algorithm_py.instance self /\
  genetic_algorithm_py.pop_size self' = genetic_algorithm_py.pop_size self /\
  genetic_algorithm_py.crossover_rate self' =
    genetic_algorithm_py.crossover_rate self /\
  genetic_algorithm_py.mutation_rate self' =
    genetic_algorithm_py.mutation_rate self /\
  genetic_algorithm_py.max_generations self' =
    genetic_algorithm_py.max_generations self /\
  genetic_algorithm_py.tournament_k self' =
    genetic_algorithm_py.tournament_k self /\
  genetic_algorithm_py.crossover_op self' =
    genetic_algorithm_py.crossover_op self /\
  genetic_algorithm_py.mutation_op self' =
    genetic_algorithm_py.mutation_op self /\
  genetic_algorithm_py.selection_op self' =
    genetic_algorithm_py.selection_op self.

(** The source after one raw number has been read. *)
Definition advance (r : rng) : rng := Rng (draws r) (S (pos r)).

(** Inputs used by the examples below. *)
Definition rng_const (n : N) : rng := Rng (fun _ => n) 0.
Definition rng_list (l : list N) : rng := Rng (fun i => nth i l 0%N) 0.

Section engine_predicates.
Import instance_py genetic_algorithm_py.

(** What one generation does to the state. *)
Record generation_effect (st st' : loop_state) : Prop := {
  ge_generation : generation_ st' = generation_ st + 1;
  ge_max_generations :
    max_generations (self_ st') = max_generations (self_ st);
  ge_best_evaluated : evaluated (best_individual_ st');
  ge_population_evaluated : Forall evaluated (population_ st');
  ge_best_cost :
    exists c c' : Z,
      cost (best_individual_ st) = Some c /\
      cost (best_individual_ st') = Some c' /\ c' <= c;
  ge_stagnation :
    stagnation_counter_ st' = 0 \/
    stagnation_counter_ st' = stagnation_counter_ st + 1;
  ge_best_fitness_history :
    best_fitness_history (self_ st') =
    best_fitness_history (self_ st) ++ [fitness (best_individual_ st')];
  ge_best_cost_history :
    best_cost_history (self_ st') =
    best_cost_history (self_ st) ++ [cost (best_individual_ st')];
  ge_avg_fitness_history :
    exists avg : Q,
      avg_fitness_history (self_ st') = avg_fitness_history (self_ st) ++ [avg];
  ge_diversity_history :
    exists d : Q,
      diversity_history (self_ st') = diversity_history (self_ st) ++ [d]
}.

(** The loop invariant on the local variables. *)
Definition loop_invariant (st : loop_state) : Prop :=
  evaluated (best_individual_ st) /\
  0 <= stagnation_counter_ st <= generation_ st.

(** What the main loop does to the state from which it is entered. *)
Record loop_effect (st st' : loop_state) : Prop := {
  le_invariant : loop_invariant st';
  le_max_generations :
    max_generations (self_ st') = max_generations (self_ st);
  le_generation : generation_ st <= generation_ st';
  le_best_cost_history :
    exists (recorded : list (option Z)) (c : Z),
      best_cost_history (self_ st') =
        best_cost_history (self_ st) ++ recorded /\
      cost (best_individual_ st) = Some c /\
      non_increasing_from c recorded /\
      Z.of_nat (length recorded) = generation_ st' - generation_ st;
  le_best_fitness_history :
    Z.of_nat (length (best_fitness_history (self_ st'))) =
    Z.of_nat (length (best_fitness_history (self_ st))) +
    (generation_ st' - generation_ st);
  le_avg_fitness_history :
    Z.of_nat (length (avg_fitness_history (self_ st'))) =
    Z.of_nat (length (avg_fitness_history (self_ st))) +
    (generation_ st' - generation_ st);
  le_diversity_history :
    Z.of_nat (length (diversity_history (self_ st'))) =
    Z.of_nat (length (diversity_history (self_ st))) +
    (generation_ st' - generation_ st);
  le_exit :
    generation_ st <= max_generations (self_ st) ->
    generation_ st' = max_generations (self_ st) \/
    (200 < stagnation_counter_ st' /\
     generation_ st' <= max_generations (self_ st))
}.

End engine_predicates.

(** A computation that returns or raises, whatever the source. *)
Definition defined {A} (c : M A) : Prop := forall r : rng, c r <> OutOfFuel.
Definition defined_res {A} (c : res A) : Prop := c <> OutOfFuel.

(* ===================================================================== *)
(** * Reasoning about the two monads                                      *)
(* ===================================================================== *)

Section monads.
Context {A B : Type}.

Lemma res_bind_Ok (c : res A) (k : A -> res B) (b : B) :
  c ≫= k = Ok b <-> exists a, c = Ok a /\ k a = Ok b.
Proof.
  split.
  - destruct c as [a| |]; simpl; intros H; try discriminate. eauto.
  - intros (a & -> & H). exact H.
Qed.

Lemma M_bind_Ok (c : M A) (k : A -> M B) (r r' : rng) (b : B) :
  (c ≫= k) r = Ok (b, r') <->
  exists a r1, c r = Ok (a, r1) /\ k a r1 = Ok (b, r').
Proof.
  unfold mbind, M_bind. split.
  - destruct (c r) as [[a r1]| |]; intros H; try discriminate. eauto.
  - intros (a & r1 & -> & H). exact H.
Qed.

Lemma lift_Ok (c : res A) (r r' : rng) (a : A) :
  lift c r = Ok (a, r') <-> c = Ok a /\ r' = r.
Proof.
  unfold lift. split.
  - destruct c; intros H; inversion H; auto.
  - intros [-> ->]. reflexivity.
Qed.

Lemma M_ret_Ok (a a' : A) (r r' : rng) :
  (mret a : M A) r = Ok (a', r') <-> a' = a /\ r' = r.
Proof.
  unfold mret, M_ret. split.
  - intros H; inversion H; auto.
  - intros [-> ->]. reflexivity.
Qed.

Lemma raise_not_Ok (e : exn) (r : rng) (x : A * rng) : raise e r <> Ok x.
Proof. discriminate. Qed.

End monads.

(** Splits a hypothesis [c r = Ok _] along the binds of [c]. *)
Ltac inv_M H :=
  first
    [ apply M_bind_Ok in H;
      let a := fresh "a" in let r := fresh "r" in
      let H1 := fresh H in
      destruct H as (a & r & H1 & H)
    | apply lift_Ok in H; destruct H as [H ?]; subst
    | apply M_ret_Ok in H; destruct H as [? ?]; subst
    | apply res_bind_Ok in H;
      let a := fresh "a" in let H1 := fresh H in
      destruct H as (a & H1 & H) ].

(** Splits every hypothesis [c r = Ok _] along the binds of [c]. *)
Ltac inv_step :=
  match goal with
  | H : @mbind M _ _ _ _ _ _ = Ok _ |- _ =>
      apply M_bind_Ok in H; destruct H as (? & ? & ? & ?)
  | H : @mbind res _ _ _ _ _ = Ok _ |- _ =>
      apply res_bind_Ok in H; destruct H as (? & ? & ?)
  | H : lift _ _ = Ok _ |- _ => apply lift_Ok in H; destruct H as [? ?]; subst
  | H : @mret M _ _ _ _ = Ok _ |- _ =>
      apply M_ret_Ok in H; destruct H as [? ?]; subst
  | H : (let '(_, _) := ?x in _) _ = Ok _ |- _ => destruct x
  end.
Ltac inv_run := repeat inv_step.

(** Replaces a rational by an equal one. *)
Ltac q_replace a b :=
  let H := fresh in assert (H : Qeq a b) by ring; rewrite H; clear H.
Ltac q_replace_at2 a b :=
  let H := fresh in assert (H : Qeq a b) by ring; rewrite H at 2; clear H.

(* ===================================================================== *)
(** * Sums                                                                *)
(* ===================================================================== *)

Lemma fold_left_add_acc (l : list Z) (a : Z) :
  fold_left Z.add l a = a + fold_left Z.add l 0.
Proof.
  revert a. induction l as [|x l IH]; intros a; simpl.
  - lia.
  - rewrite (IH (a + x)), (IH (0 + x)). lia.
Qed.

Lemma sumZ_cons (x : Z) (l : list Z) : sumZ (x :: l) = x + sumZ l.
Proof. unfold sumZ. simpl. apply fold_left_add_acc. Qed.

Lemma sumZ_nonneg (l : list Z) : Forall (fun x => 0 <= x) l -> 0 <= sumZ l.
Proof.
  induction 1 as [|x l Hx _ IH].
  - reflexivity.
  - rewrite sumZ_cons. lia.
Qed.

Lemma sum_positions_ext (n : nat) (f g : nat -> Z) :
  (forall i, (i < n)%nat -> f i = g i) ->
  sum_positions n f = sum_positions n g.
Proof.
  revert f g. induction n as [|n IH]; intros f g Hfg; simpl.
  - reflexivity.
  - rewrite (Hfg O) by lia. f_equal. apply IH. intros i Hi. apply Hfg. lia.
Qed.

Lemma cost_sum_positions (chrom dat : list Z) :
  sumZ (map (fun '(g, d) => Z.abs (g - d)) (zip chrom dat)) =
  sum_positions (Nat.min (length chrom) (length dat)) (abs_diff chrom dat).
Proof.
  revert dat. induction chrom as [|g chrom IH]; intros [|d dat]; simpl;
    try reflexivity.
  rewrite sumZ_cons, IH. reflexivity.
Qed.

Lemma cost_nonneg (ind : instance_py.Individual) (inst : instance_py.Instance) :
  0 <= fitness_py.compute_cost ind inst.
Proof.
  unfold fitness_py.compute_cost. apply sumZ_nonneg.
  apply List.Forall_forall. intros x Hx. apply in_map_iff in Hx.
  destruct Hx as ([g d] & <- & _). lia.
Qed.

(* ===================================================================== *)
(** * The fitness evaluator                                               *)
(* ===================================================================== *)

Section fitness_facts.
Import instance_py fitness_py.

Lemma fitness_of_cost_pos (c : Z) : 0 <= c -> (0 < fitness_of_cost c)%Q.
Proof.
  intros Hc. unfold fitness_of_cost, Qdiv. rewrite Qmult_1_l.
  apply Qinv_lt_0_compat. unfold Qlt. simpl. lia.
Qed.

Lemma fitness_of_cost_le_1 (c : Z) : 0 <= c -> (fitness_of_cost c <= 1)%Q.
Proof.
  intros Hc. unfold fitness_of_cost, Qdiv. rewrite Qmult_1_l.
  unfold Qle, Qinv. simpl. destruct (1 + c) as [|p|p] eqn:E; simpl; lia.
Qed.

Lemma fitness_of_cost_eq_1 (c : Z) :
  0 <= c -> (fitness_of_cost c == 1)%Q <-> c = 0.
Proof.
  intros Hc. unfold fitness_of_cost, Qdiv. rewrite Qmult_1_l.
  unfold Qeq, Qinv. simpl. destruct (1 + c) as [|p|p] eqn:E; simpl; lia.
Qed.

Lemma fitness_of_cost_lt (c1 c2 : Z) :
  0 <= c1 -> 0 <= c2 ->
  (fitness_of_cost c2 < fitness_of_cost c1)%Q <-> c1 < c2.
Proof.
  intros H1 H2. unfold fitness_of_cost, Qdiv. rewrite !Qmult_1_l.
  unfold Qlt, Qinv. simpl.
  destruct (1 + c1) as [|p1|p1] eqn:E1; destruct (1 + c2) as [|p2|p2] eqn:E2;
    simpl; lia.
Qed.

Lemma fitness_Ok (ind : Individual) (inst : Instance) :
  fitness ind inst =
  Ok (fitness_of_cost (compute_cost ind inst),
      {| chromosome := chromosome ind;
         cost := Some (compute_cost ind inst);
         instance_py.fitness := Some (fitness_of_cost (compute_cost ind inst)) |}).
Proof.
  unfold fitness. pose proof (cost_nonneg ind inst) as Hc.
  destruct (Z.eqb_spec (1 + compute_cost ind inst) 0) as [E|_]; [lia|].
  reflexivity.
Qed.

End fitness_facts.

(* ===================================================================== *)
(** * The division of integers in binary64                                *)
(* ===================================================================== *)

Section binary64_facts.

Lemma round_half_even_bounds (a n : Z) :
  0 < n ->
  2 * a - n <= 2 * n * round_half_even a n <= 2 * a + n.
Proof.
  intros Hn. unfold round_half_even.
  pose proof (Z.div_mod a n ltac:(lia)) as Hdiv.
  pose proof (Z.mod_pos_bound a n Hn) as Hmod.
  set (q := a / n) in *. set (r := a mod n) in *.
  destruct (Z.ltb_spec (2 * r) n); [nia|].
  destruct (Z.ltb_spec n (2 * r)); [nia|].
  destruct (Z.even q); nia.
Qed.

Lemma round_half_even_zero (a n : Z) :
  0 <= a -> 0 < n -> 2 * a <= n -> round_half_even a n = 0.
Proof.
  intros Ha Hn Hsmall. unfold round_half_even.
  rewrite Z.div_small, Z.mod_small by lia.
  destruct (Z.ltb_spec (2 * a) n); [reflexivity|].
  destruct (Z.ltb_spec n (2 * a)); [lia|reflexivity].
Qed.

Lemma round_half_even_nonneg (a n : Z) :
  0 <= a -> 0 < n -> 0 <= round_half_even a n.
Proof.
  intros Ha Hn. pose proof (round_half_even_bounds a n Hn). nia.
Qed.

Lemma round_half_even_mono (a n n' : Z) :
  0 <= a -> 0 < n -> n <= n' ->
  round_half_even a n' <= round_half_even a n.
Proof.
  intros Ha Hn Hle.
  destruct (Z.eq_dec n n') as [->|Hne]; [lia|].
  pose proof (round_half_even_bounds a n Hn).
  pose proof (round_half_even_bounds a n' ltac:(lia)).
  pose proof (round_half_even_nonneg a n Ha Hn).
  nia.
Qed.

Lemma round_half_even_upper (j U n : Z) :
  0 <= j <= U -> 2 ^ j <= n ->
  round_half_even (2 ^ U) n * 2 ^ j <= 2 ^ U.
Proof.
  intros Hj Hn.
  assert (HP : 0 < 2 ^ j) by (apply Z.pow_pos_nonneg; lia).
  assert (HB : 0 < 2 ^ (U - j)) by (apply Z.pow_pos_nonneg; lia).
  assert (HA : 2 ^ U = 2 ^ j * 2 ^ (U - j)).
  { rewrite <- Z.pow_add_r by lia. f_equal. lia. }
  pose proof (round_half_even_bounds (2 ^ U) n ltac:(lia)) as [_ Hup].
  rewrite HA in *. set (P := 2 ^ j) in *. set (B := 2 ^ (U - j)) in *.
  set (m := round_half_even (P * B) n) in *.
  assert (m <= B) by nia. nia.
Qed.

Lemma round_half_even_lower (k n : Z) :
  0 <= k -> 0 < n -> n < 2 ^ (k + 1) ->
  2 ^ 52 <= round_half_even (2 ^ (k + 53)) n.
Proof.
  intros Hk Hn Hlt.
  assert (HA : 2 ^ (k + 53) = 2 ^ 52 * 2 ^ (k + 1)).
  { rewrite <- Z.pow_add_r by lia. f_equal. lia. }
  pose proof (round_half_even_bounds (2 ^ (k + 53)) n Hn) as [Hlow _].
  rewrite HA in *. set (P := 2 ^ (k + 1)) in *.
  set (m := round_half_even (2 ^ 52 * P) n) in *.
  assert (H52 : 2 ^ 52 = 4503599627370496) by reflexivity.
  rewrite H52 in *. nia.
Qed.

Lemma round_half_even_lower_strict (k n : Z) :
  0 <= k -> 0 < n -> n < 2 ^ (k + 1) -> n < 2 ^ 52 ->
  2 ^ 52 < round_half_even (2 ^ (k + 53)) n.
Proof.
  intros Hk Hn Hlt Hsmall.
  assert (HA : 2 ^ (k + 53) = 2 ^ 52 * 2 ^ (k + 1)).
  { rewrite <- Z.pow_add_r by lia. f_equal. lia. }
  pose proof (round_half_even_bounds (2 ^ (k + 53)) n Hn) as [Hlow _].
  rewrite HA in *. set (P := 2 ^ (k + 1)) in *.
  set (m := round_half_even (2 ^ 52 * P) n) in *.
  assert (H52 : 2 ^ 52 = 4503599627370496) by reflexivity.
  rewrite H52 in *. nia.
Qed.

Lemma ulp_exponent_range (n : Z) : 53 <= ulp_exponent n <= 1074.
Proof. unfold ulp_exponent. pose proof (Z.log2_nonneg n). lia. Qed.

Lemma ulp_exponent_mono (n n' : Z) :
  n <= n' -> ulp_exponent n <= ulp_exponent n'.
Proof.
  intros Hle. unfold ulp_exponent.
  pose proof (Z.log2_le_mono n n' Hle). lia.
Qed.

Lemma reciprocal_repr (n : Z) :
  exists p : positive,
    Zpos p = 2 ^ ulp_exponent n /\
    (reciprocal n == round_half_even (Zpos p) n # p)%Q.
Proof.
  pose proof (ulp_exponent_range n) as HU.
  assert (HA : 0 < 2 ^ ulp_exponent n) by (apply Z.pow_pos_nonneg; lia).
  destruct (2 ^ ulp_exponent n) as [|p|p] eqn:E; try lia.
  exists p. split; [reflexivity|].
  unfold reciprocal. rewrite E, Qred_correct.
  unfold Qeq, Qdiv, Qmult, Qinv, inject_Z. simpl. lia.
Qed.

Lemma reciprocal_nonneg (n : Z) : 0 < n -> (0 <= reciprocal n)%Q.
Proof.
  intros Hn. destruct (reciprocal_repr n) as (p & Hp & ->).
  unfold Qle. simpl. pose proof (round_half_even_nonneg (Zpos p) n). lia.
Qed.

Lemma reciprocal_upper (n j : Z) :
  0 <= j <= 1021 -> 2 ^ j <= n ->
  (reciprocal n <= 1 # Z.to_pos (2 ^ j))%Q.
Proof.
  intros Hj Hn. destruct (reciprocal_repr n) as (p & Hp & ->).
  assert (HP : 0 < 2 ^ j) by (apply Z.pow_pos_nonneg; lia).
  assert (Hjn : j <= Z.log2 n).
  { apply Z.log2_le_pow2; lia. }
  unfold Qle. simpl. rewrite Z2Pos.id by exact HP. rewrite Hp.
  pose proof (round_half_even_upper j (ulp_exponent n) n) as H.
  unfold ulp_exponent in *. lia.
Qed.

Lemma reciprocal_le_1 (n : Z) : 0 < n -> (reciprocal n <= 1)%Q.
Proof.
  intros Hn. apply (reciprocal_upper n 0); simpl; lia.
Qed.

Lemma reciprocal_le_half (n : Z) : 2 <= n -> (reciprocal n <= 1 # 2)%Q.
Proof.
  intros Hn. apply (reciprocal_upper n 1); simpl; lia.
Qed.

Lemma reciprocal_eq_1 (n : Z) : 0 < n -> (reciprocal n == 1)%Q <-> n = 1.
Proof.
  intros Hn. split.
  - intros Heq. destruct (Z.eq_dec n 1) as [|Hne]; [assumption|].
    pose proof (reciprocal_le_half n ltac:(lia)) as Hhalf.
    rewrite Heq in Hhalf. unfold Qle in Hhalf. simpl in Hhalf. lia.
  - intros ->. reflexivity.
Qed.

Lemma reciprocal_pos_iff (n : Z) :
  0 < n -> (0 < reciprocal n)%Q <-> n < 2 ^ 1075.
Proof.
  intros Hn. destruct (reciprocal_repr n) as (p & Hp & ->).
  pose proof (Z.log2_spec n Hn) as [Hlo Hhi].
  pose proof (Z.log2_nonneg n) as Hk.
  unfold Qlt. simpl. rewrite Z.mul_1_r. split.
  - intros Hpos. destruct (Z_lt_le_dec n (2 ^ 1075)) as [|Hbig]; [assumption|].
    exfalso.
    assert (Hk' : 1075 <= Z.log2 n).
    { change 1075 with (Z.log2 (2 ^ 1075)). now apply Z.log2_le_mono. }
    assert (HU : ulp_exponent n = 1074) by (unfold ulp_exponent; lia).
    rewrite HU in Hp.
    rewrite round_half_even_zero in Hpos; [lia|lia|lia|].
    rewrite Hp. change (2 * 2 ^ 1074) with (2 ^ 1075). exact Hbig.
  - intros Hsmall.
    pose proof (round_half_even_bounds (Zpos p) n Hn) as [Hlow _].
    assert (H2A : n < 2 * Zpos p).
    { rewrite Hp. unfold ulp_exponent.
      destruct (Z.min_spec (Z.log2 n + 53) 1074) as [[_ ->]|[_ ->]].
      - replace (2 * 2 ^ (Z.log2 n + 53)) with (2 ^ 53 * 2 ^ Z.succ (Z.log2 n)).
        + assert (0 < 2 ^ 53) by reflexivity. nia.
        + rewrite <- Z.pow_add_r, <- Z.pow_succ_r by lia. f_equal. lia.
      - exact Hsmall. }
    nia.
Qed.

Lemma reciprocal_mono (n n' : Z) :
  0 < n -> n <= n' -> (reciprocal n' <= reciprocal n)%Q.
Proof.
  intros Hn Hle.
  destruct (reciprocal_repr n) as (p & Hp & ->).
  destruct (reciprocal_repr n') as (p' & Hp' & ->).
  pose proof (ulp_exponent_mono n n' Hle) as HU.
  pose proof (Z.log2_spec n Hn) as [Hlo Hhi].
  pose proof (Z.log2_nonneg n) as Hk.
  unfold Qle. simpl.
  destruct (Z.eq_dec (ulp_exponent n) (ulp_exponent n')) as [Heq|Hne].
  - assert (Hpp : Zpos p' = Zpos p) by (rewrite Hp, Hp', Heq; reflexivity).
    rewrite Hpp.
    pose proof (round_half_even_mono (Zpos p) n n' ltac:(lia) Hn Hle). nia.
  - assert (Hnormal : ulp_exponent n = Z.log2 n + 53).
    { unfold ulp_exponent in *. lia. }
    assert (Hk' : Z.log2 n < Z.log2 n').
    { pose proof (Z.log2_le_mono n n' Hle). unfold ulp_exponent in *. lia. }
    assert (Hn' : 2 ^ (Z.log2 n + 1) <= n').
    { pose proof (Z.log2_spec n' ltac:(lia)) as [Hlo' _].
      apply Z.le_trans with (2 ^ Z.log2 n'); [|exact Hlo'].
      apply Z.pow_le_mono_r; lia. }
    pose proof (round_half_even_upper (Z.log2 n + 1) (ulp_exponent n') n')
      as Hup.
    pose proof (round_half_even_lower (Z.log2 n) n Hk Hn Hhi) as Hlow.
    rewrite <- Hnormal, <- Hp in Hlow. rewrite <- Hp' in Hup.
    assert (HA : Zpos p = 2 ^ 52 * 2 ^ (Z.log2 n + 1)).
    { rewrite Hp, Hnormal, <- Z.pow_add_r by lia. f_equal. lia. }
    specialize (Hup ltac:(unfold ulp_exponent in *; lia) Hn').
    set (P := 2 ^ (Z.log2 n + 1)) in *.
    assert (0 < P) by (apply Z.pow_pos_nonneg; lia).
    set (m := round_half_even (Zpos p) n) in *.
    set (m' := round_half_even (Zpos p') n') in *.
    apply Z.le_trans with (2 ^ 52 * Zpos p').
    + rewrite HA. assert (0 <= 2 ^ 52) by (apply Z.pow_nonneg; lia). nia.
    + apply Z.mul_le_mono_nonneg_r; lia.
Qed.

Lemma reciprocal_strict (n n' : Z) :
  0 < n -> n < n' -> n < 2 ^ 52 -> (reciprocal n' < reciprocal n)%Q.
Proof.
  intros Hn Hlt Hsmall.
  destruct (reciprocal_repr n) as (p & Hp & ->).
  destruct (reciprocal_repr n') as (p' & Hp' & ->).
  pose proof (Z.log2_spec n Hn) as [Hlo Hhi].
  pose proof (Z.log2_nonneg n) as Hk.
  assert (Hk52 : Z.log2 n < 52) by (apply Z.log2_lt_pow2; lia).
  assert (Hnormal : ulp_exponent n = Z.log2 n + 53)
    by (unfold ulp_exponent; lia).
  assert (HA : Zpos p = 2 ^ 52 * 2 ^ (Z.log2 n + 1)).
  { rewrite Hp, Hnormal, <- Z.pow_add_r by lia. f_equal. lia. }
  pose proof (round_half_even_lower_strict (Z.log2 n) n Hk Hn Hhi Hsmall)
    as Hlow.
  rewrite <- Hnormal, <- Hp in Hlow.
  assert (HP : 2 ^ (Z.log2 n + 1) <= 2 ^ 52)
    by (apply Z.pow_le_mono_r; lia).
  assert (H52 : 2 ^ 52 = 4503599627370496) by reflexivity.
  unfold Qlt. simpl.
  set (m := round_half_even (Zpos p) n) in *.
  set (m' := round_half_even (Zpos p') n') in *.
  set (P := 2 ^ (Z.log2 n + 1)) in *.
  destruct (Z_lt_le_dec n' P) as [Hsame|Hnext].
  - assert (Hk' : Z.log2 n' = Z.log2 n).
    { apply Z.log2_unique; [lia|]. split; [lia|].
      replace (Z.log2 n + 1) with (Z.succ (Z.log2 n)) in * by lia.
      exact Hsame. }
    assert (Hpp : Zpos p' = Zpos p).
    { rewrite Hp, Hp'. unfold ulp_exponent. now rewrite Hk'. }
    pose proof (round_half_even_bounds (Zpos p) n Hn) as [Hb _].
    pose proof (round_half_even_bounds (Zpos p) n' ltac:(lia)) as [_ Hb'].
    fold m in Hb. unfold m'. rewrite Hpp. fold m in Hlow.
    set (m2 := round_half_even (Zpos p) n') in *.
    assert (m2 < m); [|nia].
    destruct (Z_lt_le_dec m2 m) as [|Hge]; [assumption|exfalso].
    rewrite H52 in *. nia.
  - pose proof (round_half_even_upper (Z.log2 n + 1) (ulp_exponent n') n')
      as Hup.
    assert (HU' : Z.log2 n + 1 <= ulp_exponent n').
    { pose proof (ulp_exponent_range n'). lia. }
    specialize (Hup ltac:(lia) Hnext). rewrite <- Hp' in Hup.
    fold m' P in Hup.
    apply Z.le_lt_trans with (2 ^ 52 * Zpos p').
    + rewrite HA. assert (0 <= 2 ^ 52) by lia. nia.
    + apply Z.mul_lt_mono_pos_r; lia.
Qed.

Lemma reciprocal_error (n : Z) :
  0 < n -> n < 2 ^ 1022 ->
  (1 - (1 # 2 ^ 53) <= reciprocal n * inject_Z n)%Q /\
  (reciprocal n * inject_Z n <= 1 + (1 # 2 ^ 53))%Q.
Proof.
  intros Hn Hsmall.
  destruct (reciprocal_repr n) as (p & Hp & ->).
  pose proof (Z.log2_spec n Hn) as [Hlo Hhi].
  pose proof (Z.log2_nonneg n) as Hk.
  assert (Hk' : Z.log2 n < 1022) by (apply Z.log2_lt_pow2; lia).
  assert (HA : Zpos p = 2 ^ 52 * 2 ^ Z.succ (Z.log2 n)).
  { rewrite Hp. unfold ulp_exponent.
    rewrite Z.min_l, <- Z.pow_add_r by lia. f_equal. lia. }
  pose proof (round_half_even_bounds (Zpos p) n Hn) as [Hb Hb'].
  set (m := round_half_even (Zpos p) n) in *.
  set (P := 2 ^ Z.succ (Z.log2 n)) in *.
  assert (H52 : 2 ^ 52 = 4503599627370496) by reflexivity.
  rewrite H52 in HA.
  unfold Qle, Qminus, Qplus, Qopp, Qmult, inject_Z. simpl.
  rewrite !Pos.mul_1_r, HA. split; nia.
Qed.

End binary64_facts.

Section fitness_claims.
Import instance_py fitness_py.

Lemma fitness_binary64_Ok (ind : Individual) (inst : Instance) :
  fitness_binary64 ind inst =
  Ok (reciprocal (1 + compute_cost ind inst),
      {| chromosome := chromosome ind;
         cost := Some (compute_cost ind inst);
         instance_py.fitness :=
           Some (reciprocal (1 + compute_cost ind inst)) |}).
Proof.
  unfold fitness_binary64. pose proof (cost_nonneg ind inst) as Hc.
  destruct (Z.eqb_spec (1 + compute_cost ind inst) 0) as [E|_]; [lia|].
  reflexivity.
Qed.

(** C2, as the code has it. For an individual and an instance of equal
    length, [fitness] computes the cost as the sum over all positions of
    the absolute difference of gene and datum, a non-negative integer,
    and the fitness as the binary64 number nearest to 1 / (1 + cost):
    times 1 + cost it is within 2^-53 of 1 as long as 1 + cost < 2^1022.
    Both values are written on the individual, whose chromosome is kept.
    The fitness lies in [0, 1], is 1 exactly when the cost is 0, and is
    positive exactly when 1 + cost < 2^1075; a greater cost never gives a
    greater fitness, and it gives a strictly smaller one whenever the
    smaller cost is below 2^52 - 1. *)
Theorem C2_fitness_evaluator (ind : Individual) (inst : Instance) :
  length (chromosome ind) = length (data inst) ->
  let c := compute_cost ind inst in
  c = sum_positions (length (chromosome ind))
        (abs_diff (chromosome ind) (data inst)) /\
  0 <= c /\
  exists (f : Q) (ind' : Individual),
    fitness_binary64 ind inst = Ok (f, ind') /\
    f = reciprocal (1 + c) /\
    (1 + c < 2 ^ 1022 ->
     (1 - (1 # 2 ^ 53) <= f * inject_Z (1 + c))%Q /\
     (f * inject_Z (1 + c) <= 1 + (1 # 2 ^ 53))%Q) /\
    chromosome ind' = chromosome ind /\
    cost ind' = Some c /\
    instance_py.fitness ind' = Some f /\
    (0 <= f)%Q /\ (f <= 1)%Q /\
    ((f == 1)%Q <-> c = 0) /\
    ((0 < f)%Q <-> 1 + c < 2 ^ 1075) /\
    forall (ind2 : Individual) (inst2 : Instance) (f2 : Q) (ind2' : Individual),
      length (chromosome ind2) = length (data inst2) ->
      fitness_binary64 ind2 inst2 = Ok (f2, ind2') ->
      (c <= compute_cost ind2 inst2 -> (f2 <= f)%Q) /\
      (c < 2 ^ 52 - 1 -> c < compute_cost ind2 inst2 -> (f2 < f)%Q).
Proof.
  intros Hlen c. pose proof (cost_nonneg ind inst) as Hc. fold c in Hc.
  split.
  - unfold c, compute_cost. rewrite cost_sum_positions, <- Hlen, Nat.min_id.
    reflexivity.
  - split; [exact Hc|].
    eexists _, _. split; [apply fitness_binary64_Ok|]. fold c.
    split; [reflexivity|].
    split; [intros Hnormal; apply reciprocal_error; lia|].
    do 3 (split; [reflexivity|]).
    split; [apply reciprocal_nonneg; lia|].
    split; [apply reciprocal_le_1; lia|].
    split; [rewrite reciprocal_eq_1 by lia; lia|].
    split; [apply reciprocal_pos_iff; lia|].
    intros ind2 inst2 f2 ind2' _ H2. rewrite fitness_binary64_Ok in H2.
    injection H2 as <- _. split.
    + intros Hle. apply reciprocal_mono; lia.
    + intros Hsmall Hlt. apply reciprocal_strict; lia.
Qed.

Lemma C2_fitness_evaluator_witness :
  length (chromosome (new_Individual [3; 0; 5])) =
  length (data {| size := 3; data := [1; 2; 3] |}) /\
  exists (f : Q) (ind' : Individual),
    fitness_binary64 (new_Individual [3; 0; 5])
      {| size := 3; data := [1; 2; 3] |} = Ok (f, ind') /\
    cost ind' = Some 6 /\ instance_py.fitness ind' = Some f /\
    (0 < f)%Q /\ (f <= 1)%Q.
Proof.
  split; [reflexivity|].
  destruct (C2_fitness_evaluator (new_Individual [3; 0; 5])
              {| size := 3; data := [1; 2; 3] |} eq_refl)
    as (_ & _ & f & ind' & Hf & _ & _ & _ & Hc & Hfit & _ & Hle & _ & Hpos & _).
  exists f, ind'. split; [exact Hf|]. split; [exact Hc|].
  split; [exact Hfit|]. split; [|exact Hle].
  apply Hpos. reflexivity.
Defined.

(** C2 fails on the fitness values. Against the data [0], the
    individuals [2^53 - 3] and [2^53 - 2] have the costs 2^53 - 3 and
    2^53 - 2 and one and the same fitness, so the fitness is not strictly
    smaller for the strictly greater cost; and the individual [10^400]
    has the fitness 0, which is not in (0, 1]. *)
Lemma C2_counterexample :
  let inst := {| size := 1; data := [0] |} in
  let ind1 := new_Individual [2 ^ 53 - 3] in
  let ind2 := new_Individual [2 ^ 53 - 2] in
  let ind3 := new_Individual [10 ^ 400] in
  length (chromosome ind1) = length (data inst) /\
  length (chromosome ind2) = length (data inst) /\
  length (chromosome ind3) = length (data inst) /\
  compute_cost ind1 inst < compute_cost ind2 inst /\
  (exists (f : Q) (ind1' ind2' : Individual),
     fitness_binary64 ind1 inst = Ok (f, ind1') /\
     fitness_binary64 ind2 inst = Ok (f, ind2')) /\
  (exists ind3' : Individual,
     fitness_binary64 ind3 inst = Ok (0%Q, ind3')).
Proof.
  intros inst ind1 ind2 ind3.
  do 3 (split; [reflexivity|]). split; [reflexivity|]. split.
  - eexists _, _, _. split; vm_compute; reflexivity.
  - eexists. vm_compute. reflexivity.
Qed.

(** C6, as the code has it. [fitness] never fails, whatever the two
    lengths and the instance's [size]: [zip] stops at the shorter of
    chromosome and data, so the cost is the sum of the absolute
    differences over the first min(len(chromosome), len(data)) positions
    and the fitness is 1 / (1 + cost). *)
Theorem C6_fitness_truncates_on_mismatch (ind : Individual) (inst : Instance) :
  exists (ind' : Individual),
    let c := sum_positions
               (Nat.min (length (chromosome ind)) (length (data inst)))
               (abs_diff (chromosome ind) (data inst)) in
    fitness ind inst = Ok ((1 / inject_Z (1 + c))%Q, ind') /\
    cost ind' = Some c /\
    instance_py.fitness ind' = Some (1 / inject_Z (1 + c))%Q.
Proof.
  eexists. cbv zeta. rewrite fitness_Ok. unfold compute_cost.
  rewrite cost_sum_positions. repeat split.
Qed.

(** C6 fails: a chromosome of three genes against an instance of size two
    is evaluated, over the first two positions, and no error is raised. *)
Lemma C6_counterexample :
  let ind := new_Individual [1; 2; 9] in
  let inst := {| size := 2; data := [1; 2] |} in
  Z.of_nat (length (chromosome ind)) <> size inst /\
  length (chromosome ind) <> length (data inst) /\
  fitness ind inst =
  Ok (1%Q,
      {| chromosome := [1; 2; 9]; cost := Some 0;
         instance_py.fitness := Some 1%Q |}).
Proof. repeat split; discriminate. Qed.

End fitness_claims.

(* ===================================================================== *)
(** * Construction                                                        *)
(* ===================================================================== *)

Section construction.
Import instance_py genetic_algorithm_py.

(** C5, as the code has it. [__init__] validates nothing: for every value
    of the parameters, valid or not, construction succeeds, stores the
    numeric parameters as given and starts with four empty histories. *)
Theorem C5_construction_never_fails (inst : Instance) (pop_size : Z)
    (crossover_rate mutation_rate : Q) (max_generations : Z)
    (crossover_op mutation_op selection_op : string) (tournament_k : Z) :
  exists ga : GeneticAlgorithm,
    __init__ inst pop_size crossover_rate mutation_rate max_generations
      crossover_op mutation_op selection_op tournament_k = Ok ga /\
    genetic_algorithm_py.instance ga = inst /\
    genetic_algorithm_py.pop_size ga = pop_size /\
    genetic_algorithm_py.crossover_rate ga = crossover_rate /\
    genetic_algorithm_py.mutation_rate ga = mutation_rate /\
    genetic_algorithm_py.max_generations ga = max_generations /\
    genetic_algorithm_py.tournament_k ga = tournament_k /\
    best_fitness_history ga = [] /\ avg_fitness_history ga = [] /\
    best_cost_history ga = [] /\ diversity_history ga = [].
Proof. eexists. repeat split. Qed.

(** C5 fails: a negative population size, rates outside [0, 1], zero
    generations and a tournament of size 0 are accepted. *)
Lemma C5_counterexample :
  __init__ {| size := 2; data := [1; 2] |} (-3) (3 # 2) (-1 # 2) 0
    "one_point" "swap" "tournament" 0 =
  Ok {| genetic_algorithm_py.instance := {| size := 2; data := [1; 2] |};
        genetic_algorithm_py.pop_size := -3;
        genetic_algorithm_py.crossover_rate := 3 # 2;
        genetic_algorithm_py.mutation_rate := -1 # 2;
        genetic_algorithm_py.max_generations := 0;
        genetic_algorithm_py.tournament_k := 0;
        genetic_algorithm_py.crossover_op := one_point;
        genetic_algorithm_py.mutation_op := swap;
        genetic_algorithm_py.selection_op := "tournament";
        best_fitness_history := [];
        avg_fitness_history := [];
        best_cost_history := [];
        diversity_history := [] |}.
Proof. reflexivity. Qed.

End construction.

(* ===================================================================== *)
(** * The random primitives                                               *)
(* ===================================================================== *)

Lemma M_bind_step {A B} (c : M A) (k : A -> M B) (r r1 : rng) (a : A) :
  c r = Ok (a, r1) -> (c ≫= k) r = k a r1.
Proof. intros H. unfold mbind, M_bind. rewrite H. reflexivity. Qed.

Lemma M_bind_Raise {A B} (c : M A) (k : A -> M B) (r : rng) (e : exn) :
  c r = Raise e -> (c ≫= k) r = Raise e.
Proof. intros H. unfold mbind, M_bind. rewrite H. reflexivity. Qed.

Lemma next_raw_Ok (r : rng) : next_raw r = Ok (draws r (pos r), advance r).
Proof. reflexivity. Qed.

Lemma random_Ok (r : rng) :
  random r = Ok (Z.of_N (draws r (pos r) mod 2 ^ 53) # 2 ^ 53, advance r).
Proof. reflexivity. Qed.

Lemma uniform_Ok (a b : Q) (r : rng) :
  uniform a b r =
  Ok ((a + (b - a) * (Z.of_N (draws r (pos r) mod 2 ^ 53) # 2 ^ 53))%Q,
      advance r).
Proof. reflexivity. Qed.

Lemma random_range (r r' : rng) (u : Q) :
  random r = Ok (u, r') -> (0 <= u)%Q /\ (u < 1)%Q.
Proof.
  rewrite random_Ok. intros H. inversion H; subst; clear H.
  pose proof (N.mod_upper_bound (draws r (pos r)) (2 ^ 53)) as Hb.
  assert (Hlt : (draws r (pos r) mod 2 ^ 53 < 2 ^ 53)%N)
    by (apply Hb; discriminate).
  unfold Qle, Qlt. simpl Qnum. simpl Qden. split.
  - rewrite Z.mul_0_l, Z.mul_1_r. apply N2Z.is_nonneg.
  - rewrite Z.mul_1_r, Z.mul_1_l. apply N2Z.inj_lt in Hlt. exact Hlt.
Qed.

Lemma randint_Ok (a b : Z) (r : rng) :
  a <= b ->
  randint a b r = Ok (a + Z.of_N (draws r (pos r)) mod (b - a + 1), advance r).
Proof.
  intros Hab. unfold randint.
  destruct (Z.ltb_spec b a) as [?|_]; [lia|]. reflexivity.
Qed.

Lemma randint_range (a b v : Z) (r r' : rng) :
  randint a b r = Ok (v, r') -> a <= v <= b.
Proof.
  unfold randint. destruct (Z.ltb_spec b a) as [?|Hab]; [discriminate|].
  intros H. inversion H; subst; clear H.
  pose proof (Z.mod_pos_bound (Z.of_N (draws r (pos r))) (b - a + 1)). lia.
Qed.

Lemma randint_empty (a b : Z) (r : rng) :
  b < a -> randint a b r = Raise ValueError.
Proof.
  intros Hab. unfold randint.
  destruct (Z.ltb_spec b a) as [_|?]; [reflexivity|lia].
Qed.

(* ===================================================================== *)
(** * Uniform crossover                                                   *)
(* ===================================================================== *)

Section crossover_claims.
Import crossover_py.

Lemma uniform_loop_spec (p1 : list Z) :
  forall (p2 acc1 acc2 : list Z) (r : rng),
    length p1 = length p2 ->
    exists (d1 d2 : list Z) (r' : rng),
      uniform_loop (zip p1 p2) acc1 acc2 r =
        Ok ((acc1 ++ d1, acc2 ++ d2), r') /\
      length d1 = length p1 /\ length d2 = length p1 /\
      forall (p : nat) (g1 g2 : Z),
        p1 !! p = Some g1 -> p2 !! p = Some g2 ->
        (d1 !! p = Some g1 /\ d2 !! p = Some g2) \/
        (d1 !! p = Some g2 /\ d2 !! p = Some g1).
Proof.
  induction p1 as [|g p1 IH]; intros [|h p2] acc1 acc2 r Hlen;
    try discriminate.
  - exists [], [], r. simpl. rewrite !app_nil_r.
    repeat split; intros; discriminate.
  - injection Hlen as Hlen. simpl.
    rewrite (M_bind_step _ _ _ _ _ (random_Ok r)).
    destruct (negb _).
    + destruct (IH p2 (acc1 ++ [g]) (acc2 ++ [h]) (advance r) Hlen)
        as (d1 & d2 & r' & Hrun & Hl1 & Hl2 & Hpos).
      exists (g :: d1), (h :: d2), r'. rewrite Hrun, <- !app_assoc. simpl.
      repeat split; try congruence.
      intros [|p] g1 g2 H1 H2; simpl in *.
      * left. split; congruence.
      * now apply Hpos.
    + destruct (IH p2 (acc1 ++ [h]) (acc2 ++ [g]) (advance r) Hlen)
        as (d1 & d2 & r' & Hrun & Hl1 & Hl2 & Hpos).
      exists (h :: d1), (g :: d2), r'. rewrite Hrun, <- !app_assoc. simpl.
      repeat split; try congruence.
      intros [|p] g1 g2 H1 H2; simpl in *.
      * right. split; congruence.
      * now apply Hpos.
Qed.

(** C10. For parents of equal length [uniform] returns two children;
    at every position the two children's genes are the two parents' genes
    at that position, one each; both children have the parents' length,
    and identical parents give two children identical to them. *)
Theorem C10_uniform_crossover (parent1 parent2 : list Z) (r : rng) :
  length parent1 = length parent2 ->
  exists (child1 child2 : list Z) (r' : rng),
    uniform parent1 parent2 r = Ok ((child1, child2), r') /\
    length child1 = length parent1 /\ length child2 = length parent1 /\
    (forall (p : nat) (g1 g2 : Z),
       parent1 !! p = Some g1 -> parent2 !! p = Some g2 ->
       (child1 !! p = Some g1 /\ child2 !! p = Some g2) \/
       (child1 !! p = Some g2 /\ child2 !! p = Some g1)) /\
    (parent1 = parent2 -> child1 = parent1 /\ child2 = parent1).
Proof.
  intros Hlen.
  destruct (uniform_loop_spec parent1 parent2 [] [] r Hlen)
    as (d1 & d2 & r' & Hrun & Hl1 & Hl2 & Hpos).
  exists d1, d2, r'. unfold uniform.
  destruct (Nat.eqb_spec (length parent1) (length parent2)) as [_|?];
    [|contradiction].
  simpl negb. cbv iota.
  split; [exact Hrun|]. split; [exact Hl1|]. split; [exact Hl2|].
  split; [exact Hpos|].
  intros <-.
  assert (Hsame : forall p, d1 !! p = parent1 !! p /\ d2 !! p = parent1 !! p).
  { intros p. destruct (parent1 !! p) as [g|] eqn:Hg.
    - destruct (Hpos p g g Hg Hg) as [[? ?]|[? ?]]; auto.
    - apply lookup_ge_None in Hg.
      split; apply lookup_ge_None; lia. }
  split; apply list_eq; intros p; apply Hsame.
Qed.

Lemma C10_uniform_crossover_witness :
  length [1; 2; 3] = length [4; 5; 6] /\
  exists (child1 child2 : list Z) (r' : rng),
    uniform [1; 2; 3] [4; 5; 6] (rng_list [0; 2 ^ 52; 7]%N) =
      Ok ((child1, child2), r') /\
    length child1 = 3%nat /\ length child2 = 3%nat.
Proof.
  split; [reflexivity|].
  destruct (C10_uniform_crossover [1; 2; 3] [4; 5; 6]
              (rng_list [0; 2 ^ 52; 7]%N) eq_refl)
    as (c1 & c2 & r' & Hrun & Hl1 & Hl2 & _).
  exists c1, c2, r'. auto.
Defined.

End crossover_claims.

(* ===================================================================== *)
(** * Sampling without replacement                                        *)
(* ===================================================================== *)

Lemma raw_index_lt (n : N) (len : nat) :
  (0 < len)%nat -> (N.to_nat (n mod N.of_nat len) < len)%nat.
Proof.
  intros Hlen.
  pose proof (N.mod_upper_bound n (N.of_nat len)) as Hb. lia.
Qed.

Lemma sample_from_spec {A} (k : nat) :
  forall (pool : list A) (r : rng),
    (k <= length pool)%nat ->
    exists (l : list A) (r' : rng),
      sample_from pool k r = Ok (l, r') /\ length l = k /\ l ⊆+ pool.
Proof.
  induction k as [|k IH]; intros pool r Hk.
  - exists [], r. repeat split. apply submseteq_nil_l.
  - simpl. rewrite (M_bind_step _ _ _ _ _ (next_raw_Ok r)).
    set (i := N.to_nat (draws r (pos r) mod N.of_nat (length pool))).
    assert (Hi : (i < length pool)%nat) by (apply raw_index_lt; lia).
    destruct (lookup_lt_is_Some_2 pool i Hi) as [x Hx]. rewrite Hx.
    destruct (IH (delete i pool) (advance r)) as (l & r' & Hrun & Hl & Hsub).
    { rewrite length_delete by eauto. lia. }
    exists (x :: l), r'. rewrite (M_bind_step _ _ _ _ _ Hrun).
    repeat split.
    + simpl. congruence.
    + rewrite (delete_Permutation pool i x Hx). now apply submseteq_skip.
Qed.

Lemma sample_Ok {A} (population : list A) (k : Z) (r : rng) :
  0 <= k <= Z.of_nat (length population) ->
  exists (l : list A) (r' : rng),
    sample population k r = Ok (l, r') /\
    length l = Z.to_nat k /\ l ⊆+ population.
Proof.
  intros Hk. unfold sample.
  destruct (Z.ltb_spec k 0) as [?|_]; [lia|].
  destruct (Z.ltb_spec (Z.of_nat (length population)) k) as [?|_]; [lia|].
  simpl. apply sample_from_spec. lia.
Qed.

Lemma sample_too_large {A} (population : list A) (k : Z) (r : rng) :
  k < 0 \/ Z.of_nat (length population) < k ->
  sample population k r = Raise ValueError.
Proof.
  intros Hk. unfold sample.
  destruct (Z.ltb_spec k 0) as [?|?]; [reflexivity|].
  destruct (Z.ltb_spec (Z.of_nat (length population)) k) as [?|?];
    [reflexivity|lia].
Qed.

Lemma submseteq_NoDup {A} (l k : list A) : l ⊆+ k -> NoDup k -> NoDup l.
Proof.
  intros Hsub Hk. apply submseteq_Permutation in Hsub as [k' Hk'].
  rewrite Hk' in Hk. now apply NoDup_app in Hk as [? _].
Qed.

Lemma sample_two_indices (n : nat) (r : rng) :
  (2 <= n)%nat ->
  exists (i j : nat) (r' : rng),
    sample (seq 0 n) 2 r = Ok ([i; j], r') /\
    (i < n)%nat /\ (j < n)%nat /\ i <> j.
Proof.
  intros Hn.
  destruct (sample_Ok (seq 0 n) 2 r) as (l & r' & Hrun & Hl & Hsub).
  { rewrite length_seq. lia. }
  destruct l as [|i [|j [|? ?]]]; try discriminate.
  exists i, j, r'. split; [exact Hrun|].
  assert (Hin : forall x, x ∈ [i; j] -> (x < n)%nat).
  { intros x Hx. apply (elem_of_submseteq _ _ _ Hx) in Hsub.
    apply elem_of_seq in Hsub. lia. }
  pose proof (submseteq_NoDup _ _ Hsub (NoDup_seq 0 n)) as Hnd.
  apply NoDup_cons in Hnd as [Hij _].
  repeat split.
  - apply Hin. constructor.
  - apply Hin. do 2 constructor.
  - intros ->. apply Hij. constructor.
Qed.

(* ===================================================================== *)
(** * The mutation operators                                              *)
(* ===================================================================== *)

Section mutation_claims.
Import mutation_py.

Lemma obj_dangling (h : heap) (l : loc) : (length h <= l)%nat -> obj h l = [].
Proof.
  intros Hl. unfold obj. rewrite list_lookup_total_alt.
  now rewrite (lookup_ge_None_2 h l Hl).
Qed.

Lemma obj_snoc_new (h : heap) (v : list Z) : obj (h ++ [v]) (length h) = v.
Proof. unfold obj. now apply list_lookup_total_middle. Qed.

Lemma obj_snoc_old (h : heap) (v : list Z) (l : loc) :
  (l < length h)%nat -> obj (h ++ [v]) l = obj h l.
Proof. intros Hl. unfold obj. now apply lookup_total_app_l. Qed.

Lemma insert_snoc (h : heap) (v w : list Z) :
  <[length h := w]> (h ++ [v]) = h ++ [w].
Proof. rewrite insert_app_r_alt by lia. now rewrite Nat.sub_diag. Qed.

Lemma fresh_copy_snoc (h : heap) (w : list Z) :
  fresh_copy h (h ++ [w]) (length h).
Proof. split; [lia|]. intros l Hl. now apply obj_snoc_old. Qed.

Lemma get_item_snoc (h : heap) (v : list Z) (i : nat) (x : Z) :
  v !! i = Some x -> get_item (h ++ [v]) (length h) i = Ok x.
Proof. intros Hx. unfold get_item. now rewrite obj_snoc_new, Hx. Qed.

Lemma set_item_snoc (h : heap) (v : list Z) (i : nat) (x : Z) :
  (i < length v)%nat ->
  set_item (h ++ [v]) (length h) i x = Ok (h ++ [<[i := x]> v]).
Proof.
  intros Hi. unfold set_item. rewrite obj_snoc_new.
  destruct (Nat.ltb_spec i (length v)) as [_|?]; [|lia].
  now rewrite insert_snoc.
Qed.

Lemma insert_head_Permutation (l : list Z) (j : nat) (a y : Z) :
  l !! j = Some y -> y :: <[j := a]> l ≡ₚ a :: l.
Proof.
  revert j. induction l as [|b l IH]; intros [|j] Hj; try discriminate.
  - injection Hj as ->. apply perm_swap.
  - simpl in Hj. change (<[S j := a]> (b :: l)) with (b :: <[j := a]> l).
    rewrite perm_swap, (IH j Hj). apply perm_swap.
Qed.

Lemma insert_swap_Permutation (l : list Z) (i j : nat) (x y : Z) :
  l !! i = Some x -> l !! j = Some y -> i <> j ->
  <[j := x]> (<[i := y]> l) ≡ₚ l.
Proof.
  revert i j. induction l as [|a l IH]; intros [|i] [|j] Hi Hj Hij;
    try discriminate; try congruence; simpl in Hi, Hj.
  - injection Hi as ->.
    change (y :: <[j := x]> l ≡ₚ x :: l). now apply insert_head_Permutation.
  - injection Hj as ->.
    change (x :: <[i := y]> l ≡ₚ y :: l). now apply insert_head_Permutation.
  - change (a :: <[j := x]> (<[i := y]> l) ≡ₚ a :: l).
    apply perm_skip, IH; auto.
Qed.

Lemma reverse_slice_Permutation (v : list Z) (i j : nat) :
  (i <= j)%nat ->
  take i v ++ rev (take (j - i) (drop i v)) ++ drop j v ≡ₚ v.
Proof.
  intros Hij. rewrite <- (take_drop i v) at 4.
  apply Permutation_app_head.
  rewrite <- Permutation_rev.
  replace (drop j v) with (drop (j - i) (drop i v)).
  - now rewrite take_drop.
  - rewrite drop_drop. f_equal. lia.
Qed.

Lemma swap_spec (h : heap) (chromosome : loc) (r : rng) :
  (2 <= length (obj h chromosome))%nat ->
  exists (i j : nat) (x y : Z) (r' : rng),
    swap chromosome h r =
      Ok ((length h, h ++ [<[j := x]> (<[i := y]> (obj h chromosome))]), r') /\
    obj h chromosome !! i = Some x /\ obj h chromosome !! j = Some y /\
    i <> j.
Proof.
  intros Hlen. unfold swap, copy. set (v := obj h chromosome) in *.
  rewrite obj_snoc_new.
  destruct (sample_two_indices (length v) r Hlen)
    as (i & j & r' & Hrun & Hi & Hj & Hij).
  destruct (lookup_lt_is_Some_2 v i Hi) as [x Hx].
  destruct (lookup_lt_is_Some_2 v j Hj) as [y Hy].
  exists i, j, x, y, r'. split; [|auto].
  rewrite (M_bind_step _ _ _ _ _ Hrun).
  unfold mbind, M_bind, lift.
  rewrite (get_item_snoc h v j y Hy), (get_item_snoc h v i x Hx).
  rewrite (set_item_snoc h v i y Hi).
  rewrite (set_item_snoc h (<[i := y]> v) j x)
    by (rewrite length_insert; exact Hj).
  reflexivity.
Qed.

Lemma inversion_spec (h : heap) (chromosome : loc) (r : rng) :
  (2 <= length (obj h chromosome))%nat ->
  exists (i j : nat) (r' : rng),
    inversion chromosome h r =
      Ok ((length h,
           h ++ [take i (obj h chromosome) ++
                 rev (take (j - i) (drop i (obj h chromosome))) ++
                 drop j (obj h chromosome)]), r') /\
    (i < j)%nat /\ (j < length (obj h chromosome))%nat.
Proof.
  intros Hlen. unfold inversion, copy. set (v := obj h chromosome) in *.
  rewrite obj_snoc_new.
  destruct (sample_two_indices (length v) r Hlen)
    as (a & b & r' & Hrun & Ha & Hb & Hab).
  exists (Nat.min a b), (Nat.max a b), r'. split; [|lia].
  rewrite (M_bind_step _ _ _ _ _ Hrun).
  unfold reverse_slice. rewrite obj_snoc_new, insert_snoc. reflexivity.
Qed.

Lemma random_reset_spec (h : heap) (chromosome : loc) (min_val max_val : Z)
    (r : rng) :
  (1 <= length (obj h chromosome))%nat -> min_val <= max_val ->
  exists (i : nat) (v : Z) (r' : rng),
    random_reset chromosome min_val max_val h r =
      Ok ((length h, h ++ [<[i := v]> (obj h chromosome)]), r') /\
    (i < length (obj h chromosome))%nat /\ min_val <= v <= max_val.
Proof.
  intros Hlen Hmm. unfold random_reset, copy.
  set (c := obj h chromosome) in *. rewrite obj_snoc_new.
  assert (H0 : 0 <= Z.of_nat (length c) - 1) by lia.
  pose proof (randint_Ok 0 _ r H0) as Hi.
  pose proof (randint_range _ _ _ _ _ Hi) as Hir.
  pose proof (randint_Ok min_val max_val (advance r) Hmm) as Hv.
  pose proof (randint_range _ _ _ _ _ Hv) as Hvr.
  eexists (Z.to_nat _), _, _. split; [|split; [|exact Hvr]].
  - rewrite (M_bind_step _ _ _ _ _ Hi), (M_bind_step _ _ _ _ _ Hv).
    rewrite set_item_snoc by lia. reflexivity.
  - lia.
Qed.

(** C8, as the code has it. On a chromosome of length at least 2, [swap]
    and [inversion] return a new list that is a permutation of the input,
    [random_reset] (with min_val <= max_val) returns a new list of the
    same length that differs from the input in at most one position (the
    value drawn may be the gene that was there); all three leave every
    existing list, the input included, unmodified. *)
Theorem C8_mutation_operators (h : heap) (chromosome : loc)
    (min_val max_val : Z) (r : rng) :
  (2 <= length (obj h chromosome))%nat ->
  min_val <= max_val ->
  (exists (child : loc) (h' : heap) (r' : rng),
     swap chromosome h r = Ok ((child, h'), r') /\
     fresh_copy h h' child /\
     obj h' child ≡ₚ obj h chromosome) /\
  (exists (child : loc) (h' : heap) (r' : rng),
     inversion chromosome h r = Ok ((child, h'), r') /\
     fresh_copy h h' child /\
     obj h' child ≡ₚ obj h chromosome) /\
  (exists (child : loc) (h' : heap) (r' : rng),
     random_reset chromosome min_val max_val h r = Ok ((child, h'), r') /\
     fresh_copy h h' child /\
     length (obj h' child) = length (obj h chromosome) /\
     forall p q : nat,
       differ_at (obj h' child) (obj h chromosome) p ->
       differ_at (obj h' child) (obj h chromosome) q -> p = q).
Proof.
  intros Hlen Hmm. split; [|split].
  - destruct (swap_spec h chromosome r Hlen)
      as (i & j & x & y & r' & Hrun & Hx & Hy & Hij).
    eexists _, _, r'. split; [exact Hrun|].
    split; [apply fresh_copy_snoc|].
    rewrite obj_snoc_new. now apply insert_swap_Permutation.
  - destruct (inversion_spec h chromosome r Hlen)
      as (i & j & r' & Hrun & Hij & Hj).
    eexists _, _, r'. split; [exact Hrun|].
    split; [apply fresh_copy_snoc|].
    rewrite obj_snoc_new. apply reverse_slice_Permutation. lia.
  - destruct (random_reset_spec h chromosome min_val max_val r)
      as (i & v & r' & Hrun & Hi & Hv); [lia|exact Hmm|].
    eexists _, _, r'. split; [exact Hrun|].
    split; [apply fresh_copy_snoc|].
    rewrite obj_snoc_new. split; [apply length_insert|].
    assert (Hat : forall p,
               differ_at (<[i := v]> (obj h chromosome)) (obj h chromosome) p ->
               p = i).
    { intros p Hp. destruct (decide (p = i)) as [->|Hne]; [reflexivity|].
      exfalso. apply Hp. now apply list_lookup_insert_ne. }
    intros p q Hp Hq. rewrite (Hat p Hp), (Hat q Hq). reflexivity.
Qed.

Lemma C8_mutation_operators_witness :
  (2 <= length (obj [[1; 2; 3]%Z] 0))%nat /\ 0 <= 9 /\
  exists (child : loc) (h' : heap) (r' : rng),
    swap 0%nat [[1; 2; 3]] (rng_list [0; 1]%N) = Ok ((child, h'), r') /\
    fresh_copy [[1; 2; 3]] h' child /\
    obj h' child ≡ₚ obj [[1; 2; 3]] 0%nat.
Proof.
  split; [simpl; lia|]. split; [lia|].
  apply (C8_mutation_operators [[1; 2; 3]] 0%nat 0 9 (rng_list [0; 1]%N)).
  - simpl; lia.
  - lia.
Defined.

(** C8 fails for [random_reset]: on [0, 0] with values drawn from 0..9 and
    a source whose raw numbers are all 0, gene 0 is reset to the value it
    had, and the child differs from the input in no position. *)
Lemma C8_counterexample :
  random_reset 0%nat 0 9 [[0; 0]] (rng_const 0) =
    Ok ((1%nat, [[0; 0]; [0; 0]]), advance (advance (rng_const 0))) /\
  obj [[0; 0]; [0; 0]] 1%nat = obj [[0; 0]] 0%nat /\
  forall p : nat, ~ differ_at (obj [[0; 0]; [0; 0]] 1%nat) (obj [[0; 0]] 0%nat) p.
Proof.
  split; [reflexivity|]. split; [reflexivity|].
  intros p Hp. apply Hp. reflexivity.
Qed.

End mutation_claims.

(* ===================================================================== *)
(** * The diversity metric                                                *)
(* ===================================================================== *)

Section diversity_claims.
Import instance_py genetic_algorithm_py.

(** C9 at a population of two individuals that differ in their only gene.
    [sample_size] is min(10, 2 - 1) = 1 and the inner loop runs over
    [range(i + 1, min(i + 1, 2))], which is empty for both [i]: no pair is
    compared and the code returns 0, where the spec's comparison of each
    individual with the next min(10, n - 1) = 1 individuals samples the
    pair (0, 1), of distance 1, and gives the mean 1. *)
Theorem C9_diversity_of_two_differing :
  let population := [new_Individual [0]; new_Individual [1]] in
  calculate_diversity population = Ok 0%Q /\
  pairs_spec (length population) = [(0, 1)]%nat /\
  (diversity_spec population == 1)%Q.
Proof. repeat split. Qed.

(** On three individuals the code compares (0, 1) and (1, 2) only; the
    spec's pairs are (0, 1), (0, 2) and (1, 2). *)
Lemma diversity_of_three :
  let population :=
    [new_Individual [0]; new_Individual [0]; new_Individual [1]] in
  (exists q, calculate_diversity population = Ok q /\ (q == 1 # 2)%Q) /\
  pairs_spec (length population) = [(0, 1); (0, 2); (1, 2)]%nat /\
  (diversity_spec population == 2 # 3)%Q.
Proof. split; [eexists; split; [reflexivity|reflexivity]|]. repeat split. Qed.

Lemma count_diff_same (c : list Z) : count_diff c c = 0.
Proof.
  unfold count_diff. replace (filter _ (zip c c)) with (@nil (Z * Z)).
  - reflexivity.
  - symmetry. induction c as [|g c IH]; [reflexivity|].
    simpl. rewrite filter_cons. simpl.
    destruct (decide (g ≠ g)) as [Hne|_]; [congruence|]. exact IH.
Qed.

Lemma sumQ_acc_zero (l : list Q) (a : Q) :
  Forall (fun q => (q == 0)%Q) l -> (fold_left Qplus l a == a)%Q.
Proof.
  intros Hl. revert a. induction Hl as [|q l Hq _ IH]; intros a; simpl.
  - reflexivity.
  - rewrite IH, Hq. ring.
Qed.

Lemma diversity_inner_same (c : list Z) (population : list Individual)
    (i : nat) (js : list nat) (differences : list Q) :
  Forall (fun ind => chromosome ind = c) population ->
  (0 < length c)%nat ->
  (i < length population)%nat ->
  Forall (fun j => (j < length population)%nat) js ->
  Forall (fun q => (q == 0)%Q) differences ->
  exists differences',
    diversity_inner population i js differences = Ok differences' /\
    Forall (fun q => (q == 0)%Q) differences'.
Proof.
  intros Hpop Hc Hi Hjs. revert differences.
  induction Hjs as [|j js Hj _ IH]; intros differences Hd; simpl.
  - eauto.
  - destruct (lookup_lt_is_Some_2 population i Hi) as [pi Hpi].
    destruct (lookup_lt_is_Some_2 population j Hj) as [pj Hpj].
    rewrite Hpi, Hpj.
    rewrite Forall_lookup in Hpop.
    rewrite (Hpop i pi Hpi), (Hpop j pj Hpj), count_diff_same.
    destruct (Nat.eqb_spec (length c) 0) as [?|_]; [lia|].
    apply IH. apply Forall_app. split; [exact Hd|].
    constructor; [|constructor].
    unfold Qdiv. ring.
Qed.

Lemma diversity_outer_same (c : list Z) (population : list Individual)
    (sample_size : nat) (ixs : list nat) (differences : list Q) :
  Forall (fun ind => chromosome ind = c) population ->
  (0 < length c)%nat ->
  Forall (fun i => (i < length population)%nat) ixs ->
  Forall (fun q => (q == 0)%Q) differences ->
  exists differences',
    diversity_outer population sample_size ixs differences = Ok differences' /\
    Forall (fun q => (q == 0)%Q) differences'.
Proof.
  intros Hpop Hc Hixs. revert differences.
  induction Hixs as [|i ixs Hi _ IH]; intros differences Hd; simpl.
  - eauto.
  - destruct (diversity_inner_same c population i
                (range (i + 1) (Nat.min (i + sample_size) (length population)))
                differences Hpop Hc Hi) as (d' & Hrun & Hd'); [|exact Hd|].
    + apply Forall_forall. intros j Hj. unfold range in Hj.
      apply elem_of_seq in Hj. lia.
    + rewrite Hrun. simpl. now apply IH.
Qed.

(** What does hold of the metric: a population whose individuals all carry
    the same non-empty chromosome has diversity 0. *)
Lemma diversity_identical_zero (c : list Z) (population : list Individual) :
  Forall (fun ind => chromosome ind = c) population ->
  (0 < length c)%nat ->
  exists q : Q, calculate_diversity population = Ok q /\ (q == 0)%Q.
Proof.
  intros Hpop Hc. unfold calculate_diversity.
  destruct (Nat.ltb_spec (length population) 2) as [_|Hn].
  - exists 0%Q. split; reflexivity.
  - destruct (diversity_outer_same c population
                (Nat.min 10 (length population - 1))
                (range 0 (Nat.min 20 (length population))) [] Hpop Hc)
      as (d & Hrun & Hd).
    + apply Forall_forall. intros i Hi. unfold range in Hi.
      apply elem_of_seq in Hi. lia.
    + constructor.
    + rewrite Hrun. simpl. destruct d as [|q d].
      * exists 0%Q. split; reflexivity.
      * eexists. split; [reflexivity|].
        unfold sumQ. rewrite (sumQ_acc_zero _ _ Hd).
        unfold Qdiv. ring.
Qed.

End diversity_claims.

(* ===================================================================== *)
(** * Roulette selection                                                  *)
(* ===================================================================== *)

Section roulette_claims.
Import instance_py.

Lemma Qadd_nonneg (a b : Q) : (0 <= a -> 0 <= b -> 0 <= a + b)%Q.
Proof.
  intros Ha Hb. apply (Qle_trans _ (0 + 0)); [discriminate|].
  now apply Qplus_le_compat.
Qed.

Lemma Qadd_pos_nonneg (a b : Q) : (0 < a -> 0 <= b -> 0 < a + b)%Q.
Proof.
  intros Ha Hb. apply (Qle_lt_trans _ (0 + b)).
  - rewrite Qplus_0_l. exact Hb.
  - apply Qplus_lt_l. exact Ha.
Qed.

Lemma Qadd_nonneg_pos (a b : Q) : (0 <= a -> 0 < b -> 0 < a + b)%Q.
Proof. intros Ha Hb. rewrite Qplus_comm. now apply Qadd_pos_nonneg. Qed.

Lemma Qle_bool_false (x y : Q) : Qle_bool x y = false <-> (y < x)%Q.
Proof.
  split.
  - intros H. apply Qnot_le_lt. intros Hle.
    apply Qle_bool_iff in Hle. congruence.
  - intros H. destruct (Qle_bool x y) eqn:E; [|reflexivity].
    apply Qle_bool_iff in E. exfalso. now apply (Qlt_not_le _ _ H).
Qed.

(** C7 at a population whose only individual has fitness -1: the
    single-draw form of core_functions/Selection.py raises nothing. The
    total is -1, the threshold is -u for the number u of [0, 1) drawn, the
    cumulative fitness -1 is below it, and the loop falls off its end:
    the function returns [None]. The bulk form of Algorithms/roulette.py
    raises [ValueError] on the same fitness. *)
Theorem C7_roulette_negative_fitness (r : rng) :
  let bad := {| chromosome := [0]; cost := Some 0; fitness := Some (-1)%Q |} in
  Selection_py.roulette_selection [bad] r = Ok (None, advance r) /\
  roulette_py.roulette_selection [bad] [(-1)%Q] 1 r = Raise ValueError.
Proof.
  intros bad. split; [|reflexivity].
  pose proof (random_range r _ _ (random_Ok r)) as [_ Hu].
  unfold Selection_py.roulette_selection.
  rewrite (M_bind_step _ _ r r (0 + -1)%Q) by reflexivity.
  rewrite (M_bind_step _ _ _ _ _ (uniform_Ok _ _ r)).
  set (u := (Z.of_N (draws r (pos r) mod 2 ^ 53) # 2 ^ 53)) in *.
  unfold Selection_py.spin, bad. simpl fitness. cbv iota beta.
  replace (Qle_bool (0 + (0 + -1 - 0) * u) (0 + -1)) with false;
    [reflexivity|].
  symmetry. apply Qle_bool_false.
  q_replace (0 + (0 + -1 - 0) * u)%Q (- u)%Q.
  q_replace (0 + -1)%Q (- (1))%Q.
  now apply Qopp_lt_compat.
Qed.

Lemma sum_fitness_Ok (l : list Individual) (acc : Q) :
  Forall (fun ind => is_Some (fitness ind)) l ->
  exists t : Q,
    Selection_py.sum_fitness acc l = Ok t /\ (t == acc + fitness_sum l)%Q.
Proof.
  intros Hl. revert acc. induction Hl as [|ind l [f Hf] _ IH]; intros acc.
  - exists acc. split; [reflexivity|]. simpl. ring.
  - simpl. rewrite Hf. destruct (IH (acc + f)%Q) as (t & Hrun & Ht).
    exists t. split; [exact Hrun|]. rewrite Ht. simpl. ring.
Qed.

Lemma fitness_sum_app (l1 l2 : list Individual) :
  (fitness_sum (l1 ++ l2) == fitness_sum l1 + fitness_sum l2)%Q.
Proof.
  induction l1 as [|x l1 IH]; simpl.
  - ring.
  - rewrite IH. ring.
Qed.

Lemma spin_first (pick : Q) (l : list Individual) :
  forall cur : Q,
    Forall (fun ind => is_Some (fitness ind)) l ->
    l <> [] ->
    (pick <= cur + fitness_sum l)%Q ->
    exists ind : Individual,
      Selection_py.spin pick cur l = Ok (Some ind) /\
      first_reaching pick cur l ind.
Proof.
  induction l as [|x l IH]; intros cur Hl Hne Hsum; [congruence|].
  apply Forall_cons in Hl as [[f Hf] Hl]. simpl. rewrite Hf.
  simpl in Hsum. rewrite Hf in Hsum. simpl in Hsum.
  destruct (Qle_bool pick (cur + f)) eqn:E.
  - exists x. split; [reflexivity|]. exists [], l. split; [reflexivity|].
    split.
    + apply Qle_bool_iff in E. simpl. rewrite Hf. simpl.
      q_replace (cur + (f + 0))%Q (cur + f)%Q. exact E.
    + intros k Hk. simpl in Hk. lia.
  - apply Qle_bool_false in E.
    destruct (IH (cur + f)%Q Hl) as (ind & Hrun & pre & post & -> & Hge & Hlt).
    + intros ->. simpl in Hsum. apply (Qlt_not_le _ _ E).
      q_replace (cur + f)%Q (cur + (f + 0))%Q. exact Hsum.
    + q_replace (cur + f + fitness_sum l)%Q (cur + (f + fitness_sum l))%Q. exact Hsum.
    + exists ind. split; [exact Hrun|]. exists (x :: pre), post.
      split; [reflexivity|]. split.
      * simpl. rewrite Hf. simpl.
        q_replace (cur + (f + fitness_sum (pre ++ [ind])))%Q (cur + f + fitness_sum (pre ++ [ind]))%Q. exact Hge.
      * intros [|k] Hk; simpl; rewrite Hf; simpl.
        -- q_replace (cur + (f + 0))%Q (cur + f)%Q. exact E.
        -- q_replace (cur + (f + fitness_sum (take (S k) pre)))%Q (cur + f + fitness_sum (take (S k) pre))%Q.
           apply Hlt. simpl in Hk. lia.
Qed.

Lemma fitness_sum_nonneg (l : list Individual) :
  Forall (fun ind => exists f, fitness ind = Some f /\ (0 <= f)%Q) l ->
  (0 <= fitness_sum l)%Q.
Proof.
  induction 1 as [|x l (f & Hf & Hpos) _ IH]; simpl.
  - apply Qle_refl.
  - rewrite Hf. simpl.
    now apply Qadd_nonneg.
Qed.

Lemma fitness_sum_pos (l : list Individual) :
  Forall (fun ind => exists f, fitness ind = Some f /\ (0 <= f)%Q) l ->
  Exists (fun ind => exists f, fitness ind = Some f /\ (0 < f)%Q) l ->
  (0 < fitness_sum l)%Q.
Proof.
  intros Hall Hex. induction Hex as [x l (f & Hf & Hpos)|x l _ IH].
  - apply Forall_cons in Hall as [_ Hall]. simpl. rewrite Hf. simpl.
    apply Qadd_pos_nonneg; [exact Hpos|now apply fitness_sum_nonneg].
  - apply Forall_cons in Hall as [(f & Hf & Hpos) Hall]. simpl.
    rewrite Hf. simpl.
    apply Qadd_nonneg_pos; [exact Hpos|now apply IH].
Qed.

(** What does hold of the single-draw form: when every
    fitness is >= 0 and one is > 0, [roulette_selection] raises nothing;
    its threshold lies in [0, sum of fitness) and it returns the first
    individual whose cumulative fitness meets or exceeds the threshold. *)
Lemma roulette_selection_nonneg (population : list Individual) (r : rng) :
  Forall (fun ind => exists f, fitness ind = Some f /\ (0 <= f)%Q) population ->
  Exists (fun ind => exists f, fitness ind = Some f /\ (0 < f)%Q) population ->
  exists (pick : Q) (ind : Individual),
    Selection_py.roulette_selection population r = Ok (Some ind, advance r) /\
    (0 <= pick)%Q /\ (pick < fitness_sum population)%Q /\
    first_reaching pick 0 population ind.
Proof.
  intros Hall Hex.
  pose proof (fitness_sum_pos _ Hall Hex) as Hpos.
  assert (Hsome : Forall (fun ind => is_Some (fitness ind)) population).
  { eapply Forall_impl; [exact Hall|]. intros x (f & Hf & _). eauto. }
  destruct (sum_fitness_Ok population 0 Hsome) as (total & Htot & Heq).
  assert (Ht : (total == fitness_sum population)%Q) by (rewrite Heq; ring).
  pose proof (random_range r _ _ (random_Ok r)) as [Hu0 Hu1].
  set (u := (Z.of_N (draws r (pos r) mod 2 ^ 53) # 2 ^ 53)) in *.
  set (pick := (0 + (total - 0) * u)%Q).
  assert (Hpick : (pick == total * u)%Q) by (unfold pick; ring).
  assert (Hp0 : (0 <= pick)%Q).
  { rewrite Hpick. apply Qmult_le_0_compat; [|exact Hu0].
    rewrite Ht. now apply Qlt_le_weak. }
  assert (Hp1 : (pick < fitness_sum population)%Q).
  { rewrite Hpick, <- Ht.
    q_replace_at2 (total)%Q (total * 1)%Q.
    apply Qmult_lt_l; [rewrite Ht; exact Hpos|exact Hu1]. }
  destruct (spin_first pick population 0 Hsome) as (ind & Hrun & Hfirst).
  - intros ->. inversion Hex.
  - q_replace (0 + fitness_sum population)%Q (fitness_sum population)%Q. now apply Qlt_le_weak.
  - exists pick, ind. split; [|auto].
    unfold Selection_py.roulette_selection.
    rewrite (M_bind_step _ _ r r total) by (unfold lift; now rewrite Htot).
    rewrite (M_bind_step _ _ _ _ _ (uniform_Ok _ _ r)).
    fold u. fold pick. unfold lift. rewrite Hrun. reflexivity.
Qed.

(** The check of the bulk form: a negative fitness makes
    [roulette_selection] of Algorithms/roulette.py raise [ValueError]. *)
Lemma roulette_bulk_negative {A} (population : list A)
    (fitness_scores : list Q) (num_parents : Z) (r : rng) :
  Exists (fun f => (f < 0)%Q) fitness_scores ->
  roulette_py.roulette_selection population fitness_scores num_parents r =
    Raise ValueError.
Proof.
  intros Hex. unfold roulette_py.roulette_selection.
  replace (existsb _ fitness_scores) with true; [reflexivity|].
  symmetry. apply existsb_exists. apply List.Exists_exists in Hex.
  destruct Hex as (f & Hin & Hf). exists f. split; [exact Hin|].
  apply negb_true_iff. now apply Qle_bool_false.
Qed.

Lemma length_accumulate (weights : list Q) :
  forall acc : Q, length (roulette_py.accumulate acc weights) = length weights.
Proof.
  induction weights as [|w weights IH]; intros acc; simpl;
    [reflexivity|now rewrite IH].
Qed.

Lemma last_accumulate_pos (weights : list Q) :
  forall acc : Q,
    (0 <= acc)%Q ->
    Forall (fun w => (0 <= w)%Q) weights ->
    (0 < acc)%Q \/ Exists (fun w => (0 < w)%Q) weights ->
    weights <> [] ->
    exists total : Q,
      last (roulette_py.accumulate acc weights) = Some total /\
      (0 < total)%Q.
Proof.
  induction weights as [|w weights IH]; intros acc Hacc Hall Hex Hne;
    [congruence|].
  apply Forall_cons in Hall as [Hw Hall]. simpl.
  assert (Hacc' : (0 <= acc + w)%Q) by now apply Qadd_nonneg.
  assert (Hex' : (0 < acc + w)%Q \/ Exists (fun w => (0 < w)%Q) weights).
  { destruct Hex as [Hpos|Hex].
    - left. now apply Qadd_pos_nonneg.
    - apply Exists_cons in Hex as [Hpos|Hex]; [left|now right].
      now apply Qadd_nonneg_pos. }
  destruct weights as [|w' weights].
  - exists (acc + w)%Q. split; [reflexivity|].
    destruct Hex' as [Hpos|Hex']; [exact Hpos|inversion Hex'].
  - destruct (IH (acc + w)%Q Hacc' Hall Hex') as (total & Hlast & Hpos);
      [discriminate|].
    exists total. split; [|exact Hpos].
    rewrite last_cons. now rewrite Hlast.
Qed.

Lemma bisect_le (cum_weights : list Q) (x : Q) :
  forall hi : nat, (roulette_py.bisect cum_weights x hi <= hi)%nat.
Proof.
  induction cum_weights as [|c cum_weights IH]; intros [|hi]; simpl; try lia.
  destruct (Qle_bool c x); [|lia]. specialize (IH hi). lia.
Qed.

Lemma choose_Ok {A} (population : list A) (cum_weights : list Q) (total : Q)
    (k : nat) :
  population <> [] ->
  forall r : rng,
    exists (l : list A) (r' : rng),
      roulette_py.choose population cum_weights total k r = Ok (l, r') /\
      length l = k /\ Forall (fun x => x ∈ population) l.
Proof.
  intros Hne. induction k as [|k IH]; intros r; simpl.
  - exists [], r. repeat split. constructor.
  - rewrite (M_bind_step _ _ _ _ _ (random_Ok r)).
    set (i := roulette_py.bisect _ _ _).
    assert (Hi : (i < length population)%nat).
    { pose proof (bisect_le cum_weights
                    ((Z.of_N (draws r (pos r) mod 2 ^ 53) # 2 ^ 53) * total)%Q
                    (length population - 1)) as Hb.
      fold i in Hb. destruct population; [congruence|simpl in *; lia]. }
    destruct (lookup_lt_is_Some_2 population i Hi) as [x Hx]. rewrite Hx.
    destruct (IH (advance r)) as (l & r' & Hrun & Hlen & Hall).
    rewrite (M_bind_step _ _ _ _ _ Hrun).
    exists (x :: l), r'. split; [reflexivity|]. split; [simpl; lia|].
    constructor; [|exact Hall]. eapply list_elem_of_lookup_2; eauto.
Qed.

(** What does hold of the bulk form: with one fitness per
    individual, none negative and one positive, [roulette_selection] of
    Algorithms/roulette.py raises nothing and returns [num_parents]
    individuals of the population. *)
Lemma roulette_bulk_nonneg {A} (population : list A)
    (fitness_scores : list Q) (num_parents : Z) (r : rng) :
  length fitness_scores = length population ->
  Forall (fun f => (0 <= f)%Q) fitness_scores ->
  Exists (fun f => (0 < f)%Q) fitness_scores ->
  exists (parents : list A) (r' : rng),
    roulette_py.roulette_selection population fitness_scores num_parents r =
      Ok (parents, r') /\
    length parents = Z.to_nat num_parents /\
    Forall (fun x => x ∈ population) parents.
Proof.
  intros Hlen Hall Hex. unfold roulette_py.roulette_selection.
  replace (existsb _ fitness_scores) with false.
  - unfold roulette_py.choices. rewrite length_accumulate, Hlen, Nat.eqb_refl.
    cbn [negb].
    assert (Hne : fitness_scores <> []) by (intros ->; inversion Hex).
    destruct (last_accumulate_pos fitness_scores 0 (Qle_refl 0) Hall
                (or_intror Hex) Hne) as (total & Hlast & Hpos).
    rewrite Hlast.
    replace (Qle_bool total 0) with false
      by (symmetry; now apply Qle_bool_false).
    apply choose_Ok. intros ->. destruct fitness_scores; [congruence|].
    discriminate.
  - symmetry. apply not_true_is_false. intros Hb.
    apply existsb_exists in Hb as (f & Hin & Hf).
    apply negb_true_iff, Qle_bool_false in Hf.
    rewrite List.Forall_forall in Hall. apply (Qlt_not_le _ _ Hf).
    now apply Hall.
Qed.

End roulette_claims.

(* ===================================================================== *)
(** * The generational loop: what every generation preserves              *)
(* ===================================================================== *)

Section engine_invariants.
Import instance_py genetic_algorithm_py.

Lemma fitness_evaluated (ind ind' : Individual) (inst : Instance) (f : Q) :
  fitness_py.fitness ind inst = Ok (f, ind') -> evaluated ind'.
Proof.
  rewrite fitness_Ok. intros H. inversion H; subst; clear H.
  exists (fitness_py.compute_cost ind inst).
  split; [apply cost_nonneg|]. split; reflexivity.
Qed.

Lemma max_from_In {A} (key : A -> option Q) (l : list A) :
  forall best x : A, max_from key best l = Ok x -> x = best \/ x ∈ l.
Proof.
  induction l as [|y l IH]; intros best x H; simpl in H.
  - inversion H. now left.
  - inv_M H. apply IH in H as [->|Hin].
    + destruct a; [right; constructor|now left].
    + right. now constructor.
Qed.

Lemma max_key_In {A} (key : A -> option Q) (l : list A) (x : A) :
  max_key key l = Ok x -> x ∈ l.
Proof.
  destruct l as [|y l]; simpl; [discriminate|].
  intros H. apply max_from_In in H as [->|Hin]; now constructor.
Qed.

Lemma initialize_population_loop_evaluated (self : GeneticAlgorithm) (n : nat) :
  forall (population out : list Individual) (r r' : rng),
    initialize_population_loop self n population r = Ok (out, r') ->
    Forall evaluated population -> Forall evaluated out.
Proof.
  induction n as [|n IH]; intros population out r r' H Hpop; simpl in H.
  - inv_M H. exact Hpop.
  - inv_M H. inv_M H. destruct a0 as [f ind]. inv_M H1.
    apply (IH _ _ _ _ H). apply Forall_app. split; [exact Hpop|].
    constructor; [|constructor]. eapply fitness_evaluated; eauto.
Qed.

Lemma breed_appends (self : GeneticAlgorithm) (population : list Individual)
    (fuel : nat) :
  forall (new_population out : list Individual) (r r' : rng),
    breed self population fuel new_population r = Ok (out, r') ->
    exists children : list Individual,
      out = new_population ++ children /\ Forall evaluated children.
Proof.
  induction fuel as [|fuel IH]; intros new_population out r r' H;
    simpl in H;
    destruct (Z.of_nat (length new_population) <? pop_size self).
  - discriminate.
  - inv_M H. exists []. now rewrite app_nil_r.
  - inv_run.
    match goal with
    | H : breed _ _ _ _ _ = Ok _ |- _ => apply IH in H as (children & -> & Hch)
    end.
    eexists (_ :: _ :: children). split.
    + now rewrite <- app_assoc.
    + repeat (constructor; [eapply fitness_evaluated; eassumption|]).
      exact Hch.
  - inv_M H. exists []. now rewrite app_nil_r.
Qed.

Lemma slice_to_Forall {A} (P : A -> Prop) (l : list A) (n : Z) :
  Forall P l -> Forall P (slice_to l n).
Proof. intros H. unfold slice_to. destruct (0 <=? n); now apply Forall_take. Qed.


Lemma gt_evaluated (x y : Individual) (b : bool) :
  evaluated x -> evaluated y ->
  gt (fitness x) (fitness y) = Ok b ->
  exists cx cy : Z,
    cost x = Some cx /\ cost y = Some cy /\
    (if b then cx < cy else cy <= cx).
Proof.
  intros (cx & Hx0 & Hcx & Hfx) (cy & Hy0 & Hcy & Hfy) H.
  exists cx, cy. split; [exact Hcx|]. split; [exact Hcy|].
  rewrite Hfx, Hfy in H. simpl in H. injection H as <-.
  destruct (Qle_bool (fitness_of_cost cx) (fitness_of_cost cy)) eqn:E; simpl.
  - apply Qle_bool_iff in E. destruct (Z_lt_le_dec cx cy) as [Hlt|Hle]; [|exact Hle].
    apply (fitness_of_cost_lt cx cy Hx0 Hy0) in Hlt.
    exfalso. now apply (Qlt_not_le _ _ Hlt).
  - apply Qle_bool_false in E. now apply (fitness_of_cost_lt cx cy Hx0 Hy0).
Qed.

Lemma generation_body_effect (st st' : loop_state) (r r' : rng) :
  evaluated (best_individual_ st) ->
  generation_body st r = Ok (st', r') ->
  generation_effect st st'.
Proof.
  intros Hbest H. unfold generation_body in H.
  apply M_bind_Ok in H as (new_population & r0 & Hbreed & H).
  apply breed_appends in Hbreed as (children & -> & Hch).
  assert (Hpop : Forall evaluated
                   (slice_to ([best_individual_ st] ++ children)
                      (pop_size (self_ st)))).
  { apply slice_to_Forall. apply Forall_app. split; [|exact Hch].
    constructor; [exact Hbest|constructor]. }
  inv_run.
  match goal with
  | Hmax : max_key _ _ = Ok ?x, Hgt : gt _ _ = Ok ?b |- _ =>
      rename x into current_best; rename b into improved;
      assert (Hcur : evaluated current_best)
        by (apply max_key_In in Hmax; rewrite Forall_forall in Hpop;
            now apply Hpop);
      destruct (gt_evaluated _ _ _ Hcur Hbest Hgt)
        as (cx & cy & Hcx & Hcy & Hcmp)
  end.
  constructor; simpl; try reflexivity; eauto.
  - destruct improved; assumption.
  - exists cy. destruct improved.
    + exists cx. repeat split; auto. lia.
    + exists cy. repeat split; auto. lia.
  - destruct improved; auto.
Qed.

End engine_invariants.

(* ===================================================================== *)
(** * The main loop                                                       *)
(* ===================================================================== *)

Section engine_loop.
Import instance_py genetic_algorithm_py.



Lemma loop_effect_refl (st : loop_state) :
  loop_invariant st ->
  max_generations (self_ st) <= generation_ st ->
  loop_effect st st.
Proof.
  intros Hinv Hdone. pose proof Hinv as [(c & _ & Hc & _) _].
  constructor; try lia; try exact Hinv.
  exists [], c. rewrite app_nil_r. repeat split; try assumption.
  - constructor.
  - simpl. lia.
Qed.

Lemma generation_preserves_invariant (st st' : loop_state) :
  loop_invariant st -> generation_effect st st' -> loop_invariant st'.
Proof.
  intros [_ Hcnt] E. split; [apply (ge_best_evaluated _ _ E)|].
  pose proof (ge_generation _ _ E). pose proof (ge_stagnation _ _ E). lia.
Qed.

Lemma loop_effect_step (st st1 st' : loop_state) :
  loop_invariant st ->
  generation_ st < max_generations (self_ st) ->
  generation_effect st st1 ->
  loop_effect st1 st' ->
  loop_effect st st'.
Proof.
  intros Hinv Hlt E L.
  pose proof (ge_generation _ _ E) as Hg.
  pose proof (ge_max_generations _ _ E) as Hm.
  destruct L as [Li Lm Lg (rec & c1 & Lh & Lc & Ln & Llen) Lbf Laf Ldv Lex].
  destruct (ge_best_cost _ _ E) as (c & c1' & Hc & Hc1 & Hle).
  assert (c1' = c1) by congruence. subst c1'.
  destruct (ge_avg_fitness_history _ _ E) as (avg & Havg).
  destruct (ge_diversity_history _ _ E) as (d & Hd).
  constructor; try lia; try assumption.
  - exists (Some c1 :: rec), c.
    rewrite Lh, (ge_best_cost_history _ _ E), Hc1, <- app_assoc.
    repeat split; try assumption.
    + now constructor.
    + simpl length. lia.
  - rewrite Lbf, (ge_best_fitness_history _ _ E), length_app. simpl. lia.
  - rewrite Laf, Havg, length_app. simpl. lia.
  - rewrite Ldv, Hd, length_app. simpl. lia.
Qed.

Lemma loop_effect_break (st st1 : loop_state) :
  loop_invariant st ->
  generation_ st < max_generations (self_ st) ->
  generation_effect st st1 ->
  200 < stagnation_counter_ st1 ->
  loop_effect st st1.
Proof.
  intros Hinv Hlt E Hbreak.
  pose proof (ge_generation _ _ E) as Hg.
  pose proof (ge_max_generations _ _ E) as Hm.
  destruct (ge_best_cost _ _ E) as (c & c1 & Hc & Hc1 & Hle).
  destruct (ge_avg_fitness_history _ _ E) as (avg & Havg).
  destruct (ge_diversity_history _ _ E) as (d & Hd).
  constructor; try lia; try assumption.
  - now apply (generation_preserves_invariant st).
  - exists [Some c1], c. rewrite (ge_best_cost_history _ _ E), Hc1.
    repeat split; try assumption.
    + constructor; [exact Hle|constructor].
    + simpl length. lia.
  - rewrite (ge_best_fitness_history _ _ E), length_app. simpl. lia.
  - rewrite Havg, length_app. simpl. lia.
  - rewrite Hd, length_app. simpl. lia.
Qed.

Lemma main_loop_effect (fuel : nat) :
  forall (st st' : loop_state) (r r' : rng),
    loop_invariant st ->
    main_loop fuel st r = Ok (st', r') ->
    loop_effect st st'.
Proof.
  induction fuel as [|fuel IH]; intros st st' r r' Hinv H; simpl in H;
    destruct (Z.ltb_spec (generation_ st) (max_generations (self_ st)))
      as [Hlt|Hge].
  - discriminate.
  - inv_M H. now apply loop_effect_refl.
  - apply M_bind_Ok in H as (st1 & r1 & Hbody & H).
    apply generation_body_effect in Hbody; [|apply Hinv].
    destruct (Z.ltb_spec 200 (stagnation_counter_ st1)) as [Hbreak|Hgo].
    + inv_M H. now apply loop_effect_break.
    + apply (loop_effect_step st st1 st'); auto.
      apply (IH _ _ _ _ (generation_preserves_invariant _ _ Hinv Hbody) H).
  - inv_M H. now apply loop_effect_refl.
Qed.

Lemma start_state (self : GeneticAlgorithm) (st : loop_state) (r r' : rng) :
  start self r = Ok (st, r') ->
  self_ st = self /\ generation_ st = 0 /\ stagnation_counter_ st = 0 /\
  loop_invariant st.
Proof.
  intros H. unfold start in H.
  apply M_bind_Ok in H as (population & r0 & Hinit & H). inv_run.
  simpl. do 3 (split; [reflexivity|]). split; [simpl|simpl; lia].
  match goal with
  | Hmax : max_key _ _ = Ok _ |- _ =>
      apply max_key_In in Hmax; rename Hmax into Hin
  end.
  apply initialize_population_loop_evaluated in Hinit; [|constructor].
  rewrite Forall_forall in Hinit. now apply Hinit.
Qed.

Lemma non_increasing_lookup (c : Z) (l : list (option Z)) :
  non_increasing_from c l ->
  forall g : nat,
    (1 <= g < length l)%nat ->
    exists a b : Z,
      l !! g = Some (Some a) /\ l !! (g - 1)%nat = Some (Some b) /\ a <= b.
Proof.
  induction 1 as [c|c c' l Hle Hl IH]; intros g Hg; simpl in Hg; [lia|].
  destruct g as [|[|g]]; [lia| |].
  - destruct Hl as [|c' c'' l Hle' Hl]; simpl in Hg; [lia|].
    exists c'', c'. repeat split. exact Hle'.
  - destruct (IH (S g)) as (a & b & Ha & Hb & Hab); [simpl; lia|].
    exists a, b. repeat split; [exact Ha| |exact Hab].
    simpl in Hb. rewrite Nat.sub_0_r in Hb. exact Hb.
Qed.

(** C1. In every run that returns, the best costs recorded by the run,
    one per generation, never increase from one generation to the next:
    the incumbent is the first member of every new population and is
    replaced only by an individual of strictly greater fitness, hence of
    strictly smaller cost. The run appends its records to the history the
    object already holds (none after construction). *)
Theorem C1_best_cost_never_increases (self self' : GeneticAlgorithm)
    (result : RunResult) (r r' : rng) :
  run self r = Ok ((result, self'), r') ->
  exists recorded : list (option Z),
    best_cost_history self' = best_cost_history self ++ recorded /\
    history_best_cost result = best_cost_history self' /\
    Z.of_nat (length recorded) = generations result /\
    forall g : nat,
      (1 <= g < length recorded)%nat ->
      exists a b : Z,
        recorded !! g = Some (Some a) /\
        recorded !! (g - 1)%nat = Some (Some b) /\
        a <= b.
Proof.
  intros H. unfold run in H.
  apply M_bind_Ok in H as (st0 & r0 & Hstart & H).
  apply M_bind_Ok in H as (st & r1 & Hloop & H).
  apply M_ret_Ok in H as [Heq _]. injection Heq as -> ->.
  apply start_state in Hstart as (Hself & Hgen & Hcnt & Hinv).
  apply main_loop_effect in Hloop; [|exact Hinv].
  destruct (le_best_cost_history _ _ Hloop) as (rec & c & Hh & _ & Hni & Hlen).
  exists rec. rewrite <- Hself. split; [exact Hh|].
  split; [reflexivity|]. split; [simpl; lia|].
  now apply (non_increasing_lookup c).
Qed.

End engine_loop.


(* ===================================================================== *)
(** * The loops never run out of fuel                                     *)
(* ===================================================================== *)

Section fuel.
Import instance_py genetic_algorithm_py.


Lemma defined_ret {A} (a : A) : defined (mret a).
Proof. intros r. discriminate. Qed.

Lemma defined_raise {A} (e : exn) : defined (raise e : M A).
Proof. intros r. discriminate. Qed.

Lemma defined_lift {A} (c : res A) : defined_res c -> defined (lift c).
Proof. intros Hc r. unfold lift. destruct c; congruence. Qed.

Lemma defined_bind {A B} (c : M A) (k : A -> M B) :
  defined c -> (forall a, defined (k a)) -> defined (c ≫= k).
Proof.
  intros Hc Hk r. unfold mbind, M_bind. specialize (Hc r).
  destruct (c r) as [[a r']| |]; [apply Hk|discriminate|congruence].
Qed.

Lemma defined_res_bind {A B} (c : res A) (k : A -> res B) :
  defined_res c -> (forall a, defined_res (k a)) -> defined_res (c ≫= k).
Proof.
  unfold defined_res. intros Hc Hk.
  destruct c as [a| |]; simpl; [apply Hk|discriminate|congruence].
Qed.

Lemma defined_res_Ok {A} (a : A) : defined_res (Ok a).
Proof. discriminate. Qed.

Lemma defined_res_Raise {A} (e : exn) : defined_res (Raise e : res A).
Proof. discriminate. Qed.

Lemma defined_next_raw : defined next_raw.
Proof. intros r. discriminate. Qed.

(** Decomposes a goal [defined c] along the structure of [c]. *)
Ltac defined_step :=
  match goal with
  | |- forall _, _ => intros
  | |- defined (_ ≫= _) => apply defined_bind
  | |- defined (mret _) => apply defined_ret
  | |- defined (raise _) => apply defined_raise
  | |- defined (lift _) => apply defined_lift
  | |- defined next_raw => apply defined_next_raw
  | |- defined_res (_ ≫= _) => apply defined_res_bind
  | |- defined_res (Ok _) => apply defined_res_Ok
  | |- defined_res (Raise _) => apply defined_res_Raise
  | |- defined (if ?b then _ else _) => destruct b
  | |- defined_res (if ?b then _ else _) => destruct b
  | |- defined (match ?x with _ => _ end) => destruct x
  | |- defined_res (match ?x with _ => _ end) => destruct x
  | |- defined (let '(_, _) := ?x in _) => destruct x
  | H : _ |- _ => solve [apply H]
  end.
Ltac defined_tac := repeat defined_step.

Lemma defined_random : defined random.
Proof. unfold random. defined_tac. Qed.

Lemma defined_randint (a b : Z) : defined (randint a b).
Proof. unfold randint. defined_tac. Qed.

Lemma defined_uniform (a b : Q) : defined (Py.uniform a b).
Proof. unfold Py.uniform. pose proof defined_random. defined_tac. Qed.

Lemma defined_sample_from {A} (k : nat) :
  forall pool : list A, defined (sample_from pool k).
Proof. induction k as [|k IH]; intros pool; simpl; defined_tac. Qed.

Lemma defined_sample {A} (population : list A) (k : Z) :
  defined (sample population k).
Proof. unfold sample. pose proof (@defined_sample_from A). defined_tac. Qed.

Lemma defined_maxZ (l : list Z) : defined_res (maxZ l).
Proof. unfold maxZ. defined_tac. Qed.

Lemma defined_gt (x y : option Q) : defined_res (gt x y).
Proof. unfold gt. defined_tac. Qed.

Lemma defined_max_from {A} (key : A -> option Q) (l : list A) :
  forall best : A, defined_res (max_from key best l).
Proof.
  induction l as [|x l IH]; intros best; simpl;
    pose proof defined_gt; defined_tac.
Qed.

Lemma defined_max_key {A} (key : A -> option Q) (l : list A) :
  defined_res (max_key key l).
Proof. unfold max_key. pose proof (@defined_max_from A). defined_tac. Qed.

Lemma defined_mean (l : list Q) : defined_res (mean l).
Proof. unfold mean. defined_tac. Qed.

Lemma defined_fitness (ind : Individual) (inst : Instance) :
  defined_res (fitness_py.fitness ind inst).
Proof. rewrite fitness_Ok. discriminate. Qed.

Lemma defined_sum_fitness (l : list Individual) :
  forall acc : Q, defined_res (Selection_py.sum_fitness acc l).
Proof. induction l as [|x l IH]; intros acc; simpl; defined_tac. Qed.

Lemma defined_spin (pick : Q) (l : list Individual) :
  forall cur : Q, defined_res (Selection_py.spin pick cur l).
Proof. induction l as [|x l IH]; intros cur; simpl; defined_tac. Qed.

Lemma defined_roulette_selection (population : list Individual) :
  defined (Selection_py.roulette_selection population).
Proof.
  unfold Selection_py.roulette_selection.
  pose proof defined_sum_fitness. pose proof defined_uniform.
  pose proof defined_spin. defined_tac.
Qed.

Lemma defined_tournament_selection (population : list Individual) (k : Z) :
  defined (Selection_py.tournament_selection population k).
Proof.
  unfold Selection_py.tournament_selection.
  pose proof (@defined_sample Individual).
  pose proof (@defined_max_key Individual). defined_tac.
Qed.

Lemma defined_select_parent (self : GeneticAlgorithm)
    (population : list Individual) :
  defined (select_parent self population).
Proof.
  unfold select_parent. pose proof defined_roulette_selection.
  pose proof defined_tournament_selection. defined_tac.
Qed.

Lemma defined_one_point (p1 p2 : list Z) : defined (crossover_py.one_point p1 p2).
Proof. unfold crossover_py.one_point. pose proof defined_randint. defined_tac. Qed.

Lemma defined_uniform_loop (pairs : list (Z * Z)) :
  forall c1 c2 : list Z, defined (crossover_py.uniform_loop pairs c1 c2).
Proof.
  induction pairs as [|[g1 g2] pairs IH]; intros c1 c2; simpl;
    pose proof defined_random; defined_tac.
Qed.

Lemma defined_crossover_uniform (p1 p2 : list Z) :
  defined (crossover_py.uniform p1 p2).
Proof. unfold crossover_py.uniform. pose proof defined_uniform_loop. defined_tac. Qed.

Lemma defined_call_crossover (self : GeneticAlgorithm) (c1 c2 : list Z) :
  defined (call_crossover self c1 c2).
Proof.
  unfold call_crossover. pose proof defined_one_point.
  pose proof defined_crossover_uniform. defined_tac.
Qed.

Lemma defined_get_item (h : mutation_py.heap) (l i : nat) :
  defined_res (mutation_py.get_item h l i).
Proof. unfold mutation_py.get_item. defined_tac. Qed.

Lemma defined_set_item (h : mutation_py.heap) (l i : nat) (v : Z) :
  defined_res (mutation_py.set_item h l i v).
Proof. unfold mutation_py.set_item. defined_tac. Qed.

Lemma defined_swap (c : nat) (h : mutation_py.heap) :
  defined (mutation_py.swap c h).
Proof.
  unfold mutation_py.swap, mutation_py.copy.
  pose proof (@defined_sample nat). pose proof defined_get_item.
  pose proof defined_set_item. defined_tac.
Qed.

Lemma defined_inversion (c : nat) (h : mutation_py.heap) :
  defined (mutation_py.inversion c h).
Proof.
  unfold mutation_py.inversion, mutation_py.copy.
  pose proof (@defined_sample nat). defined_tac.
Qed.

Lemma defined_random_reset (c : nat) (lo hi : Z) (h : mutation_py.heap) :
  defined (mutation_py.random_reset c lo hi h).
Proof.
  unfold mutation_py.random_reset, mutation_py.copy.
  pose proof defined_randint. pose proof defined_set_item. defined_tac.
Qed.

Lemma defined_on_value (op : nat -> mutation_py.heap -> M (nat * mutation_py.heap))
    (chrom : list Z) :
  (forall c h, defined (op c h)) -> defined (mutation_py.on_value op chrom).
Proof. intros Hop. unfold mutation_py.on_value. defined_tac. Qed.

Lemma defined_call_mutation (self : GeneticAlgorithm) (chrom : list Z) :
  defined (call_mutation self chrom).
Proof.
  unfold call_mutation. pose proof defined_maxZ.
  destruct (mutation_op self).
  - apply defined_on_value, defined_swap.
  - apply defined_on_value, defined_inversion.
  - defined_tac. apply defined_on_value. intros. apply defined_random_reset.
Qed.

Lemma defined_chromosome_of (p : option Individual) : defined (chromosome_of p).
Proof. unfold chromosome_of. defined_tac. Qed.

Lemma defined_breed (self : GeneticAlgorithm) (population : list Individual)
    (fuel : nat) :
  forall new_population : list Individual,
    pop_size self - Z.of_nat (length new_population) <= Z.of_nat fuel ->
    defined (breed self population fuel new_population).
Proof.
  pose proof defined_select_parent. pose proof defined_random.
  pose proof defined_chromosome_of. pose proof defined_call_crossover.
  pose proof defined_call_mutation. pose proof defined_fitness.
  induction fuel as [|fuel IH]; intros new_population Hfuel; simpl;
    destruct (Z.ltb_spec (Z.of_nat (length new_population)) (pop_size self));
    try lia; try apply defined_ret.
  defined_tac. apply IH. rewrite length_app. simpl. lia.
Qed.

Lemma defined_fitness_values (l : list Individual) :
  defined_res (fitness_values l).
Proof. induction l as [|x l IH]; simpl; defined_tac. Qed.

Lemma defined_diversity_inner (population : list Individual) (i : nat)
    (js : list nat) :
  forall differences, defined_res (diversity_inner population i js differences).
Proof. induction js as [|j js IH]; intros differences; simpl; defined_tac. Qed.

Lemma defined_diversity_outer (population : list Individual) (n : nat)
    (ixs : list nat) :
  forall differences, defined_res (diversity_outer population n ixs differences).
Proof.
  pose proof defined_diversity_inner.
  induction ixs as [|i ixs IH]; intros differences; simpl; defined_tac.
Qed.

Lemma defined_calculate_diversity (population : list Individual) :
  defined_res (calculate_diversity population).
Proof.
  unfold calculate_diversity. pose proof defined_diversity_outer.
  pose proof defined_mean. defined_tac.
Qed.

Lemma defined_generation_body (st : loop_state) : defined (generation_body st).
Proof.
  unfold generation_body.
  pose proof (@defined_max_key Individual). pose proof defined_gt.
  pose proof defined_fitness_values. pose proof defined_mean.
  pose proof defined_calculate_diversity.
  apply defined_bind; [apply defined_breed; simpl; lia|].
  defined_tac.
Qed.

Lemma generation_body_counters (st st' : loop_state) (r r' : rng) :
  generation_body st r = Ok (st', r') ->
  generation_ st' = generation_ st + 1 /\
  max_generations (self_ st') = max_generations (self_ st).
Proof.
  intros H. unfold generation_body in H.
  apply M_bind_Ok in H as (new_population & r0 & _ & H). inv_run.
  split; reflexivity.
Qed.

Lemma defined_main_loop (fuel : nat) :
  forall st : loop_state,
    max_generations (self_ st) - generation_ st <= Z.of_nat fuel ->
    defined (main_loop fuel st).
Proof.
  induction fuel as [|fuel IH]; intros st Hfuel r; simpl;
    destruct (Z.ltb_spec (generation_ st) (max_generations (self_ st)));
    try lia; try discriminate.
  unfold mbind, M_bind.
  destruct (generation_body st r) as [[st1 r1]| |] eqn:Hbody.
  - apply generation_body_counters in Hbody as [Hg Hm].
    destruct (200 <? stagnation_counter_ st1); [discriminate|].
    apply IH. lia.
  - discriminate.
  - now apply defined_generation_body in Hbody.
Qed.

Lemma defined_random_chromosome (self : GeneticAlgorithm) (n : nat) :
  defined (random_chromosome self n).
Proof.
  pose proof defined_maxZ. pose proof defined_randint.
  induction n as [|n IH]; simpl; defined_tac.
Qed.

Lemma defined_initialize_population_loop (self : GeneticAlgorithm) (n : nat) :
  forall population, defined (initialize_population_loop self n population).
Proof.
  pose proof defined_random_chromosome. pose proof defined_fitness.
  induction n as [|n IH]; intros population; simpl; defined_tac.
Qed.

Lemma defined_start (self : GeneticAlgorithm) : defined (start self).
Proof.
  unfold start, initialize_population.
  pose proof defined_initialize_population_loop.
  pose proof (@defined_max_key Individual). defined_tac.
Qed.

(** The fuel of the two loops is never exhausted: every run returns a
    result or raises a Python exception. *)
Lemma run_never_out_of_fuel (self : GeneticAlgorithm) (r : rng) :
  run self r <> OutOfFuel.
Proof.
  unfold run, mbind, M_bind.
  destruct (start self r) as [[st0 r0]| |] eqn:Hstart.
  - apply start_state in Hstart as (Hself & Hgen & _).
    destruct (main_loop _ st0 r0) as [[st r1]| |] eqn:Hloop;
      try discriminate.
    apply defined_main_loop in Hloop; [contradiction|].
    rewrite Hself, Hgen. lia.
  - discriminate.
  - now apply defined_start in Hstart.
Qed.

End fuel.

(* ===================================================================== *)
(** * Tournament selection                                                *)
(* ===================================================================== *)

Section tournament_claims.
Import instance_py.

Lemma tournament_sample_too_large (population : list Individual) (k : Z)
    (r : rng) :
  Z.of_nat (length population) < k ->
  Selection_py.tournament_selection population k r = Raise ValueError.
Proof.
  intros Hk. unfold Selection_py.tournament_selection.
  apply M_bind_Raise. apply sample_too_large. now right.
Qed.

(** C4 at a population of two individuals. With k = 3 the tournament of
    core_functions/Selection.py, the one the engine calls, raises
    [ValueError]: [random.sample] draws without replacement and cannot
    draw 3 out of 2. With k = 2 it always returns the fitter individual,
    since both are in every sample; a draw with replacement can take the
    weaker one twice, as the tournament of Algorithms/Tournament.py does
    on a source whose raw numbers are all 0. *)
Theorem C4_tournament_without_replacement (r : rng) :
  Selection_py.tournament_selection [ind_weak; ind_strong] 3 r
    = Raise ValueError /\
  (exists r' : rng,
     Selection_py.tournament_selection [ind_weak; ind_strong] 2 r
       = Ok (ind_strong, r')) /\
  Tournament_py.tournament_selection [ind_weak; ind_strong] [1 # 2; 1]%Q 2
    (rng_const 0) = Ok (ind_weak, advance (advance (rng_const 0))).
Proof.
  split; [|split].
  - apply tournament_sample_too_large. simpl. lia.
  - destruct (sample_Ok [ind_weak; ind_strong] 2 r)
      as (l & r' & Hrun & Hlen & Hsub); [simpl; lia|].
    exists r'. unfold Selection_py.tournament_selection.
    rewrite (M_bind_step _ _ _ _ _ Hrun).
    apply submseteq_length_Permutation in Hsub; [|simpl; lia].
    symmetry in Hsub. apply Permutation_length_2_inv in Hsub as [->| ->];
      reflexivity.
  - reflexivity.
Qed.

End tournament_claims.

(* ===================================================================== *)
(** * Tournament selection with replacement (Algorithms/Tournament.py)    *)
(* ===================================================================== *)

Section tournament_with_replacement.

Lemma winner_first_max (scores : list Q) (ixs : list nat) :
  forall sel : nat, first_max scores (sel :: ixs) (winner scores sel ixs).
Proof.
  induction ixs as [|ix rest IH]; intros sel; simpl.
  - exists 0%nat. split; [reflexivity|]. split.
    + intros [|q] i Hq; [|discriminate]. injection Hq as ->. apply Qle_refl.
    + intros q i Hq. lia.
  - destruct (Qle_bool (score scores ix) (score scores sel)) eqn:E; simpl.
    + apply Qle_bool_iff in E.
      destruct (IH sel) as (p & Hp & Hall & Hbefore).
      set (w := winner scores sel rest) in *.
      destruct p as [|p].
      * injection Hp as Hw. exists 0%nat. split; [simpl; congruence|].
        split; [|intros q i Hq; lia].
        intros [|[|q]] i Hq; simpl in Hq.
        -- apply (Hall 0%nat). exact Hq.
        -- injection Hq as <-. now rewrite <- Hw.
        -- apply (Hall (S q)). exact Hq.
      * assert (Hsel : (score scores sel < score scores w)%Q)
          by (apply (Hbefore 0%nat); [lia|reflexivity]).
        exists (S (S p)). split; [exact Hp|]. split.
        -- intros [|[|q]] i Hq; simpl in Hq.
           ++ apply (Hall 0%nat). exact Hq.
           ++ injection Hq as <-. apply Qlt_le_weak.
              now apply (Qle_lt_trans _ (score scores sel)).
           ++ apply (Hall (S q)). exact Hq.
        -- intros [|[|q]] i Hlt Hq; simpl in Hq.
           ++ injection Hq as <-. exact Hsel.
           ++ injection Hq as <-. now apply (Qle_lt_trans _ (score scores sel)).
           ++ apply (Hbefore (S q)); [lia|exact Hq].
    + apply Qle_bool_false in E.
      destruct (IH ix) as (p & Hp & Hall & Hbefore).
      set (w := winner scores ix rest) in *.
      assert (Hix : (score scores ix <= score scores w)%Q)
        by (apply (Hall 0%nat); reflexivity).
      exists (S p). split; [exact Hp|]. split.
      * intros [|q] i Hq; simpl in Hq.
        -- injection Hq as <-. apply Qlt_le_weak.
           now apply (Qlt_le_trans _ (score scores ix)).
        -- apply (Hall q). exact Hq.
      * intros [|q] i Hlt Hq; simpl in Hq.
        -- injection Hq as <-. now apply (Qlt_le_trans _ (score scores ix)).
        -- apply (Hbefore q); [lia|exact Hq].
Qed.

Lemma drawn_indices_S (r : rng) (n k : nat) :
  drawn_indices r n (S k) =
  Z.to_nat (Z.of_N (draws r (pos r)) mod Z.of_nat n) ::
  drawn_indices (advance r) n k.
Proof.
  unfold drawn_indices. simpl seq. rewrite fmap_cons, Nat.add_0_r. f_equal.
  rewrite <- fmap_S_seq, <- list_fmap_compose. apply list_fmap_ext.
  intros j i _. simpl. now rewrite Nat.add_succ_r.
Qed.

Lemma skip_0 (r : rng) : skip 0 r = r.
Proof. destruct r as [d p]. unfold skip. simpl. now rewrite Nat.add_0_r. Qed.

Lemma skip_advance (k : nat) (r : rng) : skip k (advance r) = skip (S k) r.
Proof. unfold skip, advance. simpl. f_equal. lia. Qed.

Lemma score_at_Ok (scores : list Q) (i : nat) :
  (i < length scores)%nat ->
  Tournament_py.score_at scores (Z.of_nat i) = Ok (score scores i).
Proof.
  intros Hi. unfold Tournament_py.score_at, score. rewrite Nat2Z.id.
  destruct (lookup_lt_is_Some_2 scores i Hi) as [x Hx]. now rewrite Hx.
Qed.

Lemma randint_index (n : nat) (r : rng) :
  (0 < n)%nat ->
  exists i : nat,
    i = Z.to_nat (Z.of_N (draws r (pos r)) mod Z.of_nat n) /\
    (i < n)%nat /\
    randint 0 (Z.of_nat n - 1) r = Ok (Z.of_nat i, advance r).
Proof.
  intros Hn. eexists. split; [reflexivity|].
  pose proof (Z.mod_pos_bound (Z.of_N (draws r (pos r))) (Z.of_nat n)) as Hb.
  split; [lia|]. rewrite randint_Ok by lia. do 2 f_equal.
  replace (Z.of_nat n - 1 - 0 + 1) with (Z.of_nat n) by lia. lia.
Qed.

Lemma challenge_winner {A} (population : list A) (scores : list Q)
    (rounds : nat) :
  (0 < length population)%nat ->
  (length population <= length scores)%nat ->
  forall (sel : nat) (r : rng),
    (sel < length population)%nat ->
    Tournament_py.challenge population scores rounds (Z.of_nat sel) r =
    Ok (Z.of_nat
          (winner scores sel (drawn_indices r (length population) rounds)),
        skip rounds r).
Proof.
  intros Hn Hscores.
  induction rounds as [|rounds IH]; intros sel r Hsel.
  - simpl. now rewrite skip_0.
  - rewrite drawn_indices_S. cbn [Tournament_py.challenge winner].
    destruct (randint_index (length population) r Hn) as (i & <- & Hi & Hrun).
    rewrite (M_bind_step _ _ _ _ _ Hrun).
    rewrite (M_bind_step _ _ (advance r) (advance r) (score scores i))
      by (unfold lift; rewrite score_at_Ok by lia; reflexivity).
    rewrite (M_bind_step _ _ (advance r) (advance r) (score scores sel))
      by (unfold lift; rewrite score_at_Ok by lia; reflexivity).
    rewrite <- skip_advance.
    destruct (negb (Qle_bool (score scores i) (score scores sel)));
      now apply IH.
Qed.

(** What the spec says of tournament selection holds of the tournament of
    Algorithms/Tournament.py: on a non-empty population with a score per
    individual and k >= 1 it reads [k] indices from the source, each on
    its own (so with replacement), and returns the individual at the
    first index of greatest score. *)
Lemma tournament_with_replacement {A} (population : list A)
    (scores : list Q) (k : Z) (r : rng) :
  population <> [] ->
  (length population <= length scores)%nat ->
  1 <= k ->
  exists (w : nat) (x : A),
    Tournament_py.tournament_selection population scores k r =
      Ok (x, skip (Z.to_nat k) r) /\
    first_max scores (drawn_indices r (length population) (Z.to_nat k)) w /\
    population !! w = Some x.
Proof.
  intros Hne Hscores Hk.
  assert (Hn : (0 < length population)%nat)
    by (destruct population; [congruence|simpl; lia]).
  replace (Z.to_nat k) with (S (Z.to_nat (k - 1))) by lia.
  rewrite drawn_indices_S, <- skip_advance.
  destruct (randint_index (length population) r Hn) as (i & <- & Hi & Hrun).
  set (w := winner scores i
              (drawn_indices (advance r) (length population)
                 (Z.to_nat (k - 1)))).
  assert (Hw : (w < length population)%nat).
  { destruct (winner_first_max scores
                (drawn_indices (advance r) (length population)
                   (Z.to_nat (k - 1))) i) as (p & Hp & _).
    fold w in Hp. destruct p as [|p]; [simpl in Hp; congruence|].
    simpl in Hp. unfold drawn_indices in Hp.
    apply list_lookup_fmap_Some in Hp as (j & Hwj & _). rewrite Hwj.
    pose proof (Z.mod_pos_bound
                  (Z.of_N (draws (advance r) (pos (advance r) + j)))
                  (Z.of_nat (length population))). lia. }
  destruct (lookup_lt_is_Some_2 population w Hw) as [x Hx].
  exists w, x. split; [|split; [apply winner_first_max|exact Hx]].
  unfold Tournament_py.tournament_selection.
  rewrite (M_bind_step _ _ _ _ _ Hrun).
  rewrite (M_bind_step _ _ _ _ _
             (challenge_winner population scores _ Hn Hscores i (advance r) Hi)).
  fold w. now rewrite Nat2Z.id, Hx.
Qed.

(** Every sequence of indices of the population, repeats included, is
    drawn from some source. *)
Lemma drawn_indices_cover (n : nat) (ixs : list nat) :
  Forall (fun i => (i < n)%nat) ixs ->
  drawn_indices (rng_list (map N.of_nat ixs)) n (length ixs) = ixs.
Proof.
  intros Hixs. unfold drawn_indices, rng_list. simpl.
  apply list_eq. intros j. rewrite list_lookup_fmap.
  destruct (ixs !! j) as [i|] eqn:Hj.
  - rewrite lookup_seq_lt by (eapply lookup_lt_Some; eauto). simpl.
    assert (Hnth : nth j (map N.of_nat ixs) 0%N = N.of_nat i).
    { change 0%N with (N.of_nat 0). rewrite map_nth. f_equal.
      now apply nth_lookup_Some. }
    rewrite Forall_lookup in Hixs. specialize (Hixs j i Hj).
    rewrite Hnth, nat_N_Z, Z.mod_small by lia. now rewrite Nat2Z.id.
  - apply lookup_ge_None in Hj. rewrite lookup_seq_ge by lia. reflexivity.
Qed.

(** With k = 1 both tournaments return the individual at the one index
    drawn, whatever the scores: a uniform choice. *)
Lemma tournament_k_1 {A} (population : list A) (scores : list Q) (r : rng) :
  population <> [] ->
  exists x : A,
    population !! Z.to_nat (Z.of_N (draws r (pos r))
                            mod Z.of_nat (length population)) = Some x /\
    Tournament_py.tournament_selection population scores 1 r =
      Ok (x, advance r).
Proof.
  intros Hne.
  assert (Hn : (0 < length population)%nat)
    by (destruct population; [congruence|simpl; lia]).
  destruct (randint_index (length population) r Hn) as (i & <- & Hi & Hrun).
  destruct (lookup_lt_is_Some_2 population i Hi) as [x Hx].
  exists x. split; [exact Hx|].
  unfold Tournament_py.tournament_selection.
  rewrite (M_bind_step _ _ _ _ _ Hrun). simpl.
  unfold mbind, M_bind, mret, M_ret. now rewrite Nat2Z.id, Hx.
Qed.

Lemma tournament_sample_k_1 (population : list instance_py.Individual)
    (r : rng) :
  population <> [] ->
  exists x : instance_py.Individual,
    population !! N.to_nat (draws r (pos r) mod N.of_nat (length population))
      = Some x /\
    Selection_py.tournament_selection population 1 r = Ok (x, advance r).
Proof.
  intros Hne.
  assert (Hn : (0 < length population)%nat)
    by (destruct population; [congruence|simpl; lia]).
  pose proof (raw_index_lt (draws r (pos r)) (length population) Hn) as Hi.
  destruct (lookup_lt_is_Some_2 population _ Hi) as [x Hx].
  exists x. split; [exact Hx|].
  unfold Selection_py.tournament_selection, sample.
  destruct (Z.ltb_spec (Z.of_nat (length population)) 1) as [?|_]; [lia|].
  simpl. unfold mbind, M_bind. simpl. now rewrite Hx.
Qed.

(** On a population of one, k = 1 returns that individual. *)
Lemma tournament_of_one {A} (x : A) (s : Q) (r : rng) :
  Tournament_py.tournament_selection [x] [s] 1 r = Ok (x, advance r) /\
  Selection_py.tournament_selection
    [{| instance_py.chromosome := []; instance_py.cost := None;
        instance_py.fitness := Some s |}] 1 r =
  Ok ({| instance_py.chromosome := []; instance_py.cost := None;
         instance_py.fitness := Some s |}, advance r).
Proof.
  split.
  - unfold Tournament_py.tournament_selection.
    rewrite (M_bind_step _ _ _ _ _ (randint_Ok 0 _ r (Z.le_refl 0))).
    simpl. now rewrite Z.mod_1_r.
  - unfold Selection_py.tournament_selection, sample. simpl.
    unfold mbind, M_bind. simpl. now rewrite N.mod_1_r.
Qed.

End tournament_with_replacement.

(* ===================================================================== *)
(** * A valid configuration runs to the end                               *)
(* ===================================================================== *)

Section engine_returns.
Import instance_py genetic_algorithm_py.

Variable self : GeneticAlgorithm.
Hypothesis Hvalid : valid_configuration self.

Local Abbreviation genes := (Z.to_nat (size (instance self))).

Lemma member_fitness (chrom : list Z) :
  length chrom = genes ->
  exists (f : Q) (ind : Individual),
    fitness_py.fitness (new_Individual chrom) (instance self) = Ok (f, ind) /\
    member_of self ind.
Proof.
  intros Hlen. eexists _, _. split; [apply fitness_Ok|].
  split; [|exact Hlen].
  eexists. split; [apply cost_nonneg|]. split; reflexivity.
Qed.

Lemma random_chromosome_Ok (n : nat) (r : rng) :
  exists (chrom : list Z) (r' : rng),
    random_chromosome self n r = Ok (chrom, r') /\ length chrom = n.
Proof.
  destruct Hvalid as (_ & _ & (hi & Hmax & Hhi) & _).
  revert r. induction n as [|n IH]; intros r; simpl.
  - exists [], r. split; reflexivity.
  - rewrite Hmax.
    rewrite (M_bind_step _ _ r r hi) by reflexivity.
    rewrite (M_bind_step _ _ _ _ _ (randint_Ok 0 hi r Hhi)).
    destruct (IH (advance r)) as (chrom & r' & Hrun & Hlen).
    rewrite (M_bind_step _ _ _ _ _ Hrun).
    eexists _, r'. split; [reflexivity|]. simpl. now rewrite Hlen.
Qed.

Lemma initialize_population_loop_Ok (n : nat) :
  forall (population : list Individual) (r : rng),
    exists (new : list Individual) (r' : rng),
      initialize_population_loop self n population r =
        Ok (population ++ new, r') /\
      length new = n /\ Forall (member_of self) new.
Proof.
  induction n as [|n IH]; intros population r; simpl.
  - exists [], r. rewrite app_nil_r. repeat split. constructor.
  - destruct (random_chromosome_Ok genes r) as (chrom & r1 & Hrun & Hlen).
    rewrite (M_bind_step _ _ _ _ _ Hrun).
    destruct (member_fitness chrom Hlen) as (f & ind & Hfit & Hind).
    rewrite (M_bind_step _ _ r1 r1 (f, ind))
      by (unfold lift; now rewrite Hfit).
    destruct (IH (population ++ [ind]) r1) as (new & r' & Hloop & Hn & Hall).
    exists (ind :: new), r'. rewrite Hloop, <- app_assoc.
    repeat split; [simpl; lia|now constructor].
Qed.

Lemma max_from_Ok {A} (key : A -> option Q) (l : list A) :
  forall best : A,
    is_Some (key best) -> Forall (fun x => is_Some (key x)) l ->
    exists x : A, max_from key best l = Ok x /\ (x = best \/ x ∈ l).
Proof.
  induction l as [|y l IH]; intros best Hbest Hl; simpl.
  - exists best. split; [reflexivity|now left].
  - apply Forall_cons in Hl as [Hy Hl].
    destruct Hbest as [fb Hfb], Hy as [fy Hfy]. rewrite Hfy, Hfb. simpl.
    destruct (negb (Qle_bool fy fb)).
    + destruct (IH y) as (x & Hrun & Hx); [eauto|exact Hl|].
      exists x. split; [exact Hrun|]. right.
      destruct Hx as [->|Hx]; now constructor.
    + destruct (IH best) as (x & Hrun & Hx); [eauto|exact Hl|].
      exists x. split; [exact Hrun|].
      destruct Hx as [->|Hx]; [now left|right; now constructor].
Qed.

Lemma max_key_Ok {A} (key : A -> option Q) (l : list A) :
  l <> [] -> Forall (fun x => is_Some (key x)) l ->
  exists x : A, max_key key l = Ok x /\ x ∈ l.
Proof.
  destruct l as [|y l]; [congruence|]. intros _ Hl.
  apply Forall_cons in Hl as [Hy Hl].
  destruct (max_from_Ok key l y Hy Hl) as (x & Hrun & Hx).
  exists x. split; [exact Hrun|].
  destruct Hx as [->|Hx]; now constructor.
Qed.

Lemma member_has_fitness (l : list Individual) :
  Forall (member_of self) l -> Forall (fun x => is_Some (fitness x)) l.
Proof.
  intros H. eapply Forall_impl; [exact H|].
  intros ind [(c & _ & _ & Hf) _]. eauto.
Qed.

Lemma member_fitness_pos (ind : Individual) :
  member_of self ind -> exists f, fitness ind = Some f /\ (0 < f)%Q.
Proof.
  intros [(c & Hc & _ & Hf) _]. exists (fitness_of_cost c).
  split; [exact Hf|now apply fitness_of_cost_pos].
Qed.

Lemma select_parent_Ok (population : list Individual) (r : rng) :
  Forall (member_of self) population ->
  Z.of_nat (length population) = pop_size self ->
  exists (p : Individual) (r' : rng),
    select_parent self population r = Ok (Some p, r') /\ member_of self p.
Proof.
  intros Hpop Hlen. destruct Hvalid as (Hsize & _ & _ & Hsel).
  unfold select_parent.
  destruct (String.eqb_spec (selection_op self) "roulette") as [Hr|Hr].
  - destruct (roulette_selection_nonneg population r)
      as (pick & ind & Hrun & _ & _ & pre & post & Heq & _).
    + eapply Forall_impl; [exact Hpop|]. intros x Hx.
      destruct (member_fitness_pos x Hx) as (f & Hf & Hpos).
      exists f. split; [exact Hf|now apply Qlt_le_weak].
    + destruct population as [|x population]; [simpl in Hlen; lia|].
      apply Exists_cons_hd. apply member_fitness_pos.
      now apply Forall_cons in Hpop as [Hx _].
    + exists ind, (advance r). split; [exact Hrun|].
      rewrite Forall_forall in Hpop. apply Hpop. rewrite Heq.
      apply elem_of_app. right. constructor.
  - destruct Hsel as [?|Hk]; [contradiction|].
    destruct (sample_Ok population (tournament_k self) r)
      as (l & r' & Hrun & Hl & Hsub); [lia|].
    destruct (max_key_Ok fitness l) as (x & Hmax & Hx).
    + intros ->. simpl in Hl. lia.
    + apply member_has_fitness. rewrite Forall_forall in *.
      intros y Hy. apply Hpop. eapply elem_of_submseteq; eauto.
    + exists x, r'. split.
      * unfold Selection_py.tournament_selection.
        rewrite (M_bind_step _ _ r r' x); [reflexivity|].
        rewrite (M_bind_step _ _ _ _ _ Hrun). unfold lift. now rewrite Hmax.
      * rewrite Forall_forall in Hpop. apply Hpop.
        eapply elem_of_submseteq; eauto.
Qed.

Lemma genes_ge_2 : (2 <= genes)%nat.
Proof. destruct Hvalid as (_ & Hsize & _). lia. Qed.

Lemma one_point_Ok (p1 p2 : list Z) (r : rng) :
  length p1 = length p2 -> (2 <= length p1)%nat ->
  exists (c1 c2 : list Z) (r' : rng),
    crossover_py.one_point p1 p2 r = Ok ((c1, c2), r') /\
    length c1 = length p1 /\ length c2 = length p1.
Proof.
  intros Hlen H2. unfold crossover_py.one_point.
  destruct (Nat.eqb_spec (length p1) (length p2)) as [_|?]; [|contradiction].
  cbn [negb].
  assert (H1 : 1 <= Z.of_nat (length p1) - 1) by lia.
  pose proof (randint_Ok 1 _ r H1) as Hrun.
  pose proof (randint_range _ _ _ _ _ Hrun) as Hpoint.
  rewrite (M_bind_step _ _ _ _ _ Hrun).
  set (point := 1 + Z.of_N (draws r (pos r)) mod
                      (Z.of_nat (length p1) - 1 - 1 + 1)) in *.
  eexists _, _, _. split; [reflexivity|].
  unfold slice_to, slice_from.
  destruct (Z.leb_spec 0 point) as [_|?]; [|lia].
  rewrite !length_app, !length_take, !length_drop. lia.
Qed.

Lemma call_crossover_Ok (p1 p2 : list Z) (r : rng) :
  length p1 = genes -> length p2 = genes ->
  exists (c1 c2 : list Z) (r' : rng),
    call_crossover self p1 p2 r = Ok ((c1, c2), r') /\
    length c1 = genes /\ length c2 = genes.
Proof.
  intros H1 H2. pose proof genes_ge_2 as Hg. unfold call_crossover.
  destruct (crossover_op self).
  - destruct (one_point_Ok p1 p2 r) as (c1 & c2 & r' & Hrun & Hl1 & Hl2);
      [congruence|lia|].
    exists c1, c2, r'. split; [exact Hrun|]. split; congruence.
  - destruct (uniform_loop_spec p1 p2 [] [] r)
      as (c1 & c2 & r' & Hrun & Hl1 & Hl2 & _); [congruence|].
    exists c1, c2, r'. unfold crossover_py.uniform.
    destruct (Nat.eqb_spec (length p1) (length p2)) as [_|?]; [|congruence].
    split; [exact Hrun|]. split; congruence.
Qed.

Lemma on_value_Ok (op : nat -> list (list Z) -> M (nat * list (list Z)))
    (chrom new : list Z) (r r' : rng) :
  op 0%nat [chrom] r = Ok ((1%nat, [chrom] ++ [new]), r') ->
  mutation_py.on_value op chrom r = Ok (new, r').
Proof.
  intros H. unfold mutation_py.on_value.
  rewrite (M_bind_step _ _ _ _ _ H). reflexivity.
Qed.

Lemma call_mutation_Ok (chrom : list Z) (r : rng) :
  length chrom = genes ->
  exists (new : list Z) (r' : rng),
    call_mutation self chrom r = Ok (new, r') /\ length new = genes.
Proof.
  intros Hlen. pose proof genes_ge_2 as Hg. unfold call_mutation.
  assert (Hobj : mutation_py.obj [chrom] 0 = chrom) by reflexivity.
  destruct (mutation_op self).
  - destruct (swap_spec [chrom] 0%nat r)
      as (i & j & x & y & r' & Hrun & _); [rewrite Hobj; lia|].
    eexists _, r'. split; [apply on_value_Ok; exact Hrun|].
    rewrite !length_insert, Hobj. exact Hlen.
  - destruct (inversion_spec [chrom] 0%nat r)
      as (i & j & r' & Hrun & Hij & Hj); [rewrite Hobj; lia|].
    eexists _, r'. split; [apply on_value_Ok; exact Hrun|].
    rewrite (Permutation_length
               (reverse_slice_Permutation (mutation_py.obj [chrom] 0) i j
                  (Nat.lt_le_incl _ _ Hij))).
    rewrite Hobj. exact Hlen.
  - destruct Hvalid as (_ & _ & (hi & Hmax & Hhi) & _). rewrite Hmax.
    rewrite (M_bind_step _ _ r r hi) by reflexivity.
    destruct (random_reset_spec [chrom] 0%nat 0 hi r)
      as (i & v & r' & Hrun & _); [rewrite Hobj; lia|exact Hhi|].
    eexists _, r'. split; [apply on_value_Ok; exact Hrun|].
    rewrite length_insert, Hobj. exact Hlen.
Qed.

Lemma crossover_stage_Ok (p1 p2 : Individual) (u : Q) (r : rng) :
  member_of self p1 -> member_of self p2 ->
  exists (c1 c2 : list Z) (r' : rng),
    (if Qltb u (crossover_rate self)
     then c1 ← chromosome_of (Some p1);
          c2 ← chromosome_of (Some p2);
          call_crossover self c1 c2
     else c1 ← chromosome_of (Some p1);
          c2 ← chromosome_of (Some p2);
          mret (c1, c2)) r = Ok ((c1, c2), r') /\
    length c1 = genes /\ length c2 = genes.
Proof.
  intros [_ H1] [_ H2].
  destruct (Qltb u (crossover_rate self)).
  - destruct (call_crossover_Ok _ _ r H1 H2) as (c1 & c2 & r' & Hrun & Hl).
    exists c1, c2, r'. split; [exact Hrun|exact Hl].
  - exists (chromosome p1), (chromosome p2), r. repeat split; assumption.
Qed.

Lemma mutation_stage_Ok (chrom : list Z) (u : Q) (r : rng) :
  length chrom = genes ->
  exists (new : list Z) (r' : rng),
    (if Qltb u (mutation_rate self)
     then call_mutation self chrom else mret chrom) r = Ok (new, r') /\
    length new = genes.
Proof.
  intros Hlen. destruct (Qltb u (mutation_rate self)).
  - now apply call_mutation_Ok.
  - exists chrom, r. split; [reflexivity|exact Hlen].
Qed.

Lemma breed_Ok (population : list Individual) (fuel : nat) :
  Forall (member_of self) population ->
  Z.of_nat (length population) = pop_size self ->
  forall (new_population : list Individual) (r : rng),
    pop_size self - Z.of_nat (length new_population) <= Z.of_nat fuel ->
    Forall (member_of self) new_population ->
    exists (out : list Individual) (r' : rng),
      breed self population fuel new_population r = Ok (out, r') /\
      Forall (member_of self) out /\
      pop_size self <= Z.of_nat (length out).
Proof.
  intros Hpop Hlen.
  induction fuel as [|fuel IH]; intros new_population r Hfuel Hnew;
    cbn [breed];
    destruct (Z.ltb_spec (Z.of_nat (length new_population)) (pop_size self))
      as [Hlt|Hge]; try lia.
  - exists new_population, r. repeat split; [exact Hnew|lia].
  - destruct (select_parent_Ok population r Hpop Hlen)
      as (p1 & r1 & Hs1 & Hm1).
    rewrite (M_bind_step _ _ _ _ _ Hs1).
    destruct (select_parent_Ok population r1 Hpop Hlen)
      as (p2 & r2 & Hs2 & Hm2).
    rewrite (M_bind_step _ _ _ _ _ Hs2).
    rewrite (M_bind_step _ _ _ _ _ (random_Ok r2)).
    destruct (crossover_stage_Ok p1 p2
                (Z.of_N (draws r2 (pos r2) mod 2 ^ 53) # 2 ^ 53)
                (advance r2) Hm1 Hm2)
      as (c1 & c2 & r3 & Hx & Hl1 & Hl2).
    rewrite (M_bind_step _ _ _ _ _ Hx).
    rewrite (M_bind_step _ _ _ _ _ (random_Ok r3)).
    destruct (mutation_stage_Ok c1
                (Z.of_N (draws r3 (pos r3) mod 2 ^ 53) # 2 ^ 53)
                (advance r3) Hl1)
      as (m1 & r4 & Hmut1 & Hlm1).
    rewrite (M_bind_step _ _ _ _ _ Hmut1).
    rewrite (M_bind_step _ _ _ _ _ (random_Ok r4)).
    destruct (mutation_stage_Ok c2
                (Z.of_N (draws r4 (pos r4) mod 2 ^ 53) # 2 ^ 53)
                (advance r4) Hl2)
      as (m2 & r5 & Hmut2 & Hlm2).
    rewrite (M_bind_step _ _ _ _ _ Hmut2).
    destruct (member_fitness m1 Hlm1) as (f1 & child1 & Hfit1 & Hch1).
    rewrite (M_bind_step _ _ r5 r5 (f1, child1))
      by (unfold lift; now rewrite Hfit1).
    destruct (member_fitness m2 Hlm2) as (f2 & child2 & Hfit2 & Hch2).
    rewrite (M_bind_step _ _ r5 r5 (f2, child2))
      by (unfold lift; now rewrite Hfit2).
    apply IH.
    + rewrite length_app. simpl. lia.
    + apply Forall_app. split; [exact Hnew|].
      constructor; [exact Hch1|]. constructor; [exact Hch2|constructor].
  - exists new_population, r. repeat split; [exact Hnew|lia].
Qed.

Lemma diversity_inner_Ok (population : list Individual) (i : nat)
    (js : list nat) :
  Forall (member_of self) population ->
  (i < length population)%nat ->
  Forall (fun j => (j < length population)%nat) js ->
  forall differences : list Q,
    exists differences' : list Q,
      diversity_inner population i js differences = Ok differences' /\
      (differences <> [] -> differences' <> []).
Proof.
  intros Hpop Hi Hjs. pose proof genes_ge_2 as Hg.
  induction Hjs as [|j js Hj _ IH]; intros differences; simpl.
  - eauto.
  - destruct (lookup_lt_is_Some_2 population i Hi) as [pi Hpi].
    destruct (lookup_lt_is_Some_2 population j Hj) as [pj Hpj].
    rewrite Hpi, Hpj. rewrite Forall_lookup in Hpop.
    destruct (Hpop i pi Hpi) as [_ Hlen]. rewrite Hlen.
    destruct (Nat.eqb_spec genes 0) as [?|_]; [lia|].
    edestruct IH as (d' & Hrun & Hne). exists d'. split; [exact Hrun|].
    intros _. apply Hne. now destruct differences.
Qed.

Lemma diversity_outer_Ok (population : list Individual) (sample_size : nat)
    (ixs : list nat) :
  Forall (member_of self) population ->
  Forall (fun i => (i < length population)%nat) ixs ->
  forall differences : list Q,
    exists differences' : list Q,
      diversity_outer population sample_size ixs differences = Ok differences'.
Proof.
  intros Hpop Hixs.
  induction Hixs as [|i ixs Hi _ IH]; intros differences; simpl.
  - eauto.
  - destruct (diversity_inner_Ok population i
                (range (i + 1) (Nat.min (i + sample_size) (length population)))
                Hpop Hi) with (differences := differences)
      as (d' & Hrun & _).
    + apply Forall_forall. intros j Hj. unfold range in Hj.
      apply elem_of_seq in Hj. lia.
    + rewrite Hrun. simpl. apply IH.
Qed.

Lemma calculate_diversity_Ok (population : list Individual) :
  Forall (member_of self) population ->
  exists q : Q, calculate_diversity population = Ok q.
Proof.
  intros Hpop. unfold calculate_diversity.
  destruct (length population <? 2)%nat; [eauto|].
  destruct (diversity_outer_Ok population
              (Nat.min 10 (length population - 1))
              (range 0 (Nat.min 20 (length population))) Hpop)
    with (differences := @nil Q) as (d & Hrun).
  - apply Forall_forall. intros i Hi. unfold range in Hi.
    apply elem_of_seq in Hi. lia.
  - rewrite Hrun. simpl. destruct d; eauto.
Qed.

Lemma fitness_values_Ok (population : list Individual) :
  Forall (member_of self) population ->
  exists fs : list Q,
    fitness_values population = Ok fs /\ length fs = length population.
Proof.
  induction 1 as [|ind l Hind _ (fs & Hrun & Hlen)]; simpl.
  - exists []. split; reflexivity.
  - destruct (member_fitness_pos ind Hind) as (f & Hf & _).
    rewrite Hf, Hrun. exists (f :: fs). split; [reflexivity|].
    simpl. now rewrite Hlen.
Qed.

End engine_returns.

Section engine_returns_loop.
Import instance_py genetic_algorithm_py.

Lemma generation_body_Ok (st : loop_state) (r : rng) :
  state_invariant st ->
  exists (st' : loop_state) (r' : rng),
    generation_body st r = Ok (st', r') /\ state_invariant st'.
Proof.
  intros (Hvalid & Hpop & Hlen & Hbest). unfold generation_body.
  pose proof Hvalid as (Hsize & _).
  destruct (breed_Ok (self_ st) Hvalid (population_ st)
              (Z.to_nat (pop_size (self_ st))) Hpop Hlen
              [best_individual_ st] r)
    as (out & r1 & Hbreed & Hout & Hfull).
  { simpl. lia. }
  { constructor; [exact Hbest|constructor]. }
  rewrite (M_bind_step _ _ _ _ _ Hbreed).
  set (population := slice_to out (pop_size (self_ st))).
  assert (Hpop' : Forall (member_of (self_ st)) population)
    by now apply slice_to_Forall.
  assert (Hlen' : Z.of_nat (length population) = pop_size (self_ st)).
  { unfold population, slice_to.
    destruct (Z.leb_spec 0 (pop_size (self_ st))) as [_|?]; [|lia].
    rewrite length_take. lia. }
  destruct (max_key_Ok fitness population) as (current_best & Hmax & Hin).
  { intros E. rewrite E in Hlen'. simpl in Hlen'. lia. }
  { now apply (member_has_fitness (self_ st)). }
  assert (Hcur : member_of (self_ st) current_best).
  { rewrite Forall_forall in Hpop'. now apply Hpop'. }
  rewrite (M_bind_step _ _ r1 r1 current_best)
    by (unfold lift; now rewrite Hmax).
  destruct (member_fitness_pos _ _ Hcur) as (fc & Hfc & _).
  destruct (member_fitness_pos _ _ Hbest) as (fb & Hfb & _).
  rewrite (M_bind_step _ _ r1 r1 (negb (Qle_bool fc fb)))
    by (unfold lift; now rewrite Hfc, Hfb).
  destruct (fitness_values_Ok (self_ st) population Hpop')
    as (fs & Hfs & Hfslen).
  rewrite (M_bind_step _ _ r1 r1 fs) by (unfold lift; now rewrite Hfs).
  assert (Hmean : exists avg, mean fs = Ok avg).
  { destruct fs; [simpl in Hfslen; lia|]. eexists. reflexivity. }
  destruct Hmean as (avg & Hmean).
  rewrite (M_bind_step _ _ r1 r1 avg) by (unfold lift; now rewrite Hmean).
  destruct (calculate_diversity_Ok (self_ st) Hvalid population Hpop')
    as (d & Hd).
  rewrite (M_bind_step _ _ r1 r1 d) by (unfold lift; now rewrite Hd).
  eexists _, r1. split; [reflexivity|].
  repeat split; simpl; try apply Hvalid; try assumption;
    destruct (negb (Qle_bool fc fb)); first [apply Hcur|apply Hbest].
Qed.

Lemma main_loop_Ok (fuel : nat) :
  forall (st : loop_state) (r : rng),
    state_invariant st ->
    max_generations (self_ st) - generation_ st <= Z.of_nat fuel ->
    exists (st' : loop_state) (r' : rng), main_loop fuel st r = Ok (st', r').
Proof.
  induction fuel as [|fuel IH]; intros st r Hinv Hfuel; simpl;
    destruct (Z.ltb_spec (generation_ st) (max_generations (self_ st)));
    try lia; eauto.
  destruct (generation_body_Ok st r Hinv) as (st1 & r1 & Hbody & Hinv1).
  rewrite (M_bind_step _ _ _ _ _ Hbody).
  destruct (200 <? stagnation_counter_ st1); [eauto|].
  apply generation_body_counters in Hbody as [Hg Hm].
  apply IH; [exact Hinv1|lia].
Qed.

Lemma start_Ok (self : GeneticAlgorithm) (r : rng) :
  valid_configuration self ->
  exists (st : loop_state) (r' : rng),
    start self r = Ok (st, r') /\ state_invariant st.
Proof.
  intros Hvalid. unfold start, initialize_population.
  destruct (initialize_population_loop_Ok self Hvalid
              (Z.to_nat (pop_size self)) [] r)
    as (population & r1 & Hinit & Hlen & Hpop).
  rewrite (M_bind_step _ _ _ _ _ Hinit). simpl app.
  destruct Hvalid as (Hsize & Hrest).
  destruct (max_key_Ok fitness population) as (best & Hmax & Hin).
  { intros ->. simpl in Hlen. lia. }
  { now apply (member_has_fitness self). }
  rewrite (M_bind_step _ _ r1 r1 best) by (unfold lift; now rewrite Hmax).
  assert (Hb : member_of self best)
    by (rewrite Forall_forall in Hpop; now apply Hpop).
  eexists _, r1. split; [reflexivity|].
  split; [split; assumption|]. split; [exact Hpop|].
  split; [simpl; lia|exact Hb].
Qed.

(** A run on a valid configuration returns a result, whatever the source
    of randomness. *)
Lemma run_returns (self : GeneticAlgorithm) (r : rng) :
  valid_configuration self ->
  exists (result : RunResult) (self' : GeneticAlgorithm) (r' : rng),
    run self r = Ok ((result, self'), r').
Proof.
  intros Hvalid. unfold run.
  destruct (start_Ok self r Hvalid) as (st0 & r0 & Hstart & Hinv).
  rewrite (M_bind_step _ _ _ _ _ Hstart).
  pose proof (start_state _ _ _ _ Hstart) as (Hself & Hgen & _).
  destruct (main_loop_Ok (Z.to_nat (max_generations self)) st0 r0 Hinv)
    as (st & r1 & Hloop).
  { rewrite Hself, Hgen. lia. }
  rewrite (M_bind_step _ _ _ _ _ Hloop).
  eexists _, _, _. reflexivity.
Qed.

(** Where an invalid population size surfaces: not at construction but
    in [run], when [max] finds the initial population empty. *)
Lemma run_without_population (self : GeneticAlgorithm) (r : rng) :
  pop_size self <= 0 -> run self r = Raise ValueError.
Proof.
  intros Hsize. unfold run, start, initialize_population.
  replace (Z.to_nat (pop_size self)) with 0%nat by lia. reflexivity.
Qed.

End engine_returns_loop.

(* ===================================================================== *)
(** * The run: elitism, generations and histories                         *)
(* ===================================================================== *)

Section engine_claims.
Import instance_py genetic_algorithm_py.

Lemma C1_best_cost_never_increases_witness :
  exists (result : RunResult) (self' : GeneticAlgorithm) (r' : rng),
    run ga_small (rng_affine 7 3) = Ok ((result, self'), r') /\
    exists recorded : list (option Z),
      best_cost_history self' = best_cost_history ga_small ++ recorded /\
      history_best_cost result = best_cost_history self' /\
      Z.of_nat (length recorded) = generations result /\
      forall g : nat,
        (1 <= g < length recorded)%nat ->
        exists a b : Z,
          recorded !! g = Some (Some a) /\
          recorded !! (g - 1)%nat = Some (Some b) /\
          a <= b.
Proof.
  eexists _, _, _. split; [vm_compute; reflexivity|].
  eapply (C1_best_cost_never_increases ga_small _ _ (rng_affine 7 3)).
  vm_compute. reflexivity.
Defined.

Lemma generation_body_stagnant (st st' : loop_state) (r r' : rng) :
  generation_body st r = Ok (st', r') ->
  gt (fitness (best_individual_ st')) (fitness (best_individual_ st))
    = Ok false ->
  stagnation_counter_ st' = stagnation_counter_ st + 1 /\
  generation_ st' = generation_ st + 1 /\
  max_generations (self_ st') = max_generations (self_ st).
Proof.
  intros H Hgt. unfold generation_body in H.
  apply M_bind_Ok in H as (new_population & r0 & _ & H). inv_run.
  simpl in *.
  match goal with
  | Hcmp : gt _ _ = Ok ?b |- _ => is_var b; destruct b
  end.
  - congruence.
  - repeat split.
Qed.

Lemma main_loop_stagnant (n : nat) :
  forall (fuel : nat) (st : loop_state) (r : rng),
    never_improves (S n) st r = true ->
    0 <= stagnation_counter_ st ->
    stagnation_counter_ st + Z.of_nat (S n) = 201 ->
    generation_ st + Z.of_nat (S n) <= max_generations (self_ st) ->
    (S n <= fuel)%nat ->
    exists (st' : loop_state) (r' : rng),
      main_loop fuel st r = Ok (st', r') /\
      generation_ st' = generation_ st + Z.of_nat (S n).
Proof.
  induction n as [|n IH]; intros fuel st r Hni Hc0 Hc Hg Hfuel;
    (destruct fuel as [|fuel]; [lia|]);
    simpl in Hni;
    destruct (generation_body st r) as [[st1 r1]| |] eqn:Hbody;
      try discriminate;
    destruct (gt (fitness (best_individual_ st1))
                 (fitness (best_individual_ st))) as [[|]| |] eqn:Hgt;
      try discriminate;
    destruct (generation_body_stagnant _ _ _ _ Hbody Hgt) as (Hs & Hg1 & Hm);
    simpl main_loop;
    (destruct (Z.ltb_spec (generation_ st) (max_generations (self_ st)));
       [|lia]);
    rewrite (M_bind_step _ _ _ _ _ Hbody).
  - destruct (Z.ltb_spec 200 (stagnation_counter_ st1)); [|lia].
    exists st1, r1. split; [reflexivity|lia].
  - destruct (Z.ltb_spec 200 (stagnation_counter_ st1)); [lia|].
    destruct (IH fuel st1 r1 Hni) as (st' & r' & Hrun & Hgen); try lia.
    exists st', r'. split; [exact Hrun|lia].
Qed.

Lemma generation_body_records (st st' : loop_state) (r r' : rng) :
  generation_body st r = Ok (st', r') ->
  generation_ st' = generation_ st + 1 /\
  best_fitness_history (self_ st') =
    best_fitness_history (self_ st) ++ [fitness (best_individual_ st')] /\
  best_cost_history (self_ st') =
    best_cost_history (self_ st) ++ [cost (best_individual_ st')] /\
  length (avg_fitness_history (self_ st')) =
    S (length (avg_fitness_history (self_ st))) /\
  length (diversity_history (self_ st')) =
    S (length (diversity_history (self_ st))).
Proof.
  intros H. unfold generation_body in H.
  apply M_bind_Ok in H as (new_population & r0 & _ & H). inv_run.
  simpl. rewrite !length_app. simpl. repeat split; lia.
Qed.

(** What [run] records. The part of [run] before the loop records
    nothing: the initial population (generation 0) is in no history.
    Every generation adds 1 to the generation number and appends one
    entry to each of the four histories, so the entry of generation g is
    the g-th one a run appends (index g - 1 on a new object). A run with
    max_generations = 5 that returns has run 5 generations (the
    stagnation stop needs more than 200) and has appended exactly 5
    entries to each of the four histories, which are the histories the
    result carries; on a valid configuration such a run does return. *)
Lemma run_generations_and_histories (self : GeneticAlgorithm) (r : rng) :
  (forall (st0 : loop_state) (r0 : rng),
     start self r = Ok (st0, r0) -> self_ st0 = self /\ generation_ st0 = 0) /\
  (forall (st st' : loop_state) (r0 r1 : rng),
     generation_body st r0 = Ok (st', r1) ->
     generation_ st' = generation_ st + 1 /\
     best_fitness_history (self_ st') =
       best_fitness_history (self_ st) ++ [fitness (best_individual_ st')] /\
     best_cost_history (self_ st') =
       best_cost_history (self_ st) ++ [cost (best_individual_ st')] /\
     length (avg_fitness_history (self_ st')) =
       S (length (avg_fitness_history (self_ st))) /\
     length (diversity_history (self_ st')) =
       S (length (diversity_history (self_ st)))) /\
  (max_generations self = 5 ->
   (valid_configuration self ->
    exists (result : RunResult) (self' : GeneticAlgorithm) (r' : rng),
      run self r = Ok ((result, self'), r')) /\
   forall (result : RunResult) (self' : GeneticAlgorithm) (r' : rng),
     run self r = Ok ((result, self'), r') ->
     generations result = 5 /\
     length (best_fitness_history self') =
       (length (best_fitness_history self) + 5)%nat /\
     length (avg_fitness_history self') =
       (length (avg_fitness_history self) + 5)%nat /\
     length (best_cost_history self') =
       (length (best_cost_history self) + 5)%nat /\
     length (diversity_history self') =
       (length (diversity_history self) + 5)%nat /\
     history_best_fitness result = best_fitness_history self' /\
     history_avg_fitness result = avg_fitness_history self' /\
     history_best_cost result = best_cost_history self' /\
     history_diversity result = diversity_history self').
Proof.
  split; [|split].
  - intros st0 r0 H. apply start_state in H. tauto.
  - intros st st' r0 r1 H. now apply generation_body_records in H.
  - intros Hmax. split; [apply run_returns|].
    intros result self' r' H. unfold run in H.
    apply M_bind_Ok in H as (st0 & r0 & Hstart & H).
    apply M_bind_Ok in H as (st & r1 & Hloop & H).
    apply M_ret_Ok in H as [Heq _]. injection Heq as -> ->.
    apply start_state in Hstart as (Hself & Hgen & Hcnt & Hinv).
    apply main_loop_effect in Hloop; [|exact Hinv].
    destruct Hloop as [[_ Hc] Lm Lg (rec & c & Lh & _ & _ & Llen) Lbf Laf Ldv Lex].
    rewrite Hself in *.
    assert (Hg5 : generation_ st = 5) by lia.
    split; [exact Hg5|].
    assert (Hbc : length (best_cost_history (self_ st)) =
                  (length (best_cost_history self) + 5)%nat)
      by (rewrite Lh, length_app; lia).
    split; [lia|]. split; [lia|]. split; [exact Hbc|]. split; [lia|].
    repeat split.
Qed.

Lemma never_improves_prefix (a b : nat) :
  forall (st : loop_state) (r : rng),
    never_improves (a + b) st r = true -> never_improves a st r = true.
Proof.
  induction a as [|a IH]; intros st r H; [reflexivity|].
  simpl in H |- *.
  destruct (generation_body st r) as [[st' r']| |]; try discriminate.
  destruct (gt (fitness (best_individual_ st'))
               (fitness (best_individual_ st))) as [[|]| |];
    try discriminate.
  now apply IH.
Qed.

Lemma generation_body_counter (st st' : loop_state) (r r' : rng) :
  generation_body st r = Ok (st', r') ->
  (stagnation_counter_ st' = 0 \/
   stagnation_counter_ st' = stagnation_counter_ st + 1) /\
  generation_ st' = generation_ st + 1 /\
  max_generations (self_ st') = max_generations (self_ st).
Proof.
  intros H. unfold generation_body in H.
  apply M_bind_Ok in H as (new_population & r0 & _ & H). inv_run.
  simpl.
  match goal with
  | Hcmp : gt _ _ = Ok ?b |- _ => is_var b; destruct b
  end; auto.
Qed.

Lemma main_loop_stagnant_window (g : nat) :
  forall (fuel : nat) (st : loop_state) (r : rng),
    stagnant_after g 201 st r = true ->
    0 <= stagnation_counter_ st <= 200 ->
    generation_ st + Z.of_nat g + 201 <= max_generations (self_ st) ->
    (g + 201 <= fuel)%nat ->
    exists (st' : loop_state) (r' : rng),
      main_loop fuel st r = Ok (st', r') /\
      generation_ st < generation_ st' <= generation_ st + Z.of_nat g + 201.
Proof.
  induction g as [|g IH]; intros fuel st r Hwin Hc Hg Hfuel.
  - cbn [stagnant_after] in Hwin.
    set (n := Z.to_nat (200 - stagnation_counter_ st)).
    assert (Hprefix : never_improves (S n) st r = true).
    { apply (never_improves_prefix (S n) (201 - S n)).
      replace (S n + (201 - S n))%nat with 201%nat by lia. exact Hwin. }
    destruct (main_loop_stagnant n fuel st r Hprefix)
      as (st' & r' & Hrun & Hgen); try lia.
    exists st', r'. split; [exact Hrun|lia].
  - cbn [stagnant_after] in Hwin.
    destruct (generation_body st r) as [[st1 r1]| |] eqn:Hbody;
      try discriminate.
    destruct (generation_body_counter _ _ _ _ Hbody) as (Hc1 & Hg1 & Hm1).
    destruct fuel as [|fuel]; [lia|]. simpl main_loop.
    destruct (Z.ltb_spec (generation_ st) (max_generations (self_ st)));
      [|lia].
    rewrite (M_bind_step _ _ _ _ _ Hbody).
    destruct (Z.ltb_spec 200 (stagnation_counter_ st1)).
    + exists st1, r1. split; [reflexivity|lia].
    + destruct (IH fuel st1 r1 Hwin) as (st' & r' & Hrun & Hgen); try lia.
      exists st', r'. split; [exact Hrun|lia].
Qed.

(** The stagnation stop. A run whose best individual strictly improves
    in none of 201 consecutive generations g + 1, ..., g + 201, with
    g + 201 < max_generations, returns at generation g + 201 at the
    latest, so before reaching max_generations. *)
Lemma run_stops_by_stagnation (self : GeneticAlgorithm) (r : rng) (g : nat) :
  stagnant_window g 201 self r = true ->
  Z.of_nat g + 201 < max_generations self ->
  exists (result : RunResult) (self' : GeneticAlgorithm) (r' : rng),
    run self r = Ok ((result, self'), r') /\
    generations result <= Z.of_nat g + 201 /\
    generations result < max_generations self.
Proof.
  intros Hwin Hmax. unfold stagnant_window in Hwin.
  destruct (start self r) as [[st0 r0]| |] eqn:Hstart; try discriminate.
  pose proof (start_state _ _ _ _ Hstart) as (Hself & Hgen & Hcnt & Hinv).
  destruct (main_loop_stagnant_window g (Z.to_nat (max_generations self))
              st0 r0 Hwin) as (st & r' & Hrun & Hg); try lia.
  { rewrite Hself. lia. }
  exists (result_of st), (self_ st), r'. unfold run.
  rewrite (M_bind_step _ _ _ _ _ Hstart), (M_bind_step _ _ _ _ _ Hrun).
  split; [reflexivity|]. simpl. lia.
Qed.

(** Such windows occur: the best individual of [ga_flat] never improves,
    from the start of the run; the best individual of [ga_long] improves
    in generation 1, so that no window starts at g = 0, and in none of
    the generations 2, ..., 202. *)
Lemma run_stops_by_stagnation_examples :
  stagnant_window 0 201 ga_flat (rng_affine 7 3) = true /\
  stagnant_window 0 201 ga_long (rng_affine 13 5) = false /\
  stagnant_window 1 201 ga_long (rng_affine 13 5) = true.
Proof. split; [|split]; vm_compute; reflexivity. Qed.

(** C3 on a new engine with max_generations = 5, pop_size = 4 and the
    instance [4, 0, 2]. The run returns after 5 generations, and each of
    the four histories has length 5 where the claim says 6: no entry
    stands for the initial population. The best cost of the initial
    population is 3, and the entry at index 0 of the best-cost history is
    2, the best cost after generation 1. *)
Theorem C3_histories_miss_generation_0 :
  __init__ {| size := 3; data := [4; 0; 2] |} 4 (4 # 5) (1 # 5) 5
    "one_point" "swap" "tournament" 3 = Ok ga_small /\
  match start ga_small (rng_affine 13 5), run ga_small (rng_affine 13 5) with
  | Ok (st0, _), Ok ((result, _), _) =>
      cost (best_individual_ st0) = Some 3 /\
      generations result = 5 /\
      length (history_best_fitness result) = 5%nat /\
      length (history_avg_fitness result) = 5%nat /\
      length (history_best_cost result) = 5%nat /\
      length (history_diversity result) = 5%nat /\
      history_best_cost result !! 0%nat = Some (Some 2)
  | _, _ => False
  end.
Proof. split; [reflexivity|]. vm_compute. repeat split. Qed.

End engine_claims.

(* ===================================================================== *)
(** * Further properties: the crossover operators                         *)
(* ===================================================================== *)

Section crossover_more.
Import crossover_py.

Lemma slice_split {A} (l : list A) (n : Z) :
  slice_to l n ++ slice_from l n = l.
Proof. unfold slice_to, slice_from. destruct (0 <=? n); apply take_drop. Qed.

Lemma one_point_shape (parent1 parent2 : list Z) (r : rng) :
  length parent1 = length parent2 -> (2 <= length parent1)%nat ->
  exists (point : nat) (r' : rng),
    one_point parent1 parent2 r =
      Ok ((take point parent1 ++ drop point parent2,
           take point parent2 ++ drop point parent1), r') /\
    (1 <= point < length parent1)%nat.
Proof.
  intros Hlen H2. unfold one_point.
  destruct (Nat.eqb_spec (length parent1) (length parent2)) as [_|?];
    [|contradiction].
  cbn [negb].
  assert (H1 : 1 <= Z.of_nat (length parent1) - 1) by lia.
  pose proof (randint_Ok 1 _ r H1) as Hrun.
  pose proof (randint_range _ _ _ _ _ Hrun) as Hpoint.
  rewrite (M_bind_step _ _ _ _ _ Hrun).
  set (point := 1 + Z.of_N (draws r (pos r)) mod
                      (Z.of_nat (length parent1) - 1 - 1 + 1)) in *.
  exists (Z.to_nat point), (advance r). split; [|lia].
  unfold slice_to, slice_from.
  destruct (Z.leb_spec 0 point) as [_|?]; [reflexivity|lia].
Qed.

(** X1. On parents of equal length n >= 2, [one_point] returns two
    children of length n cut at a point of [1, n - 1]: before the point
    each child has the genes of its own parent, from the point on those of
    the other parent, so both parents always contribute to both children. *)
Theorem X1_one_point_cut (parent1 parent2 : list Z) (r : rng) :
  length parent1 = length parent2 -> (2 <= length parent1)%nat ->
  exists (point : nat) (child1 child2 : list Z) (r' : rng),
    one_point parent1 parent2 r = Ok ((child1, child2), r') /\
    (1 <= point < length parent1)%nat /\
    length child1 = length parent1 /\ length child2 = length parent1 /\
    forall p : nat,
      ((p < point)%nat ->
       child1 !! p = parent1 !! p /\ child2 !! p = parent2 !! p) /\
      ((point <= p)%nat ->
       child1 !! p = parent2 !! p /\ child2 !! p = parent1 !! p).
Proof.
  intros Hlen H2.
  destruct (one_point_shape parent1 parent2 r Hlen H2)
    as (point & r' & Hrun & Hpoint).
  eexists point, _, _, r'. split; [exact Hrun|]. split; [exact Hpoint|].
  rewrite !length_app, !length_take, !length_drop.
  split; [lia|]. split; [lia|].
  intros p. split; intros Hp.
  - rewrite !lookup_app_l by (rewrite length_take; lia).
    now rewrite !lookup_take_lt.
  - rewrite !lookup_app_r by (rewrite length_take; lia).
    rewrite !length_take, !lookup_drop.
    replace (point + (p - point `min` length parent1))%nat with p by lia.
    replace (point + (p - point `min` length parent2))%nat with p by lia.
    split; reflexivity.
Qed.

Lemma X1_one_point_cut_witness :
  length [1; 2; 3; 4] = length [5; 6; 7; 8] /\
  (2 <= length [1; 2; 3; 4])%nat /\
  exists (point : nat) (child1 child2 : list Z) (r' : rng),
    one_point [1; 2; 3; 4] [5; 6; 7; 8] (rng_const 1) =
      Ok ((child1, child2), r') /\
    (1 <= point < 4)%nat /\ length child1 = 4%nat /\ length child2 = 4%nat.
Proof.
  split; [reflexivity|]. split; [simpl; lia|].
  destruct (X1_one_point_cut [1; 2; 3; 4] [5; 6; 7; 8] (rng_const 1)
              eq_refl) as (point & c1 & c2 & r' & H & Hp & H1 & H2 & _);
    [simpl; lia|].
  exists point, c1, c2, r'. auto.
Defined.

(** X2. [one_point] conserves the genes of the pair: the two children
    together hold exactly the genes of the two parents, with their
    multiplicities. *)
Theorem X2_one_point_conserves_genes (parent1 parent2 : list Z) (r : rng)
    (child1 child2 : list Z) (r' : rng) :
  one_point parent1 parent2 r = Ok ((child1, child2), r') ->
  child1 ++ child2 ≡ₚ parent1 ++ parent2.
Proof.
  unfold one_point.
  destruct (length parent1 =? length parent2)%nat; [|discriminate].
  cbn [negb]. intros H. inv_run.
  match goal with
  | Heq : (_, _) = (_, _) |- _ => injection Heq as -> ->
  end.
  match goal with
  | |- context [slice_to parent1 ?n] =>
      rewrite <- (slice_split parent1 n), <- (slice_split parent2 n) at 3
  end.
  rewrite <- !app_assoc. apply Permutation_app_head.
  rewrite (Permutation_app_comm (slice_from parent2 _)), <- app_assoc.
  apply Permutation_app_swap_app.
Qed.

Lemma X2_one_point_conserves_genes_witness :
  one_point [1; 2; 3] [4; 5; 6] (rng_const 0) =
    Ok (([1; 5; 6], [4; 2; 3]), advance (rng_const 0)) /\
  [1; 5; 6] ++ [4; 2; 3] ≡ₚ [1; 2; 3] ++ [4; 5; 6].
Proof.
  split; [reflexivity|].
  apply (X2_one_point_conserves_genes [1; 2; 3] [4; 5; 6] (rng_const 0)
           _ _ (advance (rng_const 0))).
  reflexivity.
Defined.

Lemma uniform_loop_conserves (pairs : list (Z * Z)) :
  forall (acc1 acc2 out1 out2 : list Z) (r r' : rng),
    uniform_loop pairs acc1 acc2 r = Ok ((out1, out2), r') ->
    out1 ++ out2 ≡ₚ (acc1 ++ acc2) ++ (pairs.*1 ++ pairs.*2).
Proof.
  induction pairs as [|[g1 g2] pairs IH]; intros acc1 acc2 out1 out2 r r' H;
    simpl in H.
  - apply M_ret_Ok in H as [Heq _]. injection Heq as -> ->.
    simpl. now rewrite app_nil_r.
  - apply M_bind_Ok in H as (u & r1 & _ & H).
    destruct (negb (Qle_bool (1 # 2) u)); apply IH in H; rewrite H; simpl;
      solve_Permutation.
Qed.

(** X3. [uniform] conserves the genes of the pair as well: whenever it
    returns, the two children together hold exactly the genes of the two
    parents, with their multiplicities. *)
Theorem X3_uniform_conserves_genes (parent1 parent2 : list Z) (r : rng)
    (child1 child2 : list Z) (r' : rng) :
  uniform parent1 parent2 r = Ok ((child1, child2), r') ->
  child1 ++ child2 ≡ₚ parent1 ++ parent2.
Proof.
  unfold uniform.
  destruct (Nat.eqb_spec (length parent1) (length parent2)) as [Hlen|?];
    [|discriminate].
  cbn [negb]. intros H. apply uniform_loop_conserves in H. rewrite H. simpl.
  now rewrite fst_zip, snd_zip by lia.
Qed.

Lemma X3_uniform_conserves_genes_witness :
  uniform [1; 2; 3] [4; 5; 6] (rng_list [0; 2 ^ 52; 7]%N) =
    Ok (([1; 5; 3], [4; 2; 6]), skip 3 (rng_list [0; 2 ^ 52; 7]%N)) /\
  [1; 5; 3] ++ [4; 2; 6] ≡ₚ [1; 2; 3] ++ [4; 5; 6].
Proof.
  split; [reflexivity|].
  apply (X3_uniform_conserves_genes [1; 2; 3] [4; 5; 6]
           (rng_list [0; 2 ^ 52; 7]%N) _ _
           (skip 3 (rng_list [0; 2 ^ 52; 7]%N))).
  reflexivity.
Defined.

(** X4. What the crossovers refuse: parents of different lengths make both
    raise [AssertionError]; parents of equal length below 2 make
    [one_point] raise [ValueError] (no cut point exists), while [uniform]
    accepts them, two empty parents giving two empty children. *)
Theorem X4_crossover_rejections (parent1 parent2 : list Z) (r : rng) :
  (length parent1 <> length parent2 ->
   one_point parent1 parent2 r = Raise AssertionError /\
   uniform parent1 parent2 r = Raise AssertionError) /\
  (length parent1 = length parent2 -> (length parent1 < 2)%nat ->
   one_point parent1 parent2 r = Raise ValueError /\
   exists (child1 child2 : list Z) (r' : rng),
     uniform parent1 parent2 r = Ok ((child1, child2), r') /\
     length child1 = length parent1 /\ length child2 = length parent1).
Proof.
  split.
  - intros Hne. unfold one_point, uniform.
    destruct (Nat.eqb_spec (length parent1) (length parent2));
      [contradiction|]. split; reflexivity.
  - intros Hlen Hshort. split.
    + unfold one_point.
      destruct (Nat.eqb_spec (length parent1) (length parent2));
        [|contradiction].
      cbn [negb]. apply M_bind_Raise. apply randint_empty. lia.
    + destruct (uniform_loop_spec parent1 parent2 [] [] r Hlen)
        as (c1 & c2 & r' & Hrun & Hl1 & Hl2 & _).
      exists c1, c2, r'. unfold uniform.
      destruct (Nat.eqb_spec (length parent1) (length parent2));
        [|contradiction].
      split; [exact Hrun|]. split; assumption.
Qed.

Lemma X4_crossover_rejections_witness :
  (length [1; 2] <> length [3] /\
   one_point [1; 2] [3] (rng_const 0) = Raise AssertionError /\
   uniform [1; 2] [3] (rng_const 0) = Raise AssertionError) /\
  (length [1] = length [3] /\ (length [1] < 2)%nat /\
   one_point [1] [3] (rng_const 0) = Raise ValueError).
Proof.
  split.
  - split; [discriminate|].
    apply (X4_crossover_rejections [1; 2] [3] (rng_const 0)). discriminate.
  - split; [reflexivity|]. split; [simpl; lia|].
    apply (X4_crossover_rejections [1] [3] (rng_const 0));
      [reflexivity|simpl; lia].
Defined.

End crossover_more.

(* ===================================================================== *)
(** * Further properties: the mutation operators                          *)
(* ===================================================================== *)

Section mutation_more.
Import mutation_py.

Lemma rev_lookup (l : list Z) (p : nat) :
  (p < length l)%nat -> rev l !! p = l !! (length l - S p)%nat.
Proof.
  intros Hp. rewrite rev_alt. change (rev_append l []) with (reverse l).
  now apply reverse_lookup.
Qed.

Lemma reverse_slice_lookup (v : list Z) (i j p : nat) :
  (i <= j)%nat -> (j <= length v)%nat ->
  (take i v ++ rev (take (j - i) (drop i v)) ++ drop j v) !! p =
    if (p <? i)%nat || (j <=? p)%nat then v !! p
    else v !! (i + j - 1 - p)%nat.
Proof.
  intros Hij Hj.
  assert (Hmid : length (take (j - i) (drop i v)) = (j - i)%nat).
  { rewrite length_take, length_drop. lia. }
  destruct (Nat.ltb_spec p i) as [Hp|Hp]; simpl.
  - rewrite lookup_app_l by (rewrite length_take; lia).
    now apply lookup_take_lt.
  - rewrite lookup_app_r by (rewrite length_take; lia).
    rewrite length_take. replace (i `min` length v)%nat with i by lia.
    destruct (Nat.leb_spec j p) as [Hp'|Hp'].
    + rewrite lookup_app_r by (rewrite length_rev, Hmid; lia).
      rewrite length_rev, Hmid, lookup_drop. f_equal. lia.
    + rewrite lookup_app_l by (rewrite length_rev, Hmid; lia).
      rewrite rev_lookup by (rewrite Hmid; lia).
      rewrite Hmid, lookup_take_lt by lia.
      rewrite lookup_drop. f_equal. lia.
Qed.

(** X5. On a chromosome of length at least 2, [swap] returns a child in
    which the genes of two distinct positions i and j of the input have
    changed places and every other position holds the gene it held. *)
Theorem X5_swap_exchanges_two_genes (h : heap) (chromosome : loc) (r : rng) :
  (2 <= length (obj h chromosome))%nat ->
  exists (i j : nat) (child : loc) (h' : heap) (r' : rng),
    swap chromosome h r = Ok ((child, h'), r') /\
    i <> j /\
    (i < length (obj h chromosome))%nat /\
    (j < length (obj h chromosome))%nat /\
    obj h' child !! i = obj h chromosome !! j /\
    obj h' child !! j = obj h chromosome !! i /\
    forall p : nat,
      p <> i -> p <> j -> obj h' child !! p = obj h chromosome !! p.
Proof.
  intros Hlen.
  destruct (swap_spec h chromosome r Hlen)
    as (i & j & x & y & r' & Hrun & Hx & Hy & Hij).
  pose proof (lookup_lt_Some _ _ _ Hx) as Hi.
  pose proof (lookup_lt_Some _ _ _ Hy) as Hj.
  eexists i, j, _, _, r'. split; [exact Hrun|].
  rewrite obj_snoc_new.
  split; [exact Hij|]. split; [exact Hi|]. split; [exact Hj|].
  split; [|split].
  - rewrite list_lookup_insert_ne by auto.
    rewrite Hy. now apply list_lookup_insert_eq.
  - rewrite Hx. apply list_lookup_insert_eq. now rewrite length_insert.
  - intros p Hpi Hpj. now rewrite !list_lookup_insert_ne by auto.
Qed.

Lemma X5_swap_exchanges_two_genes_witness :
  (2 <= length (obj [[1; 2; 3]%Z] 0))%nat /\
  exists (i j : nat) (child : loc) (h' : heap) (r' : rng),
    swap 0%nat [[1; 2; 3]] (rng_list [0; 1]%N) = Ok ((child, h'), r') /\
    i <> j /\
    obj h' child !! i = obj [[1; 2; 3]] 0%nat !! j /\
    obj h' child !! j = obj [[1; 2; 3]] 0%nat !! i.
Proof.
  split; [simpl; lia|].
  destruct (X5_swap_exchanges_two_genes [[1; 2; 3]] 0%nat
              (rng_list [0; 1]%N))
    as (i & j & child & h' & r' & Hrun & Hij & _ & _ & Hi & Hj & _);
    [simpl; lia|].
  exists i, j, child, h', r'. auto.
Defined.

(** X6. On a chromosome of length n >= 2, [inversion] reverses the genes
    of the positions i, ..., j - 1 for some i < j <= n - 1 and leaves
    every other position as it was. The bound j <= n - 1 comes from
    drawing j among the indices and slicing up to j excluded: the last
    gene of a chromosome is never moved. *)
Theorem X6_inversion_reverses_a_slice (h : heap) (chromosome : loc)
    (r : rng) :
  (2 <= length (obj h chromosome))%nat ->
  exists (i j : nat) (child : loc) (h' : heap) (r' : rng),
    inversion chromosome h r = Ok ((child, h'), r') /\
    (i < j)%nat /\ (j <= length (obj h chromosome) - 1)%nat /\
    (forall p : nat,
       (p < i)%nat \/ (j <= p)%nat ->
       obj h' child !! p = obj h chromosome !! p) /\
    (forall p : nat,
       (i <= p)%nat -> (p < j)%nat ->
       obj h' child !! p = obj h chromosome !! (i + j - 1 - p)%nat) /\
    last (obj h' child) = last (obj h chromosome).
Proof.
  intros Hlen.
  destruct (inversion_spec h chromosome r Hlen)
    as (i & j & r' & Hrun & Hij & Hj).
  eexists i, j, _, _, r'. split; [exact Hrun|].
  rewrite obj_snoc_new. set (v := obj h chromosome) in *.
  assert (Hlook : forall p, (p < i)%nat \/ (j <= p)%nat ->
            (take i v ++ rev (take (j - i) (drop i v)) ++ drop j v) !! p =
            v !! p).
  { intros p Hp. rewrite reverse_slice_lookup by lia.
    destruct (Nat.ltb_spec p i); [reflexivity|].
    destruct (Nat.leb_spec j p); [reflexivity|lia]. }
  split; [exact Hij|]. split; [lia|]. split; [exact Hlook|]. split.
  - intros p Hp1 Hp2. rewrite reverse_slice_lookup by lia.
    destruct (Nat.ltb_spec p i); [lia|].
    destruct (Nat.leb_spec j p); [lia|reflexivity].
  - rewrite !last_lookup.
    assert (Hsame : length (take i v ++ rev (take (j - i) (drop i v)) ++
                            drop j v) = length v).
    { apply Permutation_length, reverse_slice_Permutation. lia. }
    rewrite Hsame. apply Hlook. lia.
Qed.

Lemma X6_inversion_reverses_a_slice_witness :
  (2 <= length (obj [[1; 2; 3; 4]%Z] 0))%nat /\
  exists (i j : nat) (child : loc) (h' : heap) (r' : rng),
    inversion 0%nat [[1; 2; 3; 4]] (rng_list [0; 2]%N) =
      Ok ((child, h'), r') /\
    (i < j)%nat /\
    last (obj h' child) = last (obj [[1; 2; 3; 4]] 0%nat).
Proof.
  split; [simpl; lia|].
  destruct (X6_inversion_reverses_a_slice [[1; 2; 3; 4]] 0%nat
              (rng_list [0; 2]%N))
    as (i & j & child & h' & r' & Hrun & Hij & _ & _ & _ & Hlast);
    [simpl; lia|].
  exists i, j, child, h', r'. auto.
Defined.

(** X7. [random_reset] needs only one gene: on a chromosome of length at
    least 1 and with min_val <= max_val it returns a child that holds at
    one position i a value of [min_val, max_val] and at every other
    position the gene of the input. *)
Theorem X7_random_reset_one_gene (h : heap) (chromosome : loc)
    (min_val max_val : Z) (r : rng) :
  (1 <= length (obj h chromosome))%nat -> min_val <= max_val ->
  exists (i : nat) (v : Z) (child : loc) (h' : heap) (r' : rng),
    random_reset chromosome min_val max_val h r = Ok ((child, h'), r') /\
    (i < length (obj h chromosome))%nat /\
    min_val <= v <= max_val /\
    obj h' child !! i = Some v /\
    forall p : nat, p <> i -> obj h' child !! p = obj h chromosome !! p.
Proof.
  intros Hlen Hmm.
  destruct (random_reset_spec h chromosome min_val max_val r Hlen Hmm)
    as (i & v & r' & Hrun & Hi & Hv).
  eexists i, v, _, _, r'. split; [exact Hrun|].
  rewrite obj_snoc_new.
  split; [exact Hi|]. split; [exact Hv|]. split.
  - now apply list_lookup_insert_eq.
  - intros p Hp. now apply list_lookup_insert_ne.
Qed.

Lemma X7_random_reset_one_gene_witness :
  (1 <= length (obj [[5]%Z] 0))%nat /\ 0 <= 9 /\
  exists (i : nat) (v : Z) (child : loc) (h' : heap) (r' : rng),
    random_reset 0%nat 0 9 [[5]] (rng_list [0; 7]%N) =
      Ok ((child, h'), r') /\
    0 <= v <= 9 /\ obj h' child !! i = Some v.
Proof.
  split; [simpl; lia|]. split; [lia|].
  destruct (X7_random_reset_one_gene [[5]] 0%nat 0 9 (rng_list [0; 7]%N))
    as (i & v & child & h' & r' & Hrun & _ & Hv & Hi & _);
    [simpl; lia|lia|].
  exists i, v, child, h', r'. auto.
Defined.

(** X8. What the mutations refuse: on a chromosome of fewer than 2 genes
    [swap] and [inversion] raise [ValueError] (two distinct positions
    cannot be sampled); [random_reset] raises [ValueError] on an empty
    chromosome, and on a non-empty one when min_val > max_val. *)
Theorem X8_mutation_rejections (h : heap) (chromosome : loc)
    (min_val max_val : Z) (r : rng) :
  ((length (obj h chromosome) < 2)%nat ->
   swap chromosome h r = Raise ValueError /\
   inversion chromosome h r = Raise ValueError) /\
  (obj h chromosome = [] ->
   random_reset chromosome min_val max_val h r = Raise ValueError) /\
  (obj h chromosome <> [] -> max_val < min_val ->
   random_reset chromosome min_val max_val h r = Raise ValueError).
Proof.
  split; [|split].
  - intros Hlen. unfold swap, inversion, copy. rewrite obj_snoc_new.
    assert (Hs : sample (seq 0 (length (obj h chromosome))) 2 r =
                 Raise ValueError).
    { apply sample_too_large. rewrite length_seq. lia. }
    split; apply M_bind_Raise; exact Hs.
  - intros Hnil. unfold random_reset, copy. rewrite obj_snoc_new, Hnil.
    apply M_bind_Raise. apply randint_empty. simpl. lia.
  - intros Hne Hmm. unfold random_reset, copy. rewrite obj_snoc_new.
    assert (H0 : 0 <= Z.of_nat (length (obj h chromosome)) - 1).
    { destruct (obj h chromosome); [contradiction|]. simpl length. lia. }
    rewrite (M_bind_step _ _ _ _ _ (randint_Ok 0 _ r H0)).
    apply M_bind_Raise. apply randint_empty. lia.
Qed.

Lemma X8_mutation_rejections_witness :
  ((length (obj [[7]%Z] 0) < 2)%nat /\
   swap 0%nat [[7]] (rng_const 0) = Raise ValueError /\
   inversion 0%nat [[7]] (rng_const 0) = Raise ValueError) /\
  (obj [[]] 0%nat = [] /\
   random_reset 0%nat 0 9 [[]] (rng_const 0) = Raise ValueError) /\
  (obj [[7]%Z] 0%nat <> [] /\ 3 < 5 /\
   random_reset 0%nat 5 3 [[7]] (rng_const 0) = Raise ValueError).
Proof.
  split; [|split].
  - split; [simpl; lia|].
    apply (proj1 (X8_mutation_rejections [[7]] 0%nat 0 9 (rng_const 0))).
    simpl; lia.
  - split; [reflexivity|].
    apply (proj1 (proj2
             (X8_mutation_rejections [[]] 0%nat 0 9 (rng_const 0)))).
    reflexivity.
  - split; [discriminate|]. split; [lia|].
    apply (proj2 (proj2
             (X8_mutation_rejections [[7]] 0%nat 5 3 (rng_const 0))));
      [discriminate|lia].
Defined.

End mutation_more.

(* ===================================================================== *)
(** * Further properties: the cost                                        *)
(* ===================================================================== *)

Section fitness_more.
Import instance_py fitness_py.

Lemma cost_lists_nonneg (a b : list Z) :
  0 <= sumZ (map (fun '(g, d) => Z.abs (g - d)) (zip a b)).
Proof.
  apply (cost_nonneg (new_Individual a) {| size := 0; data := b |}).
Qed.

Lemma cost_lists_zero (a : list Z) :
  forall b : list Z,
    length a = length b ->
    sumZ (map (fun '(g, d) => Z.abs (g - d)) (zip a b)) = 0 <-> a = b.
Proof.
  induction a as [|g a IH]; intros [|d b] Hlen; try discriminate.
  - split; reflexivity.
  - simpl. rewrite sumZ_cons. injection Hlen as Hlen.
    pose proof (cost_lists_nonneg a b) as Hrest.
    specialize (IH b Hlen). split.
    + intros H. assert (g = d) by lia. f_equal; [assumption|].
      apply IH. lia.
    + intros Heq. injection Heq as -> ->.
      assert (E : sumZ (map (fun '(g, d) => Z.abs (g - d)) (zip b b)) = 0)
        by now apply IH.
      rewrite E. lia.
Qed.

Lemma cost_lists_sym (a : list Z) :
  forall b : list Z,
    sumZ (map (fun '(g, d) => Z.abs (g - d)) (zip a b)) =
    sumZ (map (fun '(g, d) => Z.abs (g - d)) (zip b a)).
Proof.
  induction a as [|g a IH]; intros [|d b]; simpl; try reflexivity.
  rewrite !sumZ_cons, (IH b). lia.
Qed.

Lemma cost_lists_triangle (a : list Z) :
  forall b c : list Z,
    length a = length b -> length b = length c ->
    sumZ (map (fun '(g, d) => Z.abs (g - d)) (zip a c)) <=
    sumZ (map (fun '(g, d) => Z.abs (g - d)) (zip a b)) +
    sumZ (map (fun '(g, d) => Z.abs (g - d)) (zip b c)).
Proof.
  induction a as [|x a IH]; intros [|y b] [|z c] Hab Hbc;
    try discriminate Hab; try discriminate Hbc.
  - simpl. reflexivity.
  - simpl. rewrite !sumZ_cons.
    injection Hab as Hab. injection Hbc as Hbc.
    specialize (IH b c Hab Hbc). lia.
Qed.

(** X9. For a chromosome as long as the data, the cost is 0 exactly when
    the chromosome is the data itself, so [fitness] returns 1 for that
    chromosome and for no other: the data vector is the unique optimum. *)
Theorem X9_cost_zero_iff_target (ind : Individual) (inst : Instance) :
  length (chromosome ind) = length (data inst) ->
  (compute_cost ind inst = 0 <-> chromosome ind = data inst) /\
  exists (f : Q) (ind' : Individual),
    fitness ind inst = Ok (f, ind') /\
    ((f == 1)%Q <-> chromosome ind = data inst).
Proof.
  intros Hlen.
  assert (Hzero : compute_cost ind inst = 0 <-> chromosome ind = data inst).
  { unfold compute_cost. now apply cost_lists_zero. }
  split; [exact Hzero|].
  eexists _, _. split; [apply fitness_Ok|].
  rewrite fitness_of_cost_eq_1 by apply cost_nonneg. exact Hzero.
Qed.

Lemma X9_cost_zero_iff_target_witness :
  length (chromosome (new_Individual [4; 0; 2])) =
  length (data {| size := 3; data := [4; 0; 2] |}) /\
  compute_cost (new_Individual [4; 0; 2])
    {| size := 3; data := [4; 0; 2] |} = 0.
Proof.
  split; [reflexivity|].
  apply (X9_cost_zero_iff_target (new_Individual [4; 0; 2])
           {| size := 3; data := [4; 0; 2] |} eq_refl).
  reflexivity.
Defined.

(** X10. The cost is a distance between the chromosome and the data:
    exchanging the two lists gives the same cost, and for three lists of
    one length the cost from the first to the third is at most the cost
    from the first to the second plus that from the second to the third
    (the [size] field plays no part). *)
Theorem X10_cost_is_a_distance (a b c : list Z) (n1 n2 n3 : Z) :
  compute_cost (new_Individual a) {| size := n1; data := b |} =
  compute_cost (new_Individual b) {| size := n2; data := a |} /\
  (length a = length b -> length b = length c ->
   compute_cost (new_Individual a) {| size := n3; data := c |} <=
   compute_cost (new_Individual a) {| size := n1; data := b |} +
   compute_cost (new_Individual b) {| size := n3; data := c |}).
Proof.
  unfold compute_cost. simpl. split.
  - apply cost_lists_sym.
  - apply cost_lists_triangle.
Qed.

Lemma X10_cost_is_a_distance_witness :
  length [1; 5] = length [3; 3] /\ length [3; 3] = length [0; 9] /\
  compute_cost (new_Individual [1; 5]) {| size := 2; data := [0; 9] |} <=
  compute_cost (new_Individual [1; 5]) {| size := 2; data := [3; 3] |} +
  compute_cost (new_Individual [3; 3]) {| size := 2; data := [0; 9] |}.
Proof.
  split; [reflexivity|]. split; [reflexivity|].
  apply (proj2 (X10_cost_is_a_distance [1; 5] [3; 3] [0; 9] 2 2 2));
    reflexivity.
Defined.

End fitness_more.

(* ===================================================================== *)
(** * Further properties: selection in core_functions/Selection.py       *)
(* ===================================================================== *)

Section selection_more.
Import instance_py.

Lemma gt_Ok_inv (x y : option Q) (b : bool) :
  gt x y = Ok b ->
  exists fx fy : Q, x = Some fx /\ y = Some fy /\ b = negb (Qle_bool fx fy).
Proof.
  destruct x as [fx|], y as [fy|]; simpl; intros H; try discriminate.
  injection H as <-. eauto.
Qed.

Lemma max_from_greatest {A} (key : A -> option Q) (l : list A) :
  forall best x : A,
    max_from key best l = Ok x ->
    forall fx : Q,
      key x = Some fx ->
      (forall fb : Q, key best = Some fb -> (fb <= fx)%Q) /\
      (forall y : A, y ∈ l -> forall fy : Q, key y = Some fy -> (fy <= fx)%Q).
Proof.
  induction l as [|y l IH]; intros best x H fx Hfx; simpl in H.
  - injection H as <-. split.
    + intros fb Hfb. rewrite Hfx in Hfb. injection Hfb as <-. apply Qle_refl.
    + intros y Hy. inversion Hy.
  - apply res_bind_Ok in H as (b & Hgt & H).
    apply gt_Ok_inv in Hgt as (fy & fb & Hy & Hb & ->).
    destruct (IH _ _ H fx Hfx) as [Hcand Hrest].
    destruct (Qle_bool fy fb) eqn:E; simpl in Hcand.
    + apply Qle_bool_iff in E.
      pose proof (Hcand fb Hb) as Hbx. split.
      * intros fb' Hfb'. rewrite Hb in Hfb'. now injection Hfb' as <-.
      * intros z Hz fz Hfz. apply elem_of_cons in Hz as [->|Hz].
        -- rewrite Hy in Hfz. injection Hfz as <-.
           now apply Qle_trans with fb.
        -- now apply (Hrest z Hz).
    + apply Qle_bool_false in E.
      pose proof (Hcand fy Hy) as Hyx. split.
      * intros fb' Hfb'. rewrite Hb in Hfb'. injection Hfb' as <-.
        apply Qle_trans with fy; [now apply Qlt_le_weak|exact Hyx].
      * intros z Hz fz Hfz. apply elem_of_cons in Hz as [->|Hz].
        -- rewrite Hy in Hfz. now injection Hfz as <-.
        -- now apply (Hrest z Hz).
Qed.

Lemma max_key_greatest {A} (key : A -> option Q) (l : list A) (x : A) :
  max_key key l = Ok x ->
  forall (y : A) (fy fx : Q),
    y ∈ l -> key y = Some fy -> key x = Some fx -> (fy <= fx)%Q.
Proof.
  destruct l as [|a l]; [discriminate|]. simpl. intros H y fy fx Hy Hfy Hfx.
  destruct (max_from_greatest key l a x H fx Hfx) as [Hbest Hrest].
  apply elem_of_cons in Hy as [->|Hy].
  - now apply Hbest.
  - now apply (Hrest y Hy).
Qed.

(** X11. [tournament_selection] of Selection.py with 1 <= k <=
    len(population) on individuals that all carry a fitness: it returns
    a member of a sample of k individuals taken at distinct positions of
    the population, and no individual of the sample has a greater
    fitness; with k = len(population) the sample is the whole
    population, and the result is a fittest individual of it. *)
Theorem X11_tournament_sample_fittest (population : list Individual) (k : Z)
    (r : rng) :
  1 <= k <= Z.of_nat (length population) ->
  Forall (fun ind => is_Some (fitness ind)) population ->
  exists (selected : list Individual) (x : Individual) (r' : rng),
    Selection_py.tournament_selection population k r = Ok (x, r') /\
    selected ⊆+ population /\ length selected = Z.to_nat k /\
    x ∈ selected /\
    (forall (y : Individual) (fy fx : Q),
       y ∈ selected -> fitness y = Some fy -> fitness x = Some fx ->
       (fy <= fx)%Q) /\
    (k = Z.of_nat (length population) -> selected ≡ₚ population).
Proof.
  intros Hk Hall.
  destruct (sample_Ok population k r) as (l & r' & Hrun & Hl & Hsub); [lia|].
  assert (Hne : l <> []) by (intros ->; simpl in Hl; lia).
  assert (Hsome : Forall (fun ind => is_Some (fitness ind)) l).
  { rewrite Forall_forall in Hall |- *. intros y Hy. apply Hall.
    now apply (elem_of_submseteq l population). }
  destruct (max_key_Ok fitness l Hne Hsome) as (x & Hmax & Hx).
  exists l, x, r'. split.
  { unfold Selection_py.tournament_selection.
    rewrite (M_bind_step _ _ _ _ _ Hrun). unfold lift. now rewrite Hmax. }
  split; [exact Hsub|]. split; [exact Hl|]. split; [exact Hx|]. split.
  - intros y fy fx Hy Hfy Hfx. now apply (max_key_greatest fitness l x Hmax y).
  - intros ->. apply submseteq_length_Permutation; [exact Hsub|]. lia.
Qed.

Lemma X11_tournament_sample_fittest_witness :
  1 <= 2 <= Z.of_nat (length [ind_weak; ind_strong]) /\
  Forall (fun ind => is_Some (fitness ind)) [ind_weak; ind_strong] /\
  exists (selected : list Individual) (x : Individual) (r' : rng),
    Selection_py.tournament_selection [ind_weak; ind_strong] 2 (rng_const 0)
      = Ok (x, r') /\
    selected ⊆+ [ind_weak; ind_strong] /\ x ∈ selected.
Proof.
  assert (H1 : 1 <= 2 <= Z.of_nat (length [ind_weak; ind_strong]))
    by (simpl; lia).
  assert (H2 : Forall (fun ind => is_Some (fitness ind))
                 [ind_weak; ind_strong])
    by (repeat constructor; eexists; reflexivity).
  split; [exact H1|]. split; [exact H2|].
  destruct (X11_tournament_sample_fittest [ind_weak; ind_strong] 2
              (rng_const 0) H1 H2)
    as (selected & x & r' & Hrun & Hsub & _ & Hx & _).
  exists selected, x, r'. auto.
Defined.

(** X12. What [tournament_selection] of Selection.py refuses: k < 0 or
    k > len(population) raises [ValueError] (the sample), k = 0 raises
    [ValueError] (the maximum of an empty sample), and 2 <= k <=
    len(population) on individuals that were never evaluated raises
    [TypeError] (their fitness [None] cannot be ordered). *)
Theorem X12_tournament_sample_rejections (population : list Individual)
    (k : Z) (r : rng) :
  (k <= 0 \/ Z.of_nat (length population) < k ->
   Selection_py.tournament_selection population k r = Raise ValueError) /\
  (2 <= k <= Z.of_nat (length population) ->
   Forall (fun ind => fitness ind = None) population ->
   Selection_py.tournament_selection population k r = Raise TypeError).
Proof.
  unfold Selection_py.tournament_selection. split.
  - intros Hk. destruct (Z.eq_dec k 0) as [->|Hk0].
    + unfold sample. simpl. destruct (Z.of_nat (length population) <? 0);
        reflexivity.
    + apply M_bind_Raise. apply sample_too_large. lia.
  - intros Hk Hnone.
    destruct (sample_Ok population k r) as (l & r' & Hrun & Hl & Hsub);
      [lia|].
    rewrite (M_bind_step _ _ _ _ _ Hrun).
    assert (Hl' : Forall (fun ind => fitness ind = None) l).
    { rewrite Forall_forall in Hnone |- *. intros y Hy. apply Hnone.
      now apply (elem_of_submseteq l population). }
    destruct l as [|a [|b l]]; simpl in Hl; try lia.
    apply Forall_cons in Hl' as [Ha Hl']. apply Forall_cons in Hl' as [Hb _].
    unfold lift. simpl. rewrite Ha, Hb. reflexivity.
Qed.

Lemma X12_tournament_sample_rejections_witness :
  (0 <= 0 \/ Z.of_nat (length [ind_weak]) < 0) /\
  Selection_py.tournament_selection [ind_weak] 0 (rng_const 0) =
    Raise ValueError /\
  2 <= 2 <= Z.of_nat (length [new_Individual [1]; new_Individual [2]]) /\
  Forall (fun ind => fitness ind = None)
    [new_Individual [1]; new_Individual [2]] /\
  Selection_py.tournament_selection [new_Individual [1]; new_Individual [2]]
    2 (rng_const 0) = Raise TypeError.
Proof.
  split; [left; lia|]. split.
  { apply (proj1 (X12_tournament_sample_rejections [ind_weak] 0
                    (rng_const 0))). left. lia. }
  split; [simpl; lia|]. split; [repeat constructor|].
  apply (proj2 (X12_tournament_sample_rejections
                  [new_Individual [1]; new_Individual [2]] 2 (rng_const 0))).
  - simpl; lia.
  - repeat constructor.
Defined.

End selection_more.

(* ===================================================================== *)
(** * Further properties: the roulette wheel of Selection.py              *)
(* ===================================================================== *)

Section roulette_wheel_more.
Import instance_py.

Lemma sum_fitness_None (l : list Individual) :
  Exists (fun ind => fitness ind = None) l ->
  forall acc : Q, Selection_py.sum_fitness acc l = Raise TypeError.
Proof.
  induction 1 as [x l Hx|x l _ IH]; intros acc; simpl.
  - now rewrite Hx.
  - destruct (fitness x); [apply IH|reflexivity].
Qed.

(** X13. [roulette_selection] of Selection.py on a non-empty population
    whose fitness values are all >= 0 (rationals, exact sums): it reads
    one random number, raises nothing and never returns [None]; the
    threshold lies in [0, sum of fitness], and the result is the first
    individual of the population whose cumulative fitness meets or exceeds
    the threshold. *)
Theorem X13_roulette_wheel (population : list Individual) (r : rng) :
  population <> [] ->
  Forall (fun ind => exists f, fitness ind = Some f /\ (0 <= f)%Q) population ->
  exists (pick : Q) (ind : Individual),
    Selection_py.roulette_selection population r = Ok (Some ind, advance r) /\
    (0 <= pick)%Q /\ (pick <= fitness_sum population)%Q /\
    first_reaching pick 0 population ind /\
    ind ∈ population.
Proof.
  intros Hne Hall.
  pose proof (fitness_sum_nonneg _ Hall) as Hpos.
  assert (Hsome : Forall (fun ind => is_Some (fitness ind)) population).
  { eapply Forall_impl; [exact Hall|]. intros x (f & Hf & _). eauto. }
  destruct (sum_fitness_Ok population 0 Hsome) as (total & Htot & Heq).
  assert (Ht : (total == fitness_sum population)%Q) by (rewrite Heq; ring).
  pose proof (random_range r _ _ (random_Ok r)) as [Hu0 Hu1].
  set (u := (Z.of_N (draws r (pos r) mod 2 ^ 53) # 2 ^ 53)) in *.
  set (pick := (0 + (total - 0) * u)%Q).
  assert (Hpick : (pick == total * u)%Q) by (unfold pick; ring).
  assert (Hp0 : (0 <= pick)%Q).
  { rewrite Hpick. apply Qmult_le_0_compat; [now rewrite Ht|exact Hu0]. }
  assert (Hp1 : (pick <= fitness_sum population)%Q).
  { rewrite Hpick, <- Ht.
    q_replace_at2 (total)%Q (1 * total)%Q. rewrite (Qmult_comm total u).
    apply Qmult_le_compat_r; [now apply Qlt_le_weak|now rewrite Ht]. }
  destruct (spin_first pick population 0 Hsome Hne) as (ind & Hrun & Hfirst).
  { q_replace (0 + fitness_sum population)%Q (fitness_sum population)%Q.
    exact Hp1. }
  exists pick, ind. split.
  { unfold Selection_py.roulette_selection.
    rewrite (M_bind_step _ _ r r total) by (unfold lift; now rewrite Htot).
    rewrite (M_bind_step _ _ _ _ _ (uniform_Ok _ _ r)).
    fold u. fold pick. unfold lift. rewrite Hrun. reflexivity. }
  split; [exact Hp0|]. split; [exact Hp1|]. split; [exact Hfirst|].
  destruct Hfirst as (pre & post & -> & _).
  apply elem_of_app. right. constructor.
Qed.

Lemma X13_roulette_wheel_witness :
  [ind_weak; ind_strong] <> [] /\
  Forall (fun ind => exists f, fitness ind = Some f /\ (0 <= f)%Q)
    [ind_weak; ind_strong] /\
  exists ind : Individual,
    Selection_py.roulette_selection [ind_weak; ind_strong] (rng_const 0) =
      Ok (Some ind, advance (rng_const 0)) /\
    ind ∈ [ind_weak; ind_strong].
Proof.
  assert (H1 : [ind_weak; ind_strong] <> []) by discriminate.
  assert (H2 : Forall (fun ind => exists f, fitness ind = Some f /\ (0 <= f)%Q)
                 [ind_weak; ind_strong]).
  { repeat constructor; eexists; (split; [reflexivity|discriminate]). }
  split; [exact H1|]. split; [exact H2|].
  destruct (X13_roulette_wheel [ind_weak; ind_strong] (rng_const 0) H1 H2)
    as (pick & ind & Hrun & _ & _ & _ & Hin).
  exists ind. auto.
Defined.

(** X14. The edges of [roulette_selection] of Selection.py: on an empty
    population it raises nothing and returns [None], having read one
    random number; on a population with an individual that was never
    evaluated it raises [TypeError] (the sum of the fitness values). *)
Theorem X14_roulette_wheel_edges (population : list Individual) (r : rng) :
  Selection_py.roulette_selection [] r = Ok (None, advance r) /\
  (Exists (fun ind => fitness ind = None) population ->
   Selection_py.roulette_selection population r = Raise TypeError).
Proof.
  split; [reflexivity|].
  intros Hnone. unfold Selection_py.roulette_selection.
  apply M_bind_Raise. unfold lift. now rewrite sum_fitness_None.
Qed.

Lemma X14_roulette_wheel_edges_witness :
  Exists (fun ind => fitness ind = None) [ind_strong; new_Individual [1]] /\
  Selection_py.roulette_selection [ind_strong; new_Individual [1]]
    (rng_const 0) = Raise TypeError.
Proof.
  assert (H : Exists (fun ind => fitness ind = None)
                [ind_strong; new_Individual [1]])
    by (right; left; reflexivity).
  split; [exact H|].
  exact (proj2 (X14_roulette_wheel_edges [ind_strong; new_Individual [1]]
                  (rng_const 0)) H).
Defined.

End roulette_wheel_more.

(* ===================================================================== *)
(** * Further properties: the tournaments of Algorithms/Tournament.py     *)
(* ===================================================================== *)

Section tournament_more.

Lemma drawn_indices_lt (r : rng) (n k : nat) :
  (0 < n)%nat -> Forall (fun i => (i < n)%nat) (drawn_indices r n k).
Proof.
  intros Hn. unfold drawn_indices. apply Forall_fmap, Forall_forall.
  intros j _. simpl.
  pose proof (Z.mod_pos_bound (Z.of_N (draws r (pos r + j))) (Z.of_nat n)).
  lia.
Qed.

Lemma skip_skip (a b : nat) (r : rng) : skip a (skip b r) = skip (b + a) r.
Proof. unfold skip. simpl. f_equal. lia. Qed.

(** X15. [tournament_selection] of Tournament.py on a non-empty
    population with a score per individual and k >= 1: it reads exactly
    k random numbers, each reduced to an index of the population on its
    own, so that the same individual may enter the tournament several
    times and k may exceed the population size; it returns the
    individual at the first drawn index of greatest score. *)
Theorem X15_tournament_draws_with_replacement {A} (population : list A)
    (scores : list Q) (k : Z) (r : rng) :
  population <> [] ->
  (length population <= length scores)%nat ->
  1 <= k ->
  exists (w : nat) (x : A),
    Tournament_py.tournament_selection population scores k r =
      Ok (x, skip (Z.to_nat k) r) /\
    Forall (fun i => (i < length population)%nat)
      (drawn_indices r (length population) (Z.to_nat k)) /\
    first_max scores (drawn_indices r (length population) (Z.to_nat k)) w /\
    population !! w = Some x /\
    x ∈ population.
Proof.
  intros Hne Hscores Hk.
  destruct (tournament_with_replacement population scores k r Hne Hscores Hk)
    as (w & x & Hrun & Hfirst & Hx).
  exists w, x. split; [exact Hrun|]. split.
  - apply drawn_indices_lt. destruct population; [congruence|simpl; lia].
  - split; [exact Hfirst|]. split; [exact Hx|].
    now apply (list_elem_of_lookup_2 population w).
Qed.

Lemma X15_tournament_draws_with_replacement_witness :
  [ind_weak; ind_strong] <> [] /\
  (length [ind_weak; ind_strong] <= length [1 # 2; 1]%Q)%nat /\
  1 <= 5 /\
  exists (w : nat) (x : instance_py.Individual),
    Tournament_py.tournament_selection [ind_weak; ind_strong] [1 # 2; 1]%Q 5
      (rng_list [0; 1; 0; 1; 1]%N) =
      Ok (x, skip 5 (rng_list [0; 1; 0; 1; 1]%N)) /\
    [ind_weak; ind_strong] !! w = Some x.
Proof.
  split; [discriminate|]. split; [simpl; lia|]. split; [lia|].
  destruct (X15_tournament_draws_with_replacement [ind_weak; ind_strong]
              [1 # 2; 1]%Q 5 (rng_list [0; 1; 0; 1; 1]%N))
    as (w & x & Hrun & _ & _ & Hx & _);
    [discriminate|simpl; lia|lia|].
  exists w, x. auto.
Defined.

(** X16. The edges of [tournament_selection] of Tournament.py: an empty
    population raises [ValueError] (the first index cannot be drawn);
    with k <= 1 the scores are never read, and the individual at the
    first index drawn is returned whatever the scores are, even if there
    are none; with k >= 2 and no scores it raises [IndexError]. *)
Theorem X16_tournament_edges {A} (population : list A) (scores : list Q)
    (k : Z) (r : rng) :
  (population = [] ->
   Tournament_py.tournament_selection population scores k r =
     Raise ValueError) /\
  (population <> [] -> k <= 1 ->
   exists x : A,
     population !! Z.to_nat (Z.of_N (draws r (pos r))
                             mod Z.of_nat (length population)) = Some x /\
     Tournament_py.tournament_selection population scores k r =
       Ok (x, advance r)) /\
  (population <> [] -> scores = [] -> 2 <= k ->
   Tournament_py.tournament_selection population scores k r =
     Raise IndexError).
Proof.
  unfold Tournament_py.tournament_selection. split; [|split].
  - intros ->. apply M_bind_Raise. now apply randint_empty.
  - intros Hne Hk.
    assert (Hn : (0 < length population)%nat)
      by (destruct population; [congruence|simpl; lia]).
    destruct (randint_index (length population) r Hn) as (i & <- & Hi & Hrun).
    destruct (lookup_lt_is_Some_2 population i Hi) as [x Hx].
    exists x. split; [exact Hx|].
    rewrite (M_bind_step _ _ _ _ _ Hrun).
    replace (Z.to_nat (k - 1)) with 0%nat by lia. simpl.
    unfold mbind, M_bind, mret, M_ret. now rewrite Nat2Z.id, Hx.
  - intros Hne -> Hk.
    assert (Hn : (0 < length population)%nat)
      by (destruct population; [congruence|simpl; lia]).
    destruct (randint_index (length population) r Hn) as (i & _ & Hi & Hrun).
    rewrite (M_bind_step _ _ _ _ _ Hrun).
    apply M_bind_Raise.
    replace (Z.to_nat (k - 1)) with (S (Z.to_nat (k - 2))) by lia.
    cbn [Tournament_py.challenge].
    destruct (randint_index (length population) (advance r) Hn)
      as (j & _ & Hj & Hrun').
    rewrite (M_bind_step _ _ _ _ _ Hrun').
    apply M_bind_Raise. reflexivity.
Qed.

Lemma X16_tournament_edges_witness :
  ([7; 8; 9] <> [] /\ 0 <= 1 /\
   Tournament_py.tournament_selection [7; 8; 9] [] 0 (rng_const 4) =
     Ok (8, advance (rng_const 4))) /\
  ([7; 8; 9] <> [] /\ 2 <= 3 /\
   Tournament_py.tournament_selection [7; 8; 9] [] 3 (rng_const 4) =
     Raise IndexError).
Proof.
  split.
  - split; [discriminate|]. split; [lia|].
    destruct (proj1 (proj2 (X16_tournament_edges [7; 8; 9] [] 0
                              (rng_const 4))))
      as (x & Hx & Hrun); [discriminate|lia|].
    simpl in Hx. injection Hx as <-. exact Hrun.
  - split; [discriminate|]. split; [lia|].
    apply (proj2 (proj2 (X16_tournament_edges [7; 8; 9] [] 3
                           (rng_const 4))));
      [discriminate|reflexivity|lia].
Defined.

Lemma select_all_repeat {A} (population : list A) (scores : list Q) (k : Z)
    (n : nat) :
  forall (new_population : list A) (r : rng),
    Tournament_py.select_all population scores k n new_population r =
    repeat_M (Tournament_py.tournament_selection population scores k) n
      new_population r.
Proof.
  induction n as [|n IH]; intros new_population r; [reflexivity|].
  cbn [Tournament_py.select_all repeat_M].
  unfold Tournament_py.tournament_selection, mbind, M_bind.
  destruct (randint 0 (Z.of_nat (length population) - 1) r)
    as [[ix r1]| |]; try reflexivity.
  destruct (Tournament_py.challenge population scores (Z.to_nat (k - 1)) ix r1)
    as [[ix' r2]| |]; try reflexivity.
  destruct (population !! Z.to_nat ix') as [x|]; [|reflexivity].
  simpl. apply IH.
Qed.

(** X17. [tournament_selection_population] is len(population) runs of
    [tournament_selection] on the same population, scores and k, one
    after the other on the same source of randomness, with the winners
    collected in order; it raises what the first failing run raises. *)
Theorem X17_population_of_tournaments {A} (population : list A)
    (scores : list Q) (k : Z) (r : rng) :
  Tournament_py.tournament_selection_population population scores k r =
  repeat_M (Tournament_py.tournament_selection population scores k)
    (length population) [] r.
Proof.
  unfold Tournament_py.tournament_selection_population.
  apply select_all_repeat.
Qed.

Lemma select_all_Ok {A} (population : list A) (scores : list Q) (k : Z) :
  population <> [] ->
  (length population <= length scores)%nat ->
  1 <= k ->
  forall (n : nat) (new_population : list A) (r : rng),
    exists winners : list A,
      Tournament_py.select_all population scores k n new_population r =
        Ok (new_population ++ winners, skip (n * Z.to_nat k) r) /\
      length winners = n /\
      Forall (fun x => x ∈ population) winners.
Proof.
  intros Hne Hscores Hk.
  induction n as [|n IH]; intros new_population r.
  - exists []. simpl. rewrite app_nil_r, skip_0. auto.
  - destruct (tournament_with_replacement population scores k r Hne Hscores Hk)
      as (w & x & Hrun & _ & Hx).
    destruct (IH (new_population ++ [x]) (skip (Z.to_nat k) r))
      as (winners & Hrest & Hlen & Hall).
    exists (x :: winners). split; [|split].
    + rewrite select_all_repeat. cbn [repeat_M].
      rewrite (M_bind_step _ _ _ _ _ Hrun), <- select_all_repeat, Hrest.
      rewrite <- app_assoc, skip_skip. reflexivity.
    + simpl. now rewrite Hlen.
    + constructor; [|exact Hall].
      now apply (list_elem_of_lookup_2 population w).
Qed.

(** X18. [tournament_selection_population] on a non-empty population with
    a score per individual and k >= 1 returns as many individuals as the
    population has, each one a member of the population, having read
    k * len(population) random numbers; on an empty population it
    returns the empty list and raises nothing, where
    [tournament_selection] raises [ValueError]. *)
Theorem X18_tournament_population {A} (population : list A) (scores : list Q)
    (k : Z) (r : rng) :
  (population = [] ->
   Tournament_py.tournament_selection_population population scores k r =
     Ok ([], r)) /\
  (population <> [] ->
   (length population <= length scores)%nat ->
   1 <= k ->
   exists new_population : list A,
     Tournament_py.tournament_selection_population population scores k r =
       Ok (new_population, skip (length population * Z.to_nat k) r) /\
     length new_population = length population /\
     Forall (fun x => x ∈ population) new_population).
Proof.
  split.
  - intros ->. reflexivity.
  - intros Hne Hscores Hk.
    destruct (select_all_Ok population scores k Hne Hscores Hk
                (length population) [] r) as (winners & Hrun & Hlen & Hall).
    exists winners. auto.
Qed.

Lemma X18_tournament_population_witness :
  [7; 8; 9] <> [] /\ (length [7; 8; 9] <= length [1; 3; 2]%Q)%nat /\
  1 <= 2 /\
  exists new_population : list Z,
    Tournament_py.tournament_selection_population [7; 8; 9] [1; 3; 2]%Q 2
      (rng_affine 7 3) =
      Ok (new_population, skip 6 (rng_affine 7 3)) /\
    length new_population = 3%nat.
Proof.
  split; [discriminate|]. split; [simpl; lia|]. split; [lia|].
  destruct (proj2 (X18_tournament_population [7; 8; 9] [1; 3; 2]%Q 2
                     (rng_affine 7 3)))
    as (new_population & Hrun & Hlen & _);
    [discriminate|simpl; lia|lia|].
  exists new_population. auto.
Defined.

End tournament_more.

(* ===================================================================== *)
(** * Further properties: the bulk roulette of Algorithms/roulette.py     *)
(* ===================================================================== *)

Section roulette_bulk_more.
Import roulette_py.

Lemma bisect_positive (weights : list Q) :
  forall (acc x total : Q),
    (acc <= x)%Q ->
    last (accumulate acc weights) = Some total ->
    (x < total)%Q ->
    exists w : Q,
      weights !! bisect (accumulate acc weights) x (length weights - 1)
        = Some w /\
      (0 < w)%Q.
Proof.
  induction weights as [|w weights IH]; intros acc x total Hacc Hlast Hx;
    [discriminate|].
  assert (Hw : (x < acc + w)%Q -> (0 < w)%Q).
  { intros Hlt. apply (Qplus_lt_r _ _ acc).
    q_replace (acc + 0)%Q acc. now apply Qle_lt_trans with x. }
  destruct weights as [|w' weights].
  - simpl in Hlast. injection Hlast as <-. exists w. split; [reflexivity|].
    now apply Hw.
  - cbn [accumulate] in Hlast |- *. rewrite last_cons in Hlast.
    replace (length (w :: w' :: weights) - 1)%nat
      with (S (length (w' :: weights) - 1)) by (simpl; lia).
    cbn [bisect].
    destruct (Qle_bool (acc + w) x) eqn:E.
    + apply Qle_bool_iff in E.
      destruct (last ((acc + w + w')%Q :: accumulate (acc + w + w') weights))
        as [t|] eqn:El; [|apply last_None in El; discriminate].
      injection Hlast as <-.
      destruct (IH (acc + w)%Q x t E El Hx) as (v & Hv & Hpos).
      exists v. split; [exact Hv|exact Hpos].
    + apply Qle_bool_false in E. exists w. split; [reflexivity|].
      now apply Hw.
Qed.

Lemma choose_positive {A} (population : list A) (weights cum_weights : list Q)
    (total : Q) (k : nat) :
  (forall u : Q,
     (0 <= u)%Q -> (u < 1)%Q ->
     exists w : Q,
       weights !! bisect cum_weights (u * total)%Q (length population - 1)
         = Some w /\
       (0 < w)%Q) ->
  forall (r r' : rng) (parents : list A),
    choose population cum_weights total k r = Ok (parents, r') ->
    length parents = k /\
    Forall (fun x => exists (i : nat) (w : Q),
                population !! i = Some x /\ weights !! i = Some w /\
                (0 < w)%Q) parents.
Proof.
  intros Hidx. induction k as [|k IH]; intros r r' parents H; simpl in H.
  - apply M_ret_Ok in H as [-> _]. split; [reflexivity|constructor].
  - rewrite (M_bind_step _ _ _ _ _ (random_Ok r)) in H.
    pose proof (random_range r _ _ (random_Ok r)) as [Hu0 Hu1].
    set (u := (Z.of_N (draws r (pos r) mod 2 ^ 53) # 2 ^ 53)) in *.
    destruct (Hidx u Hu0 Hu1) as (w & Hw & Hpos).
    destruct (population !! _) as [x|] eqn:Hx; [|discriminate].
    apply M_bind_Ok in H as (rest & r1 & Hrest & H).
    apply M_ret_Ok in H as [-> _].
    destruct (IH _ _ _ Hrest) as [Hlen Hall].
    split; [simpl; now rewrite Hlen|].
    constructor; [|exact Hall]. eauto.
Qed.

(** X19. Whenever [roulette_selection] of roulette.py returns, it
    returns [num_parents] individuals (none for num_parents <= 0), and
    each of them stands at a position of the population whose fitness
    score is strictly positive: an individual of score 0 is never
    selected. *)
Theorem X19_roulette_bulk_positive_weight {A} (population : list A)
    (fitness_scores : list Q) (num_parents : Z) (r r' : rng)
    (parents : list A) :
  roulette_selection population fitness_scores num_parents r =
    Ok (parents, r') ->
  length parents = Z.to_nat num_parents /\
  Forall (fun x => exists (i : nat) (w : Q),
              population !! i = Some x /\ fitness_scores !! i = Some w /\
              (0 < w)%Q) parents.
Proof.
  unfold roulette_selection, choices.
  destruct (existsb _ fitness_scores); [discriminate|].
  rewrite length_accumulate.
  destruct (Nat.eqb_spec (length fitness_scores) (length population))
    as [Hlen|?]; [|discriminate].
  cbn [negb].
  destruct (last (accumulate 0 fitness_scores)) as [total|] eqn:Hlast;
    [|discriminate].
  destruct (Qle_bool total 0) eqn:Htot; [discriminate|].
  apply Qle_bool_false in Htot.
  apply choose_positive. intros u Hu0 Hu1. rewrite <- Hlen.
  apply (bisect_positive fitness_scores 0 (u * total) total).
  - apply Qmult_le_0_compat; [exact Hu0|now apply Qlt_le_weak].
  - exact Hlast.
  - q_replace_at2 (total)%Q (1 * total)%Q. now apply Qmult_lt_compat_r.
Qed.

Lemma X19_roulette_bulk_positive_weight_witness :
  roulette_selection [7; 8; 9] [0; 3; 0]%Q 2 (rng_list [0; 2 ^ 52]%N) =
    Ok ([8; 8], skip 2 (rng_list [0; 2 ^ 52]%N)) /\
  length [8; 8] = Z.to_nat 2.
Proof.
  split; [reflexivity|].
  apply (X19_roulette_bulk_positive_weight [7; 8; 9] [0; 3; 0]%Q 2
           (rng_list [0; 2 ^ 52]%N) (skip 2 (rng_list [0; 2 ^ 52]%N))).
  reflexivity.
Defined.

Lemma existsb_negative_false (fitness_scores : list Q) :
  Forall (fun f => (0 <= f)%Q) fitness_scores ->
  existsb (fun f => negb (Qle_bool 0 f)) fitness_scores = false.
Proof.
  intros Hall. apply not_true_is_false. intros Hb.
  apply existsb_exists in Hb as (f & Hin & Hf).
  apply negb_true_iff, Qle_bool_false in Hf.
  rewrite List.Forall_forall in Hall. apply (Qlt_not_le _ _ Hf).
  now apply Hall.
Qed.

Lemma last_accumulate_zero (weights : list Q) :
  forall acc total : Q,
    (acc == 0)%Q ->
    Forall (fun w => (w == 0)%Q) weights ->
    last (accumulate acc weights) = Some total ->
    (total == 0)%Q.
Proof.
  induction weights as [|w weights IH]; intros acc total Hacc Hall Hlast;
    [discriminate|].
  apply Forall_cons in Hall as [Hw Hall].
  assert (Hacc' : (acc + w == 0)%Q) by (rewrite Hacc, Hw; ring).
  destruct weights as [|w' weights].
  - simpl in Hlast. now injection Hlast as <-.
  - cbn [accumulate] in Hlast. rewrite last_cons in Hlast.
    destruct (last ((acc + w + w')%Q :: accumulate (acc + w + w') weights))
      as [t|] eqn:El; [|apply last_None in El; discriminate].
    injection Hlast as <-. now apply (IH (acc + w)%Q t Hacc' Hall).
Qed.

(** X20. What [roulette_selection] of roulette.py refuses, whatever
    num_parents is (0 included): a negative score raises [ValueError];
    scores that are all >= 0 but not as many as the individuals raise
    [ValueError]; one score per individual, all of them 0, raises
    [ValueError] (the total must be positive); an empty population with
    no scores raises [IndexError]. *)
Theorem X20_roulette_bulk_rejections {A} (population : list A)
    (fitness_scores : list Q) (num_parents : Z) (r : rng) :
  (Exists (fun f => (f < 0)%Q) fitness_scores ->
   roulette_selection population fitness_scores num_parents r =
     Raise ValueError) /\
  (Forall (fun f => (0 <= f)%Q) fitness_scores ->
   length fitness_scores <> length population ->
   roulette_selection population fitness_scores num_parents r =
     Raise ValueError) /\
  (Forall (fun f => (f == 0)%Q) fitness_scores ->
   fitness_scores <> [] ->
   length fitness_scores = length population ->
   roulette_selection population fitness_scores num_parents r =
     Raise ValueError) /\
  (population = [] -> fitness_scores = [] ->
   roulette_selection population fitness_scores num_parents r =
     Raise IndexError).
Proof.
  split; [apply roulette_bulk_negative|]. split; [|split].
  - intros Hall Hlen. unfold roulette_selection, choices.
    rewrite existsb_negative_false by exact Hall.
    rewrite length_accumulate.
    destruct (Nat.eqb_spec (length fitness_scores) (length population));
      [contradiction|reflexivity].
  - intros Hzero Hne Hlen. unfold roulette_selection, choices.
    rewrite existsb_negative_false.
    2:{ eapply Forall_impl; [exact Hzero|]. intros f Hf. simpl.
        rewrite Hf. apply Qle_refl. }
    rewrite length_accumulate, Hlen, Nat.eqb_refl. cbn [negb].
    destruct (last (accumulate 0 fitness_scores)) as [total|] eqn:Hlast.
    + pose proof (last_accumulate_zero fitness_scores 0 total
                    (Qeq_refl 0) Hzero Hlast) as Ht.
      replace (Qle_bool total 0) with true; [reflexivity|].
      symmetry. apply Qle_bool_iff. rewrite Ht. apply Qle_refl.
    + exfalso. apply last_None in Hlast.
      apply (f_equal length) in Hlast. rewrite length_accumulate in Hlast.
      destruct fitness_scores; [congruence|discriminate].
  - intros -> ->. reflexivity.
Qed.

Lemma X20_roulette_bulk_rejections_witness :
  (Exists (fun f => (f < 0)%Q) [1; -1]%Q /\
   roulette_selection [7; 8] [1; -1]%Q 0 (rng_const 0) = Raise ValueError) /\
  (Forall (fun f => (0 <= f)%Q) [1]%Q /\ length [1]%Q <> length [7; 8] /\
   roulette_selection [7; 8] [1]%Q 0 (rng_const 0) = Raise ValueError) /\
  (Forall (fun f => (f == 0)%Q) [0; 0]%Q /\ [0; 0]%Q <> [] /\
   length [0; 0]%Q = length [7; 8] /\
   roulette_selection [7; 8] [0; 0]%Q 0 (rng_const 0) = Raise ValueError).
Proof.
  split; [|split].
  - assert (H : Exists (fun f => (f < 0)%Q) [1; -1]%Q)
      by (right; left; reflexivity).
    split; [exact H|].
    exact (proj1 (X20_roulette_bulk_rejections [7; 8] [1; -1]%Q 0
                    (rng_const 0)) H).
  - assert (H : Forall (fun f => (0 <= f)%Q) [1]%Q)
      by (repeat constructor; discriminate).
    split; [exact H|]. split; [discriminate|].
    apply (proj1 (proj2 (X20_roulette_bulk_rejections [7; 8] [1]%Q 0
                           (rng_const 0))) H).
    discriminate.
  - assert (H : Forall (fun f => (f == 0)%Q) [0; 0]%Q)
      by (repeat constructor; reflexivity).
    split; [exact H|]. split; [discriminate|]. split; [reflexivity|].
    apply (proj1 (proj2 (proj2 (X20_roulette_bulk_rejections [7; 8]
                                  [0; 0]%Q 0 (rng_const 0)))) H);
      [discriminate|reflexivity].
Defined.

End roulette_bulk_more.

(* ===================================================================== *)
(** * Further properties: the diversity metric                            *)
(* ===================================================================== *)

Section diversity_more.
Import instance_py genetic_algorithm_py.

Lemma sumZ_ones {A} (l : list A) :
  sumZ (map (fun _ => 1) l) = Z.of_nat (length l).
Proof.
  induction l as [|x l IH]; [reflexivity|].
  cbn [map]. rewrite sumZ_cons, IH. simpl length. lia.
Qed.

Lemma count_diff_bounds (c1 c2 : list Z) :
  0 <= count_diff c1 c2 <= Z.of_nat (length c1).
Proof.
  unfold count_diff. rewrite sumZ_ones.
  pose proof (length_filter (fun '(g1, g2) => g1 ≠ g2) (zip c1 c2)) as Hf.
  rewrite length_zip in Hf. lia.
Qed.

Lemma fraction_unit (diff n : Z) :
  0 <= diff <= n -> 0 < n ->
  (0 <= inject_Z diff / inject_Z n)%Q /\ (inject_Z diff / inject_Z n <= 1)%Q.
Proof.
  intros [H0 H1] Hn.
  assert (Hn' : (0 < inject_Z n)%Q) by (change 0%Q with (inject_Z 0); now rewrite <- Zlt_Qlt).
  assert (H0' : (0 <= inject_Z diff)%Q) by (change 0%Q with (inject_Z 0); now rewrite <- Zle_Qle).
  assert (H1' : (inject_Z diff <= inject_Z n)%Q) by now rewrite <- Zle_Qle.
  split.
  - apply Qle_shift_div_l; [exact Hn'|]. lra.
  - apply Qle_shift_div_r; [exact Hn'|]. lra.
Qed.

Lemma fold_Qplus_unit (l : list Q) :
  Forall (fun q => (0 <= q)%Q /\ (q <= 1)%Q) l ->
  forall a : Q,
    (a <= fold_left Qplus l a)%Q /\
    (fold_left Qplus l a <= a + inject_Z (Z.of_nat (length l)))%Q.
Proof.
  induction 1 as [|q l [Hq0 Hq1] _ IH]; intros a.
  - simpl. change (inject_Z (Z.of_nat 0)) with 0%Q. split; lra.
  - destruct (IH (a + q)%Q) as [IH0 IH1]. cbn [fold_left length].
    rewrite Nat2Z.inj_succ, <- Z.add_1_r, inject_Z_plus.
    change (inject_Z 1) with 1%Q. split; lra.
Qed.

Lemma mean_unit (l : list Q) (q : Q) :
  mean l = Ok q ->
  Forall (fun q => (0 <= q)%Q /\ (q <= 1)%Q) l ->
  (0 <= q)%Q /\ (q <= 1)%Q.
Proof.
  unfold mean. destruct l as [|x l]; [discriminate|].
  intros H Hall. injection H as <-.
  destruct (fold_Qplus_unit _ Hall 0) as [H0 H1]. fold (sumQ (x :: l)) in *.
  cbn [length] in H1 |- *.
  assert (Hn : (0 < inject_Z (Z.of_nat (length (x :: l))))%Q).
  { change 0%Q with (inject_Z 0). rewrite <- Zlt_Qlt. simpl length. lia. }
  split.
  - apply Qle_shift_div_l; [exact Hn|]. lra.
  - apply Qle_shift_div_r; [exact Hn|]. lra.
Qed.

Lemma diversity_inner_unit (population : list Individual) (i : nat)
    (js : list nat) :
  forall differences out : list Q,
    diversity_inner population i js differences = Ok out ->
    Forall (fun q => (0 <= q)%Q /\ (q <= 1)%Q) differences ->
    Forall (fun q => (0 <= q)%Q /\ (q <= 1)%Q) out.
Proof.
  induction js as [|j js IH]; intros differences out H Hall; simpl in H.
  - now injection H as <-.
  - destruct (population !! i) as [pi|]; [|discriminate].
    destruct (population !! j) as [pj|]; [|discriminate].
    destruct (Nat.eqb_spec (length (chromosome pi)) 0) as [|Hlen];
      [discriminate|].
    apply (IH _ _ H). apply Forall_app. split; [exact Hall|].
    constructor; [|constructor].
    apply fraction_unit; [apply count_diff_bounds|lia].
Qed.

Lemma diversity_outer_unit (population : list Individual) (sample_size : nat)
    (ixs : list nat) :
  forall differences out : list Q,
    diversity_outer population sample_size ixs differences = Ok out ->
    Forall (fun q => (0 <= q)%Q /\ (q <= 1)%Q) differences ->
    Forall (fun q => (0 <= q)%Q /\ (q <= 1)%Q) out.
Proof.
  induction ixs as [|i ixs IH]; intros differences out H Hall; simpl in H.
  - now injection H as <-.
  - apply res_bind_Ok in H as (d & Hinner & H).
    apply (IH _ _ H). now apply (diversity_inner_unit _ _ _ _ _ Hinner).
Qed.

(** X21. Whenever [calculate_diversity] returns, whatever the
    chromosomes and their lengths are, its result lies in [0, 1]: each
    distance is a count of differing positions among the first
    chromosome's, divided by that chromosome's length. *)
Theorem X21_diversity_in_unit_interval (population : list Individual)
    (d : Q) :
  calculate_diversity population = Ok d -> (0 <= d)%Q /\ (d <= 1)%Q.
Proof.
  unfold calculate_diversity.
  destruct (length population <? 2)%nat.
  { intros H. injection H as <-. split; lra. }
  intros H. apply res_bind_Ok in H as (differences & Houter & H).
  apply diversity_outer_unit in Houter; [|constructor].
  destruct differences as [|x l].
  - injection H as <-. split; lra.
  - now apply (mean_unit (x :: l)).
Qed.

Lemma X21_diversity_in_unit_interval_witness :
  exists d : Q,
    calculate_diversity
      [new_Individual [0; 1]; new_Individual [0; 2]; new_Individual [3; 1]]
      = Ok d /\
    (0 <= d)%Q /\ (d <= 1)%Q.
Proof.
  eexists. split; [vm_compute; reflexivity|].
  apply (X21_diversity_in_unit_interval
           [new_Individual [0; 1]; new_Individual [0; 2];
            new_Individual [3; 1]]).
  vm_compute. reflexivity.
Defined.

(** X22. The edges of [calculate_diversity]: a population of at most two
    individuals has diversity 0 whatever its chromosomes are (with two
    individuals no pair is compared); a population of non-empty identical
    chromosomes has diversity 0; and a population of three or more whose
    first individual has an empty chromosome raises
    [ZeroDivisionError]. *)
Theorem X22_diversity_edges (population : list Individual) :
  ((length population <= 2)%nat -> calculate_diversity population = Ok 0%Q) /\
  (forall c : list Z,
     Forall (fun ind => chromosome ind = c) population ->
     (0 < length c)%nat ->
     exists q : Q, calculate_diversity population = Ok q /\ (q == 0)%Q) /\
  ((3 <= length population)%nat ->
   (exists ind : Individual,
      population !! 0%nat = Some ind /\ chromosome ind = []) ->
   calculate_diversity population = Raise ZeroDivisionError).
Proof.
  split; [|split].
  - intros Hlen. destruct population as [|a [|b [|c l]]];
      [reflexivity|reflexivity|reflexivity|simpl in Hlen; lia].
  - intros c Hall Hc. now apply (diversity_identical_zero c).
  - intros Hlen (ind & Hind & Hnil).
    destruct population as [|a [|b [|c l]]]; simpl in Hlen; try lia.
    injection Hind as ->. unfold calculate_diversity.
    cbn [length Nat.ltb Nat.leb Nat.min Nat.sub range seq diversity_outer
         Nat.add].
    cbn [diversity_inner lookup list_lookup]. rewrite Hnil. reflexivity.
Qed.

Lemma X22_diversity_edges_witness :
  (length [new_Individual [1; 2]%Z; new_Individual [3; 4]%Z] <= 2)%nat /\
  calculate_diversity [new_Individual [1; 2]; new_Individual [3; 4]] =
    Ok 0%Q /\
  (3 <= length [new_Individual []; new_Individual [1]%Z;
                new_Individual [2]%Z])%nat /\
  calculate_diversity
    [new_Individual []; new_Individual [1]; new_Individual [2]] =
    Raise ZeroDivisionError.
Proof.
  split; [simpl; lia|]. split.
  { apply (proj1 (X22_diversity_edges
                    [new_Individual [1; 2]; new_Individual [3; 4]])).
    simpl; lia. }
  split; [simpl; lia|].
  apply (proj2 (proj2 (X22_diversity_edges
                  [new_Individual []; new_Individual [1]; new_Individual [2]]))).
  - simpl; lia.
  - eexists. split; reflexivity.
Defined.

End diversity_more.

(* ===================================================================== *)
(** * Further properties: the initial population                          *)
(* ===================================================================== *)

Section initial_population_more.
Import instance_py genetic_algorithm_py.

Lemma fitness_scored (ind ind' : Individual) (inst : Instance) (f : Q) :
  fitness_py.fitness ind inst = Ok (f, ind') ->
  chromosome ind' = chromosome ind /\ scored inst ind'.
Proof.
  rewrite fitness_Ok. intros H. injection H as _ <-.
  split; [reflexivity|]. split; reflexivity.
Qed.

Lemma scored_evaluated (inst : Instance) (ind : Individual) :
  scored inst ind -> evaluated ind.
Proof.
  intros [Hc Hf]. exists (fitness_py.compute_cost ind inst).
  split; [apply cost_nonneg|]. split; assumption.
Qed.

Lemma random_chromosome_range (self : GeneticAlgorithm) (hi : Z) :
  maxZ (data (instance self)) = Ok hi -> 0 <= hi ->
  forall (n : nat) (r : rng),
    exists chrom : list Z,
      random_chromosome self n r = Ok (chrom, skip n r) /\
      length chrom = n /\
      Forall (fun g => 0 <= g <= hi) chrom.
Proof.
  intros Hmax Hhi. induction n as [|n IH]; intros r.
  - exists []. simpl. rewrite skip_0. auto.
  - destruct (IH (advance r)) as (chrom & Hrun & Hlen & Hall).
    pose proof (randint_Ok 0 hi r Hhi) as Hg.
    pose proof (randint_range _ _ _ _ _ Hg) as Hrange.
    eexists (_ :: chrom). split; [|split].
    + cbn [random_chromosome].
      rewrite (M_bind_step _ _ r r hi) by (unfold lift; now rewrite Hmax).
      rewrite (M_bind_step _ _ _ _ _ Hg), (M_bind_step _ _ _ _ _ Hrun).
      now rewrite skip_advance.
    + simpl. now rewrite Hlen.
    + constructor; [exact Hrange|exact Hall].
Qed.

Lemma initialize_population_loop_shape (self : GeneticAlgorithm) (hi : Z) :
  maxZ (data (instance self)) = Ok hi -> 0 <= hi ->
  forall (n : nat) (population : list Individual) (r : rng),
    exists new : list Individual,
      initialize_population_loop self n population r =
        Ok (population ++ new,
            skip (n * Z.to_nat (size (instance self))) r) /\
      length new = n /\
      Forall (fun ind =>
                length (chromosome ind) = Z.to_nat (size (instance self)) /\
                Forall (fun g => 0 <= g <= hi) (chromosome ind) /\
                scored (instance self) ind) new.
Proof.
  intros Hmax Hhi. induction n as [|n IH]; intros population r.
  - exists []. simpl. rewrite app_nil_r, skip_0. auto.
  - destruct (random_chromosome_range self hi Hmax Hhi
                (Z.to_nat (size (instance self))) r)
      as (chrom & Hchrom & Hlen & Hrange).
    pose proof (fitness_Ok (new_Individual chrom) (instance self)) as Hfit.
    destruct (fitness_scored _ _ _ _ Hfit) as [Hsame Hscored].
    match type of Hfit with _ = Ok (_, ?i) => set (ind := i) in * end.
    destruct (IH (population ++ [ind])
                (skip (Z.to_nat (size (instance self))) r))
      as (new & Hrun & Hnew & Hall).
    exists (ind :: new). split; [|split].
    + cbn [initialize_population_loop].
      rewrite (M_bind_step _ _ _ _ _ Hchrom).
      rewrite (M_bind_step _ _ _ _ (_, ind))
        by (unfold lift; rewrite Hfit; reflexivity).
      rewrite Hrun, <- app_assoc, skip_skip. reflexivity.
    + simpl. now rewrite Hnew.
    + constructor; [|exact Hall]. split; [exact Hlen|].
      split; [exact Hrange|exact Hscored].
Qed.

(** X23. When the data have a maximum hi >= 0, [initialize_population]
    raises nothing: it reads pop_size * size random numbers and returns
    pop_size individuals (none if pop_size <= 0), each with size genes
    (none if size <= 0) that lie in [0, hi], and each scored against the
    instance: its cost is the cost of its chromosome and its fitness is
    1 / (1 + cost). *)
Theorem X23_initial_population (self : GeneticAlgorithm) (hi : Z) (r : rng) :
  maxZ (data (instance self)) = Ok hi -> 0 <= hi ->
  exists population : list Individual,
    initialize_population self r =
      Ok (population,
          skip (Z.to_nat (pop_size self) * Z.to_nat (size (instance self)))
            r) /\
    length population = Z.to_nat (pop_size self) /\
    Forall (fun ind =>
              length (chromosome ind) = Z.to_nat (size (instance self)) /\
              Forall (fun g => 0 <= g <= hi) (chromosome ind) /\
              scored (instance self) ind) population.
Proof.
  intros Hmax Hhi.
  destruct (initialize_population_loop_shape self hi Hmax Hhi
              (Z.to_nat (pop_size self)) [] r) as (new & Hrun & Hlen & Hall).
  exists new. auto.
Qed.

Lemma X23_initial_population_witness :
  maxZ (data (instance ga_small)) = Ok 4 /\ 0 <= 4 /\
  exists population : list Individual,
    initialize_population ga_small (rng_affine 7 3) =
      Ok (population, skip 12 (rng_affine 7 3)) /\
    length population = 4%nat.
Proof.
  split; [reflexivity|]. split; [lia|].
  destruct (X23_initial_population ga_small 4 (rng_affine 7 3) eq_refl)
    as (population & Hrun & Hlen & _); [lia|].
  exists population. auto.
Defined.

Lemma random_chromosome_raises (self : GeneticAlgorithm) (n : nat) (r : rng) :
  data (instance self) = [] \/
  (exists hi : Z, maxZ (data (instance self)) = Ok hi /\ hi < 0) ->
  random_chromosome self (S n) r = Raise ValueError.
Proof.
  intros [Hnil|(hi & Hmax & Hhi)]; cbn [random_chromosome].
  - apply M_bind_Raise. unfold lift. now rewrite Hnil.
  - rewrite (M_bind_step _ _ r r hi) by (unfold lift; now rewrite Hmax).
    apply M_bind_Raise. now apply randint_empty.
Qed.

Lemma initialize_population_loop_empty (self : GeneticAlgorithm) :
  size (instance self) <= 0 ->
  forall (n : nat) (population : list Individual) (r : rng),
    initialize_population_loop self n population r =
      Ok (population ++ replicate n ind_empty, r).
Proof.
  intros Hsize. induction n as [|n IH]; intros population r.
  - simpl. now rewrite app_nil_r.
  - cbn [initialize_population_loop].
    replace (Z.to_nat (size (instance self))) with 0%nat by lia.
    cbn [random_chromosome].
    rewrite (M_bind_step _ _ r r []) by reflexivity.
    rewrite (M_bind_step _ _ r r (fitness_of_cost 0, ind_empty))
      by reflexivity.
    rewrite IH, <- app_assoc. reflexivity.
Qed.

(** X24. The edges of [initialize_population]: with pop_size <= 0 it
    returns the empty population and reads no random number; with
    pop_size >= 1 and size >= 1 it raises [ValueError] when the data are
    empty or their maximum is negative; with size <= 0 the data are never
    read and every individual has no gene, cost 0 and fitness 1. *)
Theorem X24_initial_population_edges (self : GeneticAlgorithm) (r : rng) :
  (pop_size self <= 0 -> initialize_population self r = Ok ([], r)) /\
  (1 <= pop_size self -> 1 <= size (instance self) ->
   data (instance self) = [] \/
   (exists hi : Z, maxZ (data (instance self)) = Ok hi /\ hi < 0) ->
   initialize_population self r = Raise ValueError) /\
  (size (instance self) <= 0 ->
   initialize_population self r =
     Ok (replicate (Z.to_nat (pop_size self)) ind_empty, r)).
Proof.
  unfold initialize_population. split; [|split].
  - intros Hpop. replace (Z.to_nat (pop_size self)) with 0%nat by lia.
    reflexivity.
  - intros Hpop Hsize Hdata.
    replace (Z.to_nat (pop_size self))
      with (S (Z.to_nat (pop_size self - 1))) by lia.
    cbn [initialize_population_loop].
    replace (Z.to_nat (size (instance self)))
      with (S (Z.to_nat (size (instance self) - 1))) by lia.
    apply M_bind_Raise. now apply random_chromosome_raises.
  - intros Hsize. now rewrite initialize_population_loop_empty.
Qed.

Lemma X24_initial_population_edges_witness :
  (let self := new_GeneticAlgorithm {| size := 2; data := [] |} 3 (4 # 5)
                 (1 # 5) 10 one_point swap "tournament" 3 in
   1 <= pop_size self /\ 1 <= size (instance self) /\
   data (instance self) = [] /\
   initialize_population self (rng_const 0) = Raise ValueError) /\
  (let self := new_GeneticAlgorithm {| size := 0; data := [] |} 2 (4 # 5)
                 (1 # 5) 10 one_point swap "tournament" 3 in
   size (instance self) <= 0 /\
   initialize_population self (rng_const 0) =
     Ok ([ind_empty; ind_empty], rng_const 0)).
Proof.
  split.
  - intros self. split; [simpl; lia|]. split; [simpl; lia|].
    split; [reflexivity|].
    apply (proj1 (proj2 (X24_initial_population_edges self (rng_const 0))));
      [simpl; lia|simpl; lia|left; reflexivity].
  - intros self. split; [simpl; lia|].
    apply (proj2 (proj2 (X24_initial_population_edges self (rng_const 0)))).
    simpl; lia.
Defined.

End initial_population_more.

(* ===================================================================== *)
(** * Further properties: one generation                                  *)
(* ===================================================================== *)

Section generation_more.
Import instance_py genetic_algorithm_py.

Lemma breed_done (self : GeneticAlgorithm) (population : list Individual)
    (fuel : nat) (new_population : list Individual) (r : rng) :
  pop_size self <= Z.of_nat (length new_population) ->
  breed self population fuel new_population r = Ok (new_population, r).
Proof.
  intros Hfull. destruct fuel; simpl;
    destruct (Z.ltb_spec (Z.of_nat (length new_population)) (pop_size self));
    try lia; reflexivity.
Qed.

Lemma breed_scored (self : GeneticAlgorithm) (population : list Individual)
    (fuel : nat) :
  forall (new_population out : list Individual) (r r' : rng),
    breed self population fuel new_population r = Ok (out, r') ->
    exists children : list Individual,
      out = new_population ++ children /\
      Forall (scored (instance self)) children /\
      pop_size self <= Z.of_nat (length out).
Proof.
  induction fuel as [|fuel IH]; intros new_population out r r' H;
    simpl in H;
    destruct (Z.ltb_spec (Z.of_nat (length new_population)) (pop_size self)).
  - discriminate.
  - inv_M H. exists []. rewrite app_nil_r. auto.
  - inv_run.
    match goal with
    | H : breed _ _ _ _ _ = Ok _ |- _ =>
        apply IH in H as (children & -> & Hch & Hfull)
    end.
    eexists (_ :: _ :: children). split; [now rewrite <- app_assoc|].
    split; [|exact Hfull].
    repeat (constructor; [eapply fitness_scored; eassumption|]).
    exact Hch.
  - inv_M H. exists []. rewrite app_nil_r. auto.
Qed.

Lemma slice_to_nonpositive (x : Individual) (n : Z) :
  n <= 0 -> slice_to [x] n = [].
Proof.
  intros Hn. unfold slice_to. destruct (Z.leb_spec 0 n).
  - replace (Z.to_nat n) with 0%nat by lia. reflexivity.
  - replace (length [x] - Z.to_nat (- n))%nat with 0%nat by (simpl; lia).
    reflexivity.
Qed.

(** The parts of one generation. *)
Lemma generation_body_anatomy (st st' : loop_state) (r r' : rng) :
  generation_body st r = Ok (st', r') ->
  1 <= pop_size (self_ st) /\
  exists (children : list Individual) (current_best : Individual)
         (improved : bool) (fs : list Q) (avg d : Q),
    population_ st' =
      take (Z.to_nat (pop_size (self_ st)))
        (best_individual_ st :: children) /\
    Forall (scored (instance (self_ st))) children /\
    pop_size (self_ st) <= Z.of_nat (length (best_individual_ st :: children)) /\
    max_key fitness (population_ st') = Ok current_best /\
    gt (fitness current_best) (fitness (best_individual_ st)) = Ok improved /\
    best_individual_ st' =
      (if improved then current_best else best_individual_ st) /\
    fitness_values (population_ st') = Ok fs /\
    mean fs = Ok avg /\
    calculate_diversity (population_ st') = Ok d /\
    self_ st' = record_statistics (self_ st) (best_individual_ st') avg d.
Proof.
  intros H. unfold generation_body in H.
  destruct (Z_le_gt_dec (pop_size (self_ st)) 0) as [Hpop|Hpop].
  { rewrite (M_bind_step _ _ _ _ _
               (breed_done (self_ st) (population_ st) _
                  [best_individual_ st] r ltac:(simpl; lia))) in H.
    rewrite slice_to_nonpositive in H by exact Hpop. discriminate H. }
  split; [lia|].
  apply M_bind_Ok in H as (new_population & r0 & Hbreed & H).
  apply breed_scored in Hbreed as (children & -> & Hch & Hfull).
  assert (Hslice : slice_to ([best_individual_ st] ++ children)
                     (pop_size (self_ st)) =
                   take (Z.to_nat (pop_size (self_ st)))
                     (best_individual_ st :: children)).
  { unfold slice_to. destruct (Z.leb_spec 0 (pop_size (self_ st))); [|lia].
    reflexivity. }
  rewrite Hslice in H. inv_run.
  eexists children, _, _, _, _, _. simpl.
  split; [reflexivity|]. split; [exact Hch|]. split; [exact Hfull|].
  split; [eassumption|]. split; [eassumption|]. split; [reflexivity|].
  split; [eassumption|]. split; [eassumption|]. split; [eassumption|].
  reflexivity.
Qed.

(** After a generation, every individual of the population is evaluated
    and no fitter than the best individual. *)
Lemma generation_body_best (st st' : loop_state) (r r' : rng) :
  evaluated (best_individual_ st) ->
  generation_body st r = Ok (st', r') ->
  exists fb : Q,
    fitness (best_individual_ st') = Some fb /\
    evaluated (best_individual_ st') /\
    best_individual_ st' ∈ population_ st' /\
    Forall (fun ind => evaluated ind /\
              exists f : Q, fitness ind = Some f /\ (f <= fb)%Q)
      (population_ st').
Proof.
  intros Hbest H.
  destruct (generation_body_anatomy _ _ _ _ H)
    as (Hpop & children & current_best & improved & fs & avg & d & Hp & Hch &
        Hfull & Hmax & Hgt & Hb & _).
  assert (Hall : Forall evaluated (population_ st')).
  { rewrite Hp. apply Forall_take. constructor; [exact Hbest|].
    eapply Forall_impl; [exact Hch|]. apply scored_evaluated. }
  pose proof (max_key_In _ _ _ Hmax) as Hin.
  assert (Hcur : evaluated current_best)
    by (rewrite Forall_forall in Hall; now apply Hall).
  apply gt_Ok_inv in Hgt as (fc & fo & Hfc & Hfo & ->).
  assert (Hhead : best_individual_ st ∈ population_ st').
  { rewrite Hp. replace (Z.to_nat (pop_size (self_ st)))
      with (S (Z.to_nat (pop_size (self_ st) - 1))) by lia.
    simpl. constructor. }
  assert (Hfb : exists fb : Q,
             fitness (best_individual_ st') = Some fb /\ (fc <= fb)%Q /\
             evaluated (best_individual_ st') /\
             best_individual_ st' ∈ population_ st').
  { rewrite Hb. destruct (Qle_bool fc fo) eqn:E; simpl.
    - apply Qle_bool_iff in E. exists fo. auto.
    - exists fc. split; [exact Hfc|]. split; [apply Qle_refl|]. auto. }
  destruct Hfb as (fb & Hfb & Hle & Hev & Hmem).
  exists fb. split; [exact Hfb|]. split; [exact Hev|]. split; [exact Hmem|].
  rewrite Forall_forall in Hall |- *. intros y Hy.
  split; [now apply Hall|].
  destruct (Hall y Hy) as (cy & _ & _ & Hfy).
  exists (fitness_of_cost cy). split; [exact Hfy|].
  apply Qle_trans with fc; [|exact Hle].
  now apply (max_key_greatest fitness _ _ Hmax y).
Qed.

Lemma fitness_values_Some (l : list Individual) :
  forall fs : list Q,
    fitness_values l = Ok fs ->
    Forall (fun ind => is_Some (fitness ind)) l.
Proof.
  induction l as [|ind l IH]; intros fs H; simpl in H; [constructor|].
  destruct (fitness ind) as [f|] eqn:Hf; [|discriminate].
  apply res_bind_Ok in H as (fs' & Hfs' & _).
  constructor; [rewrite Hf; eauto|now apply (IH fs')].
Qed.

(** X29. Elitism, generation by generation: whenever a generation
    returns, pop_size is at least 1, the new population has exactly
    pop_size individuals, its first individual is the best individual of
    before, the new best individual is a member of the new population,
    and no member of the new population has a greater fitness than the
    new best individual. *)
Theorem X29_generation_keeps_the_best (st st' : loop_state) (r r' : rng) :
  generation_body st r = Ok (st', r') ->
  1 <= pop_size (self_ st) /\
  Z.of_nat (length (population_ st')) = pop_size (self_ st) /\
  population_ st' !! 0%nat = Some (best_individual_ st) /\
  best_individual_ st' ∈ population_ st' /\
  exists fb : Q,
    fitness (best_individual_ st') = Some fb /\
    Forall (fun ind => exists f : Q, fitness ind = Some f /\ (f <= fb)%Q)
      (population_ st').
Proof.
  intros H.
  destruct (generation_body_anatomy _ _ _ _ H)
    as (Hpop & children & current_best & improved & fs & avg & d & Hp & _ &
        Hfull & Hmax & Hgt & Hb & Hfs & _).
  assert (Hhead : population_ st' !! 0%nat = Some (best_individual_ st)).
  { rewrite Hp. replace (Z.to_nat (pop_size (self_ st)))
      with (S (Z.to_nat (pop_size (self_ st) - 1))) by lia.
    reflexivity. }
  pose proof (max_key_In _ _ _ Hmax) as Hin.
  apply gt_Ok_inv in Hgt as (fc & fo & Hfc & Hfo & ->).
  split; [exact Hpop|]. split; [rewrite Hp, length_take; lia|].
  split; [exact Hhead|].
  assert (Hbest : best_individual_ st' ∈ population_ st' /\
                  exists fb : Q,
                    fitness (best_individual_ st') = Some fb /\
                    (fc <= fb)%Q).
  { rewrite Hb. destruct (Qle_bool fc fo) eqn:E; simpl.
    - apply Qle_bool_iff in E. split; [|eauto].
      now apply (list_elem_of_lookup_2 _ 0%nat).
    - split; [exact Hin|]. exists fc. split; [exact Hfc|apply Qle_refl]. }
  destruct Hbest as (Hmem & fb & Hfb & Hle).
  split; [exact Hmem|]. exists fb. split; [exact Hfb|].
  pose proof (fitness_values_Some _ _ Hfs) as Hsome.
  rewrite Forall_forall in Hsome |- *. intros y Hy.
  destruct (Hsome y Hy) as [fy Hfy]. exists fy. split; [exact Hfy|].
  apply Qle_trans with fc; [|exact Hle].
  now apply (max_key_greatest fitness _ _ Hmax y).
Qed.

Lemma X29_generation_keeps_the_best_witness :
  exists (st st' : loop_state) (r r' : rng),
    start ga_small (rng_affine 7 3) = Ok (st, r) /\
    generation_body st r = Ok (st', r') /\
    Z.of_nat (length (population_ st')) = pop_size (self_ st) /\
    population_ st' !! 0%nat = Some (best_individual_ st).
Proof.
  destruct (start ga_small (rng_affine 7 3)) as [[st r]| |] eqn:Hstart;
    [|vm_compute in Hstart; discriminate..].
  vm_compute in Hstart. injection Hstart as <- <-.
  match goal with
  | |- exists st st' r r', Ok (?s, ?x) = _ /\ _ =>
      destruct (generation_body s x) as [[st' r']| |] eqn:Hbody;
        [|vm_compute in Hbody; discriminate..];
      exists s, st', x, r'
  end.
  split; [reflexivity|]. split; [exact Hbody|].
  destruct (X29_generation_keeps_the_best _ _ _ _ Hbody)
    as (_ & Hlen & Hhead & _).
  split; [exact Hlen|exact Hhead].
Defined.

End generation_more.

(* ===================================================================== *)
(** * Further properties: the run                                         *)
(* ===================================================================== *)

Section run_more.
Import instance_py genetic_algorithm_py.

Lemma main_loop_done (fuel : nat) (st : loop_state) (r : rng) :
  max_generations (self_ st) <= generation_ st ->
  main_loop fuel st r = Ok (st, r).
Proof.
  intros Hdone. destruct fuel; simpl;
    destruct (Z.ltb_spec (generation_ st) (max_generations (self_ st)));
    try lia; reflexivity.
Qed.

Lemma initialize_population_loop_scored (self : GeneticAlgorithm) (n : nat) :
  forall (population out : list Individual) (r r' : rng),
    initialize_population_loop self n population r = Ok (out, r') ->
    Forall (scored (instance self)) population ->
    Forall (scored (instance self)) out.
Proof.
  induction n as [|n IH]; intros population out r r' H Hpop; simpl in H.
  - inv_M H. exact Hpop.
  - inv_M H. inv_M H. destruct a0 as [f ind]. inv_M H1.
    apply (IH _ _ _ _ H). apply Forall_app. split; [exact Hpop|].
    constructor; [|constructor]. eapply fitness_scored; eauto.
Qed.

(** The parts of the start of a run. *)
Lemma start_anatomy (self : GeneticAlgorithm) (st : loop_state) (r r' : rng) :
  start self r = Ok (st, r') ->
  self_ st = self /\ generation_ st = 0 /\ stagnation_counter_ st = 0 /\
  initialize_population self r = Ok (population_ st, r') /\
  max_key fitness (population_ st) = Ok (best_individual_ st) /\
  scored (instance self) (best_individual_ st).
Proof.
  unfold start. intros H.
  apply M_bind_Ok in H as (population & r0 & Hinit & H).
  apply M_bind_Ok in H as (best & r1 & Hmax & H).
  apply lift_Ok in Hmax as [Hmax ->]. apply M_ret_Ok in H as [-> ->].
  simpl. split; [reflexivity|]. split; [reflexivity|].
  split; [reflexivity|]. split; [exact Hinit|]. split; [exact Hmax|].
  apply initialize_population_loop_scored in Hinit; [|constructor].
  rewrite Forall_forall in Hinit. apply Hinit.
  now apply (max_key_In fitness).
Qed.

Lemma same_configuration_refl (self : GeneticAlgorithm) :
  same_configuration self self.
Proof. repeat split. Qed.

Lemma same_configuration_trans (a b c : GeneticAlgorithm) :
  same_configuration a b -> same_configuration b c -> same_configuration a c.
Proof.
  unfold same_configuration.
  intros (H1 & H2 & H3 & H4 & H5 & H6 & H7 & H8 & H9)
         (K1 & K2 & K3 & K4 & K5 & K6 & K7 & K8 & K9).
  repeat split; congruence.
Qed.

Lemma generation_body_scored (st st' : loop_state) (r r' : rng) :
  scored (instance (self_ st)) (best_individual_ st) ->
  generation_body st r = Ok (st', r') ->
  same_configuration (self_ st) (self_ st') /\
  scored (instance (self_ st')) (best_individual_ st').
Proof.
  intros Hbest H.
  destruct (generation_body_anatomy _ _ _ _ H)
    as (_ & children & current_best & improved & fs & avg & d & Hp & Hch &
        _ & Hmax & _ & Hb & _ & _ & _ & Hself).
  rewrite Hself. split; [repeat split|]. simpl.
  rewrite Hb. destruct improved; [|exact Hbest].
  assert (Hall : Forall (scored (instance (self_ st))) (population_ st')).
  { rewrite Hp. apply Forall_take. now constructor. }
  rewrite Forall_forall in Hall. apply Hall.
  now apply (max_key_In fitness).
Qed.

Lemma main_loop_scored (fuel : nat) :
  forall (st st' : loop_state) (r r' : rng),
    scored (instance (self_ st)) (best_individual_ st) ->
    main_loop fuel st r = Ok (st', r') ->
    same_configuration (self_ st) (self_ st') /\
    scored (instance (self_ st')) (best_individual_ st').
Proof.
  induction fuel as [|fuel IH]; intros st st' r r' Hbest H; simpl in H;
    destruct (generation_ st <? max_generations (self_ st)).
  - discriminate.
  - apply M_ret_Ok in H as [-> ->].
    split; [apply same_configuration_refl|exact Hbest].
  - apply M_bind_Ok in H as (st1 & r1 & Hbody & H).
    destruct (generation_body_scored _ _ _ _ Hbest Hbody) as [Hc1 Hb1].
    destruct (200 <? stagnation_counter_ st1).
    + apply M_ret_Ok in H as [-> ->]. auto.
    + destruct (IH _ _ _ _ Hb1 H) as [Hc Hb].
      split; [now apply same_configuration_trans with (self_ st1)|exact Hb].
  - apply M_ret_Ok in H as [-> ->].
    split; [apply same_configuration_refl|exact Hbest].
Qed.

(** The parts of a run that returned. *)
Lemma run_anatomy (self self' : GeneticAlgorithm) (result : RunResult)
    (r r' : rng) :
  run self r = Ok ((result, self'), r') ->
  exists (st0 st : loop_state) (r0 : rng),
    start self r = Ok (st0, r0) /\
    main_loop (Z.to_nat (max_generations self)) st0 r0 = Ok (st, r') /\
    result = result_of st /\ self' = self_ st.
Proof.
  unfold run. intros H.
  apply M_bind_Ok in H as (st0 & r0 & Hstart & H).
  apply M_bind_Ok in H as (st & r1 & Hloop & H).
  apply M_ret_Ok in H as [Heq ->]. injection Heq as -> ->.
  exists st0, st, r0. auto.
Qed.



Lemma initialize_population_raises (self : GeneticAlgorithm) (r : rng) :
  1 <= pop_size self -> 1 <= size (instance self) ->
  data (instance self) = [] \/
  (exists hi : Z, maxZ (data (instance self)) = Ok hi /\ hi < 0) ->
  initialize_population self r = Raise ValueError.
Proof.
  intros Hpop Hsize Hdata. unfold initialize_population.
  replace (Z.to_nat (pop_size self))
    with (S (Z.to_nat (pop_size self - 1))) by lia.
  cbn [initialize_population_loop].
  replace (Z.to_nat (size (instance self)))
    with (S (Z.to_nat (size (instance self) - 1))) by lia.
  apply M_bind_Raise. now apply random_chromosome_raises.
Qed.

(** X26. Configurations that [__init__] accepts and [run] refuses,
    whatever max_generations is: with pop_size <= 0 the run raises
    [ValueError] (the maximum of an empty initial population); with
    pop_size >= 1 and size >= 1 it raises [ValueError] when the data are
    empty or their maximum is negative (the first gene cannot be
    drawn). *)
Theorem X26_run_rejections (self : GeneticAlgorithm) (r : rng) :
  (pop_size self <= 0 -> run self r = Raise ValueError) /\
  (1 <= pop_size self -> 1 <= size (instance self) ->
   data (instance self) = [] \/
   (exists hi : Z, maxZ (data (instance self)) = Ok hi /\ hi < 0) ->
   run self r = Raise ValueError).
Proof.
  split.
  - intros Hpop. unfold run, start, initialize_population.
    replace (Z.to_nat (pop_size self)) with 0%nat by lia. reflexivity.
  - intros Hpop Hsize Hdata. unfold run, start.
    apply M_bind_Raise, M_bind_Raise.
    now apply initialize_population_raises.
Qed.

Lemma X26_run_rejections_witness :
  (let self := new_GeneticAlgorithm {| size := 3; data := [4; 0; 2] |} 0
                 (4 # 5) (1 # 5) 10 one_point swap "tournament" 3 in
   pop_size self <= 0 /\ run self (rng_const 0) = Raise ValueError) /\
  (let self := new_GeneticAlgorithm {| size := 2; data := [-1; -3] |} 4
                 (4 # 5) (1 # 5) 10 one_point swap "tournament" 3 in
   1 <= pop_size self /\ 1 <= size (instance self) /\
   (exists hi : Z, maxZ (data (instance self)) = Ok hi /\ hi < 0) /\
   run self (rng_const 0) = Raise ValueError).
Proof.
  split.
  - intros self. split; [simpl; lia|].
    apply (proj1 (X26_run_rejections self (rng_const 0))). simpl; lia.
  - intros self.
    assert (Hmax : exists hi : Z,
               maxZ (data (instance self)) = Ok hi /\ hi < 0)
      by (exists (-1); split; [reflexivity|lia]).
    split; [simpl; lia|]. split; [simpl; lia|]. split; [exact Hmax|].
    apply (proj2 (X26_run_rejections self (rng_const 0)));
      [simpl; lia|simpl; lia|right; exact Hmax].
Defined.

(** X27. With max_generations <= 0 the loop body never runs: a run
    that returns reports 0 generations, leaves the object and its four
    histories as they were, has read only the random numbers of the
    initial population, and returns as best individual the first fittest
    individual of the initial population. *)
Theorem X27_run_of_no_generation (self self' : GeneticAlgorithm)
    (result : RunResult) (r r' : rng) :
  max_generations self <= 0 ->
  run self r = Ok ((result, self'), r') ->
  self' = self /\ generations result = 0 /\
  history_best_fitness result = best_fitness_history self /\
  history_avg_fitness result = avg_fitness_history self /\
  history_best_cost result = best_cost_history self /\
  history_diversity result = diversity_history self /\
  exists population : list Individual,
    initialize_population self r = Ok (population, r') /\
    max_key fitness population = Ok (best_individual result).
Proof.
  intros Hmax Hrun.
  destruct (run_anatomy _ _ _ _ _ Hrun) as (st0 & st & r0 & Hstart & Hloop &
                                            -> & ->).
  destruct (start_anatomy _ _ _ _ Hstart)
    as (Hself & Hgen & _ & Hinit & Hbest & _).
  rewrite main_loop_done in Hloop by (rewrite Hself, Hgen; exact Hmax).
  injection Hloop as <- <-. simpl. rewrite Hself.
  split; [reflexivity|]. split; [exact Hgen|].
  do 4 (split; [reflexivity|]).
  exists (population_ st0). auto.
Qed.

Lemma X27_run_of_no_generation_witness :
  let self := new_GeneticAlgorithm {| size := 3; data := [4; 0; 2] |} 4
                (4 # 5) (1 # 5) 0 one_point swap "tournament" 3 in
  max_generations self <= 0 /\
  exists (result : RunResult) (self' : GeneticAlgorithm) (r' : rng),
    run self (rng_affine 7 3) = Ok ((result, self'), r') /\
    self' = self /\ generations result = 0.
Proof.
  intros self. split; [simpl; lia|].
  destruct (run self (rng_affine 7 3)) as [[[result self'] r']| |] eqn:Hrun;
    [|vm_compute in Hrun; discriminate..].
  exists result, self', r'. split; [reflexivity|].
  destruct (X27_run_of_no_generation self self' result (rng_affine 7 3) r')
    as (Hself & Hgen & _); [simpl; lia|exact Hrun|].
  split; [exact Hself|exact Hgen].
Defined.

(** X28. What a run returns is coherent with the instance: the run
    changes no field of the configuration (it only appends to the
    histories), best_chromosome is the chromosome of the best individual,
    best_cost is the cost of that chromosome against the data of the
    instance, and best_fitness is 1 / (1 + best_cost). *)
Theorem X28_run_result_is_scored (self self' : GeneticAlgorithm)
    (result : RunResult) (r r' : rng) :
  run self r = Ok ((result, self'), r') ->
  same_configuration self self' /\
  best_chromosome result = chromosome (best_individual result) /\
  best_cost result =
    Some (fitness_py.compute_cost (best_individual result) (instance self)) /\
  best_fitness result =
    Some (fitness_of_cost
            (fitness_py.compute_cost (best_individual result)
               (instance self))).
Proof.
  intros Hrun.
  destruct (run_anatomy _ _ _ _ _ Hrun) as (st0 & st & r0 & Hstart & Hloop &
                                            -> & ->).
  destruct (start_anatomy _ _ _ _ Hstart)
    as (Hself & _ & _ & _ & _ & Hbest).
  rewrite <- Hself in Hbest |- *.
  destruct (main_loop_scored _ _ _ _ _ Hbest Hloop) as [Hconf [Hc Hf]].
  split; [exact Hconf|]. split; [reflexivity|]. simpl.
  destruct Hconf as (Hinst & _). rewrite Hinst in Hc, Hf. auto.
Qed.

Lemma X28_run_result_is_scored_witness :
  exists (result : RunResult) (self' : GeneticAlgorithm) (r' : rng),
    run ga_small (rng_affine 7 3) = Ok ((result, self'), r') /\
    instance self' = instance ga_small /\
    best_cost result =
      Some (fitness_py.compute_cost (best_individual result)
              (instance ga_small)).
Proof.
  destruct (run ga_small (rng_affine 7 3)) as [[[result self'] r']| |]
    eqn:Hrun; [|vm_compute in Hrun; discriminate..].
  exists result, self', r'. split; [reflexivity|].
  destruct (X28_run_result_is_scored ga_small self' result (rng_affine 7 3)
              r' Hrun) as ((Hinst & _) & _ & Hcost & _).
  split; [exact Hinst|exact Hcost].
Defined.

End run_more.

(* ===================================================================== *)
(** * Further properties: the histories                                   *)
(* ===================================================================== *)

Section histories_more.
Import instance_py genetic_algorithm_py.

Lemma fitness_values_Forall (P : Q -> Prop) (l : list Individual) :
  forall fs : list Q,
    fitness_values l = Ok fs ->
    Forall (fun ind => forall f : Q, fitness ind = Some f -> P f) l ->
    Forall P fs.
Proof.
  induction l as [|ind l IH]; intros fs H Hall; simpl in H.
  - injection H as <-. constructor.
  - apply Forall_cons in Hall as [Hind Hall].
    destruct (fitness ind) as [f|]; [|discriminate].
    apply res_bind_Ok in H as (fs' & Hfs' & H). injection H as <-.
    constructor; [now apply Hind|now apply IH].
Qed.

Lemma fold_Qplus_bounds (hi : Q) (l : list Q) :
  Forall (fun q => (0 < q)%Q /\ (q <= hi)%Q) l ->
  forall a : Q,
    (a <= fold_left Qplus l a)%Q /\
    (l <> [] -> (a < fold_left Qplus l a)%Q) /\
    (fold_left Qplus l a <= a + inject_Z (Z.of_nat (length l)) * hi)%Q.
Proof.
  induction 1 as [|q l [Hq0 Hq1] _ IH]; intros a.
  - simpl. change (inject_Z (Z.of_nat 0)) with 0%Q.
    split; [lra|]. split; [congruence|lra].
  - destruct (IH (a + q)%Q) as (IH0 & _ & IH1). cbn [fold_left length].
    rewrite Nat2Z.inj_succ, <- Z.add_1_r, inject_Z_plus.
    change (inject_Z 1) with 1%Q.
    split; [lra|]. split; [intros _; lra|lra].
Qed.

Lemma mean_bounds (hi : Q) (l : list Q) (avg : Q) :
  mean l = Ok avg ->
  Forall (fun q => (0 < q)%Q /\ (q <= hi)%Q) l ->
  (0 < avg)%Q /\ (avg <= hi)%Q.
Proof.
  unfold mean. destruct l as [|x l]; [discriminate|].
  intros H Hall. injection H as <-.
  destruct (fold_Qplus_bounds hi _ Hall 0) as (_ & H0 & H1).
  specialize (H0 ltac:(discriminate)). fold (sumQ (x :: l)) in *.
  cbn [length] in H1 |- *.
  assert (Hn : (0 < inject_Z (Z.of_nat (S (length l))))%Q).
  { change 0%Q with (inject_Z 0). rewrite <- Zlt_Qlt. lia. }
  split.
  - apply Qlt_shift_div_l; [exact Hn|]. lra.
  - apply Qle_shift_div_r; [exact Hn|]. lra.
Qed.

Lemma calculate_diversity_unit (population : list Individual) (d : Q) :
  calculate_diversity population = Ok d -> (0 <= d)%Q /\ (d <= 1)%Q.
Proof.
  unfold calculate_diversity.
  destruct (length population <? 2)%nat.
  { intros H. injection H as <-. split; lra. }
  intros H. apply res_bind_Ok in H as (differences & Houter & H).
  apply diversity_outer_unit in Houter; [|constructor].
  destruct differences as [|x l].
  - injection H as <-. split; lra.
  - now apply (mean_unit (x :: l)).
Qed.

(** What one generation appends to the histories. *)
Lemma generation_body_appends (st st' : loop_state) (r r' : rng) :
  evaluated (best_individual_ st) ->
  generation_body st r = Ok (st', r') ->
  evaluated (best_individual_ st') /\
  exists avg d : Q,
    best_fitness_history (self_ st') =
      best_fitness_history (self_ st) ++ [fitness (best_individual_ st')] /\
    avg_fitness_history (self_ st') = avg_fitness_history (self_ st) ++ [avg] /\
    best_cost_history (self_ st') =
      best_cost_history (self_ st) ++ [cost (best_individual_ st')] /\
    diversity_history (self_ st') = diversity_history (self_ st) ++ [d] /\
    records_consistent [fitness (best_individual_ st')] [avg]
      [cost (best_individual_ st')] [d].
Proof.
  intros Hbest H.
  destruct (generation_body_anatomy _ _ _ _ H)
    as (_ & children & current_best & improved & fs & avg & d & _ & _ & _ &
        _ & _ & _ & Hfs & Hmean & Hd & Hself).
  destruct (generation_body_best _ _ _ _ Hbest H)
    as (fb & Hfb & Hev & _ & Hall).
  split; [exact Hev|]. exists avg, d. rewrite Hself. simpl.
  do 4 (split; [reflexivity|]).
  destruct Hev as (cb & Hcb0 & Hcb & Hfcb).
  assert (Havg : (0 < avg)%Q /\ (avg <= fb)%Q).
  { apply (mean_bounds fb fs avg Hmean).
    apply (fitness_values_Forall _ _ _ Hfs).
    eapply Forall_impl; [exact Hall|]. simpl.
    intros y ((cy & Hcy0 & _ & Hfy) & f & Hf & Hle) f' Hf'.
    rewrite Hf in Hf'. injection Hf' as <-. split; [|exact Hle].
    rewrite Hfy in Hf. injection Hf as <-. now apply fitness_of_cost_pos. }
  split; [|split].
  - constructor; [|constructor]. exists cb. auto.
  - constructor; [|constructor]. exists fb. split; [exact Hfb|exact Havg].
  - constructor; [|constructor]. now apply (calculate_diversity_unit _ _ Hd).
Qed.

Lemma records_consistent_app (bf1 bf2 : list (option Q)) (af1 af2 : list Q)
    (bc1 bc2 : list (option Z)) (dv1 dv2 : list Q) :
  records_consistent bf1 af1 bc1 dv1 ->
  records_consistent bf2 af2 bc2 dv2 ->
  records_consistent (bf1 ++ bf2) (af1 ++ af2) (bc1 ++ bc2) (dv1 ++ dv2).
Proof.
  intros (H1 & H2 & H3) (K1 & K2 & K3).
  split; [|split]; now apply Forall2_app.
Qed.

Lemma main_loop_appends (fuel : nat) :
  forall (st st' : loop_state) (r r' : rng),
    evaluated (best_individual_ st) ->
    main_loop fuel st r = Ok (st', r') ->
    exists (bf : list (option Q)) (af : list Q) (bc : list (option Z))
           (dv : list Q),
      best_fitness_history (self_ st') = best_fitness_history (self_ st) ++ bf /\
      avg_fitness_history (self_ st') = avg_fitness_history (self_ st) ++ af /\
      best_cost_history (self_ st') = best_cost_history (self_ st) ++ bc /\
      diversity_history (self_ st') = diversity_history (self_ st) ++ dv /\
      records_consistent bf af bc dv /\
      ((bf = [] /\ bc = [] /\ best_individual_ st' = best_individual_ st) \/
       (last bf = Some (fitness (best_individual_ st')) /\
        last bc = Some (cost (best_individual_ st')))).
Proof.
  assert (Hnone : forall st : loop_state,
            exists (bf : list (option Q)) (af : list Q)
                   (bc : list (option Z)) (dv : list Q),
              best_fitness_history (self_ st) =
                best_fitness_history (self_ st) ++ bf /\
              avg_fitness_history (self_ st) =
                avg_fitness_history (self_ st) ++ af /\
              best_cost_history (self_ st) =
                best_cost_history (self_ st) ++ bc /\
              diversity_history (self_ st) =
                diversity_history (self_ st) ++ dv /\
              records_consistent bf af bc dv /\
              ((bf = [] /\ bc = [] /\
                best_individual_ st = best_individual_ st) \/
               (last bf = Some (fitness (best_individual_ st)) /\
                last bc = Some (cost (best_individual_ st))))).
  { intros st. exists [], [], [], []. rewrite !app_nil_r.
    do 4 (split; [reflexivity|]).
    split; [split; [|split]; constructor|left; auto]. }
  induction fuel as [|fuel IH]; intros st st' r r' Hbest H; simpl in H;
    destruct (generation_ st <? max_generations (self_ st)).
  - discriminate.
  - apply M_ret_Ok in H as [-> ->]. apply Hnone.
  - apply M_bind_Ok in H as (st1 & r1 & Hbody & H).
    destruct (generation_body_appends _ _ _ _ Hbest Hbody)
      as (Hbest1 & avg & d & E1 & E2 & E3 & E4 & Hrec).
    destruct (200 <? stagnation_counter_ st1).
    + apply M_ret_Ok in H as [-> ->].
      eexists _, _, _, _. split; [exact E1|]. split; [exact E2|].
      split; [exact E3|]. split; [exact E4|]. split; [exact Hrec|].
      right. split; reflexivity.
    + destruct (IH _ _ _ _ Hbest1 H)
        as (bf & af & bc & dv & F1 & F2 & F3 & F4 & Hrec' & Hlast).
      exists ([fitness (best_individual_ st1)] ++ bf), ([avg] ++ af),
        ([cost (best_individual_ st1)] ++ bc), ([d] ++ dv).
      rewrite F1, F2, F3, F4, E1, E2, E3, E4, <- !app_assoc.
      do 4 (split; [reflexivity|]).
      split; [now apply records_consistent_app|]. right.
      destruct Hlast as [(-> & -> & ->)|[Hl1 Hl2]].
      * split; reflexivity.
      * rewrite !last_app, Hl1, Hl2. split; reflexivity.
  - apply M_ret_Ok in H as [-> ->]. apply Hnone.
Qed.

(** X30. The four histories of a run that returned, read side by side:
    the run appends to each of them one entry per generation, and in
    every generation the recorded best fitness is 1 / (1 + c) for the
    recorded best cost c >= 0, the recorded average fitness is positive
    and at most the recorded best fitness, and the recorded diversity
    lies in [0, 1]; if any generation ran, the best_fitness and best_cost
    returned are the last entries recorded. *)
Theorem X30_histories_are_consistent (self self' : GeneticAlgorithm)
    (result : RunResult) (r r' : rng) :
  run self r = Ok ((result, self'), r') ->
  exists (bf : list (option Q)) (af : list Q) (bc : list (option Z))
         (dv : list Q),
    best_fitness_history self' = best_fitness_history self ++ bf /\
    avg_fitness_history self' = avg_fitness_history self ++ af /\
    best_cost_history self' = best_cost_history self ++ bc /\
    diversity_history self' = diversity_history self ++ dv /\
    records_consistent bf af bc dv /\
    (bf <> [] ->
     last bf = Some (best_fitness result) /\
     last bc = Some (best_cost result)).
Proof.
  intros Hrun.
  destruct (run_anatomy _ _ _ _ _ Hrun) as (st0 & st & r0 & Hstart & Hloop &
                                            -> & ->).
  destruct (start_state _ _ _ _ Hstart) as (Hself & _ & _ & Hbest & _).
  destruct (main_loop_appends _ _ _ _ _ Hbest Hloop)
    as (bf & af & bc & dv & F1 & F2 & F3 & F4 & Hrec & Hlast).
  rewrite Hself in F1, F2, F3, F4.
  exists bf, af, bc, dv. do 4 (split; [assumption|]).
  split; [exact Hrec|]. intros Hne.
  destruct Hlast as [(-> & _)|Hlast]; [congruence|exact Hlast].
Qed.

Lemma X30_histories_are_consistent_witness :
  exists (result : RunResult) (self' : GeneticAlgorithm) (r' : rng)
         (bf : list (option Q)) (af : list Q) (bc : list (option Z))
         (dv : list Q),
    run ga_small (rng_affine 7 3) = Ok ((result, self'), r') /\
    best_cost_history self' = best_cost_history ga_small ++ bc /\
    records_consistent bf af bc dv.
Proof.
  destruct (run ga_small (rng_affine 7 3)) as [[[result self'] r']| |]
    eqn:Hrun; [|vm_compute in Hrun; discriminate..].
  destruct (X30_histories_are_consistent ga_small self' result
              (rng_affine 7 3) r' Hrun)
    as (bf & af & bc & dv & _ & _ & Hbc & _ & Hrec & _).
  exists result, self', r', bf, af, bc, dv.
  split; [reflexivity|]. split; [exact Hbc|exact Hrec].
Defined.

End histories_more.
